(** * stress-ng: CPU affinity control and the memcpy stressor

    A shallow embedding of [core-affinity.c] and [stress-memcpy.c] and the
    properties of their specification.

    - [Memcpy] models memory as a flat byte store indexed by address, the
      naive copy and move loops, the verification wrappers, the eight-step
      inner pattern and the round-robin "all" method.
    - [Affinity] models the taskset list parser, the bind operation and the
      migrate operation over an abstract kernel. *)

From Stdlib Require Import ZArith Lia Ascii String List Bool.
From stdpp Require Import base tactics decidable numbers gmap.
Import ListNotations.

Local Open Scope Z_scope.

(** ** Part I: stress-memcpy.c *)

Module Memcpy.

(** *** Memory and pointers

    A pointer is its address; memory maps every address to a byte.  The
    buffers of the stressor come from one [mmap] region, so address
    arithmetic on them never wraps. *)

Definition pointer := Z.
Definition memory := pointer -> Byte.byte.

Definition store (m : memory) (p : pointer) (v : Byte.byte) : memory :=
  fun q => if Z.eqb q p then v else m q.

(** [m] and [m'] hold the same byte at every address. *)
Definition mem_eq (m m' : memory) : Prop := forall q, m q = m' q.

(** The block [dest[0..n)] receives [src[0..n)] as it was in [m]; every
    other byte keeps its value. *)
Definition blit (m : memory) (dest src : pointer) (n : Z) : memory :=
  fun q => if bool_decide (dest <= q < dest + n) then m (src + (q - dest)) else m q.

Definition MEMCPY_MEMSIZE : Z := 2048.
Definition MEMCPY_LOOPS : Z := 1024.
Definition ALIGN_SIZE : Z := 64.

(** The C type [memcpy_func_t] (and [memmove_func_t]): the call returns a
    pointer and leaves a new memory. *)
Definition memcpy_func_t := pointer -> pointer -> Z -> memory -> pointer * memory.

(** *** The naive primitives (macros TEST_NAIVE_MEMCPY, TEST_NAIVE_MEMMOVE) *)

(** [for (i = 0; i < n; i++) *(cdest++) = *(csrc++);] with [k] iterations
    left. *)
Fixpoint copy_forward (k : nat) (cdest csrc : pointer) (m : memory) : memory :=
  match k with
  | O => m
  | S k' => copy_forward k' (cdest + 1) (csrc + 1) (store m cdest (m csrc))
  end.

(** [for (i = 0; i < n; i++) *(--cdest) = *(--csrc);] with [k] iterations
    left. *)
Fixpoint copy_backward (k : nat) (cdest csrc : pointer) (m : memory) : memory :=
  match k with
  | O => m
  | S k' => copy_backward k' (cdest - 1) (csrc - 1) (store m (cdest - 1) (m (csrc - 1)))
  end.

Definition test_naive_memcpy : memcpy_func_t := fun dest src n m =>
  (dest, copy_forward (Z.to_nat n) dest src m).

Definition test_naive_memmove : memcpy_func_t := fun dest src n m =>
  if dest <? src then
    (dest, copy_forward (Z.to_nat n) dest src m)
  else
    (dest, copy_backward (Z.to_nat n) (dest + n) (src + n) m).

(** The optimisation hints (NOINLINE, OPTIMIZE0..3) do not change what the
    functions compute. *)
Definition test_naive_memcpy_o0 := test_naive_memcpy.
Definition test_naive_memcpy_o1 := test_naive_memcpy.
Definition test_naive_memcpy_o2 := test_naive_memcpy.
Definition test_naive_memcpy_o3 := test_naive_memcpy.
Definition test_naive_memmove_o0 := test_naive_memmove.
Definition test_naive_memmove_o1 := test_naive_memmove.
Definition test_naive_memmove_o2 := test_naive_memmove.
Definition test_naive_memmove_o3 := test_naive_memmove.

(** What the stressor expects of a move primitive: it returns [dest] and
    leaves [dest[0..n)] holding the old [src[0..n)], whatever the overlap. *)
Definition memmove_contract (f : memcpy_func_t) : Prop :=
  forall dest src n m,
    fst (f dest src n m) = dest /\ mem_eq (snd (f dest src n m)) (blit m dest src n).

(** A copy primitive owes the same only when the two blocks do not
    overlap. *)
Definition memcpy_contract (f : memcpy_func_t) : Prop :=
  forall dest src n m,
    dest + n <= src \/ src + n <= dest ->
    fst (f dest src n m) = dest /\ mem_eq (snd (f dest src n m)) (blit m dest src n).

(** *** Stressor state *)

(** A line written by [pr_fail]. *)
Inductive failure : Type :=
| ContentDiffers (op : string) (args_name method_name : string)
| ReturnDiffers (op : string) (args_name method_name : string) (ptr dest : pointer).

(** The file's mutable globals together with the memory: [s_method_name],
    the cursor [whence] of [stress_memcpy_all], the wrapper selected by
    OPT_FLAGS_VERIFY ([memcpy_check] and [memmove_check] are always set
    together) and the lines logged so far. *)
Record state : Type := mkState {
  mem : memory;
  s_args_name : string;
  s_method_name : string;
  whence : Z;
  verify : bool;
  failures : list failure
}.

Definition set_mem (m : memory) (st : state) : state :=
  mkState m (s_args_name st) (s_method_name st) (whence st) (verify st) (failures st).
Definition set_method_name (name : string) (st : state) : state :=
  mkState (mem st) (s_args_name st) name (whence st) (verify st) (failures st).
Definition set_whence (w : Z) (st : state) : state :=
  mkState (mem st) (s_args_name st) (s_method_name st) w (verify st) (failures st).
Definition pr_fail (f : failure) (st : state) : state :=
  mkState (mem st) (s_args_name st) (s_method_name st) (whence st) (verify st)
          (failures st ++ [f]).

(** Two states agree on everything but the failure log. *)
Definition same_data (st st' : state) : Prop :=
  mem st = mem st' /\ s_args_name st = s_args_name st' /\
  s_method_name st = s_method_name st' /\ whence st = whence st' /\
  verify st = verify st'.

(** Two states agree on the globals other than the memory and the log. *)
Definition same_globals (st st' : state) : Prop :=
  s_method_name st = s_method_name st' /\ whence st = whence st' /\
  verify st = verify st'.

(** libc's [memcmp]: the difference of the first pair of differing bytes,
    0 when the [k] bytes agree. *)
Fixpoint memcmp_loop (k : nat) (m : memory) (s1 s2 : pointer) : Z :=
  match k with
  | O => 0
  | S k' =>
      let a := Z.of_N (Byte.to_N (m s1)) in
      let b := Z.of_N (Byte.to_N (m s2)) in
      if a =? b then memcmp_loop k' m (s1 + 1) (s2 + 1) else a - b
  end.

Definition memcmp (m : memory) (s1 s2 : pointer) (n : Z) : Z :=
  memcmp_loop (Z.to_nat n) m s1 s2.

(** *** The wrappers *)

Definition memcpy_check_func (func : memcpy_func_t) (dest src : pointer) (n : Z)
    (st : state) : pointer * state :=
  let (ptr, m') := func dest src n (mem st) in
  let st := set_mem m' st in
  let st :=
    if negb (memcmp (mem st) dest src n =? 0) then
      pr_fail (ContentDiffers "memcpy" (s_args_name st) (s_method_name st)) st
    else st in
  let st :=
    if negb (ptr =? dest) then
      pr_fail (ReturnDiffers "memcpy" (s_args_name st) (s_method_name st) ptr dest) st
    else st in
  (ptr, st).

Definition memcpy_no_check_func (func : memcpy_func_t) (dest src : pointer) (n : Z)
    (st : state) : pointer * state :=
  let (ptr, m') := func dest src n (mem st) in
  (ptr, set_mem m' st).

Definition memmove_check_func (func : memcpy_func_t) (dest src : pointer) (n : Z)
    (st : state) : pointer * state :=
  let (ptr, m') := func dest src n (mem st) in
  let st := set_mem m' st in
  let st :=
    if negb (memcmp (mem st) dest src n =? 0) then
      pr_fail (ContentDiffers "memmove" (s_args_name st) (s_method_name st)) st
    else st in
  let st :=
    if negb (ptr =? dest) then
      pr_fail (ReturnDiffers "memmove" (s_args_name st) (s_method_name st) ptr dest) st
    else st in
  (ptr, st).

Definition memmove_no_check_func (func : memcpy_func_t) (dest src : pointer) (n : Z)
    (st : state) : pointer * state :=
  let (ptr, m') := func dest src n (mem st) in
  (ptr, set_mem m' st).

(** The function pointers [memcpy_check] and [memmove_check], as
    [stress_memcpy] sets them from OPT_FLAGS_VERIFY. *)
Definition memcpy_check (func : memcpy_func_t) (dest src : pointer) (n : Z)
    (st : state) : pointer * state :=
  if verify st then memcpy_check_func func dest src n st
  else memcpy_no_check_func func dest src n st.

Definition memmove_check (func : memcpy_func_t) (dest src : pointer) (n : Z)
    (st : state) : pointer * state :=
  if verify st then memmove_check_func func dest src n st
  else memmove_no_check_func func dest src n st.

(** *** The methods *)

(** [for (i = 0; i < MEMCPY_LOOPS; i++) body] with [k] iterations left. *)
Fixpoint for_loops (k : nat) (body : state -> state) (st : state) : state :=
  match k with
  | O => st
  | S k' => for_loops k' body (body st)
  end.

(** The loop body of the macro STRESS_MEMCPY_NAIVE; every result is cast to
    void. *)
Definition inner_pattern (cpy move : memcpy_func_t) (str1 str2 str3 : pointer)
    (st : state) : state :=
  let st := snd (memcpy_check cpy str3 str2 MEMCPY_MEMSIZE st) in
  let st := snd (memcpy_check cpy str2 str3 (MEMCPY_MEMSIZE / 2) st) in
  let st := snd (memmove_check move str3 (str3 + 64) (MEMCPY_MEMSIZE - 64) st) in
  let st := snd (memcpy_check cpy str1 str2 MEMCPY_MEMSIZE st) in
  let st := snd (memmove_check move (str3 + 64) str3 (MEMCPY_MEMSIZE - 64) st) in
  let st := snd (memcpy_check cpy str3 str1 MEMCPY_MEMSIZE st) in
  let st := snd (memmove_check move (str3 + 1) str3 (MEMCPY_MEMSIZE - 1) st) in
  let st := snd (memmove_check move str3 (str3 + 1) (MEMCPY_MEMSIZE - 1) st) in
  st.

(** The macro STRESS_MEMCPY_NAIVE(method, name, cpy, move). *)
Definition STRESS_MEMCPY_NAIVE (method : string) (cpy move : memcpy_func_t)
    (str1 str2 str3 : pointer) (st : state) : state :=
  let st := set_method_name method st in
  for_loops (Z.to_nat MEMCPY_LOOPS) (inner_pattern cpy move str1 str2 str3) st.

Definition stress_memcpy_naive := STRESS_MEMCPY_NAIVE "naive" test_naive_memcpy test_naive_memmove.
Definition stress_memcpy_naive_o0 := STRESS_MEMCPY_NAIVE "naive_o0" test_naive_memcpy_o0 test_naive_memmove_o0.
Definition stress_memcpy_naive_o1 := STRESS_MEMCPY_NAIVE "naive_o1" test_naive_memcpy_o1 test_naive_memmove_o1.
Definition stress_memcpy_naive_o2 := STRESS_MEMCPY_NAIVE "naive_o2" test_naive_memcpy_o2 test_naive_memmove_o2.
Definition stress_memcpy_naive_o3 := STRESS_MEMCPY_NAIVE "naive_o3" test_naive_memcpy_o3 test_naive_memmove_o3.

Section Platform.

(** libc's [memcpy] and [memmove], the compiler's [__builtin_memcpy] and
    [__builtin_memmove], and whether HAVE_BUILTIN_MEMCPY and
    HAVE_BUILTIN_MEMMOVE are both defined. *)
Variables memcpy memmove : memcpy_func_t.
Variables builtin_memcpy builtin_memmove : memcpy_func_t.
Variable HAVE_BUILTIN : bool.

(** The identifier [b] of the fallback branch of [stress_memcpy_builtin]:
    the function does not declare it, so its binding is left open. *)
Variable b : pointer.

Definition stress_memcpy_libc (str1 str2 str3 : pointer) (st : state) : state :=
  let st := set_method_name "libc" st in
  for_loops (Z.to_nat MEMCPY_LOOPS) (fun st =>
    let st := snd (memcpy_check memcpy str3 str2 MEMCPY_MEMSIZE st) in
    let st := snd (memcpy_check memcpy str2 str3 (MEMCPY_MEMSIZE / 2) st) in
    let st := snd (memmove_check memmove str3 (str3 + 64) (MEMCPY_MEMSIZE - 64) st) in
    let st := snd (memcpy_check memcpy str1 str2 MEMCPY_MEMSIZE st) in
    let st := snd (memmove_check memmove (str3 + 64) str3 (MEMCPY_MEMSIZE - 64) st) in
    let st := snd (memcpy_check memcpy str3 str1 MEMCPY_MEMSIZE st) in
    let st := snd (memmove_check memmove (str3 + 1) str3 (MEMCPY_MEMSIZE - 1) st) in
    let st := snd (memmove_check memmove str3 (str3 + 1) (MEMCPY_MEMSIZE - 1) st) in
    st) st.

Definition stress_builtin_memcpy_wrapper : memcpy_func_t :=
  fun dst src n m => builtin_memcpy dst src n m.
Definition stress_builtin_memmove_wrapper : memcpy_func_t :=
  fun dst src n m => builtin_memmove dst src n m.

Definition stress_memcpy_builtin (str1 str2 str3 : pointer) (st : state) : state :=
  if HAVE_BUILTIN then
    let st := set_method_name "builtin" st in
    for_loops (Z.to_nat MEMCPY_LOOPS) (fun st =>
      let st := snd (memcpy_check stress_builtin_memcpy_wrapper str3 str2 MEMCPY_MEMSIZE st) in
      let st := snd (memcpy_check stress_builtin_memcpy_wrapper str2 str3 (MEMCPY_MEMSIZE / 2) st) in
      let st := snd (memmove_check stress_builtin_memmove_wrapper str3 (str3 + 64) (MEMCPY_MEMSIZE - 64) st) in
      let st := snd (memcpy_check stress_builtin_memcpy_wrapper str1 str2 MEMCPY_MEMSIZE st) in
      let st := snd (memmove_check stress_builtin_memmove_wrapper (str3 + 64) str3 (MEMCPY_MEMSIZE - 64) st) in
      let st := snd (memcpy_check stress_builtin_memcpy_wrapper str3 str1 MEMCPY_MEMSIZE st) in
      let st := snd (memmove_check stress_builtin_memmove_wrapper (str3 + 1) str3 (MEMCPY_MEMSIZE - 1) st) in
      let st := snd (memmove_check stress_builtin_memmove_wrapper str3 (str3 + 1) (MEMCPY_MEMSIZE - 1) st) in
      st) st
  else
    let st := set_method_name "builtin (libc)" st in
    for_loops (Z.to_nat MEMCPY_LOOPS) (fun st =>
      let st := snd (memcpy_check memcpy str3 str2 MEMCPY_MEMSIZE st) in
      let st := snd (memcpy_check memcpy str2 str3 (MEMCPY_MEMSIZE / 2) st) in
      let st := snd (memmove_check memmove str3 (str3 + 64) (MEMCPY_MEMSIZE - 64) st) in
      let st := snd (memcpy_check memcpy str1 b MEMCPY_MEMSIZE st) in
      let st := snd (memmove_check memmove (str3 + 64) str3 (MEMCPY_MEMSIZE - 64) st) in
      let st := snd (memcpy_check memcpy b str1 MEMCPY_MEMSIZE st) in
      let st := snd (memmove_check memmove (str3 + 1) str3 (MEMCPY_MEMSIZE - 1) st) in
      let st := snd (memmove_check memmove str3 (str3 + 1) (MEMCPY_MEMSIZE - 1) st) in
      st) st.

(** [whence] is the function's static cursor, 0 at program start. *)
Definition stress_memcpy_all (str1 str2 str3 : pointer) (st : state) : state :=
  match whence st with
  | 0 =>
      let st := set_whence (whence st + 1) st in
      stress_memcpy_libc str1 str2 str3 st
  | 1 =>
      let st := set_whence (whence st + 1) st in
      stress_memcpy_builtin str1 str2 str3 st
  | 2 =>
      let st := set_whence (whence st + 1) st in
      stress_memcpy_naive str1 str2 str3 st
  | 3 =>
      let st := set_whence (whence st + 1) st in
      stress_memcpy_naive_o0 str1 str2 str3 st
  | _ =>
      let st := stress_memcpy_naive_o3 str1 str2 str3 st in
      set_whence 0 st
  end.

(** The table [stress_memcpy_methods], without its NULL terminator. *)
Definition stress_memcpy_methods : list (string * (pointer -> pointer -> pointer -> state -> state)) :=
  [ ("all", stress_memcpy_all);
    ("libc", stress_memcpy_libc);
    ("builtin", stress_memcpy_builtin);
    ("naive", stress_memcpy_naive);
    ("naive_o0", stress_memcpy_naive_o0);
    ("naive_o1", stress_memcpy_naive_o1);
    ("naive_o2", stress_memcpy_naive_o2);
    ("naive_o3", stress_memcpy_naive_o3) ]%string.

End Platform.

(** The slices [stress_memcpy] takes from its [mmap] region [buf]. *)
Definition str1_of (buf : pointer) : pointer := buf.
Definition str2_of (buf : pointer) : pointer := str1_of buf + MEMCPY_MEMSIZE.
Definition str3_of (buf : pointer) : pointer := str2_of buf + MEMCPY_MEMSIZE.

(** The memory one pass of the inner pattern leaves, in terms of the memory
    [m] it started from: [str1] is a copy of [str2], and so is [str3] except
    for its last byte, which repeats the byte before it. *)
Definition pattern_mem (buf : pointer) (m : memory) : memory :=
  fun q =>
    if bool_decide (str1_of buf <= q < str1_of buf + MEMCPY_MEMSIZE) then
      m (str2_of buf + (q - str1_of buf))
    else if bool_decide (str3_of buf <= q < str3_of buf + (MEMCPY_MEMSIZE - 1)) then
      m (str2_of buf + (q - str3_of buf))
    else if bool_decide (q = str3_of buf + (MEMCPY_MEMSIZE - 1)) then
      m (str2_of buf + (MEMCPY_MEMSIZE - 2))
    else m q.

(** Sample memories: every byte zero; the byte at [p] one and the rest
    zero; address [q] holding [q mod 256]. *)
Definition zero_mem : memory := fun _ => Byte.x00.
Definition one_at (p : pointer) : memory := store zero_mem p Byte.x01.
Definition ramp : memory := fun q =>
  match Byte.of_N (Z.to_N (q mod 256)) with
  | Some v => v
  | None => Byte.x00
  end.

(** The state in which [stress_memcpy] enters its loop: the cursor and the
    method name still have their static initialisers. *)
Definition initial_state (m : memory) (args_name : string) (opt_verify : bool) : state :=
  mkState m args_name "" 0 opt_verify [].

(** *** Choosing the method *)

(** [for (info = stress_memcpy_methods; info->func; info++)
       if (!strcmp(info->name, name))]: the index of the first entry of the
    table named [name], counting from [idx]. *)
Fixpoint find_method {F : Type} (name : string) (tbl : list (string * F)) (idx : nat)
    : option nat :=
  match tbl with
  | [] => None
  | (n, _) :: rest => if String.eqb n name then Some idx else find_method name rest (S idx)
  end.

(** The "memcpy-method" entry of the settings store (a pointer to a table
    entry, here its index; [None] while unset) and what went to stderr. *)
Record settings : Type := mkSettings {
  memcpy_method_setting : option nat;
  stderr : list string
}.

Section Settings.

Variables memcpy memmove : memcpy_func_t.
Variables builtin_memcpy builtin_memmove : memcpy_func_t.
Variable HAVE_BUILTIN : bool.
Variable b : pointer.

Definition stress_set_memcpy_method (name : string) (s : settings) : Z * settings :=
  let tbl := stress_memcpy_methods memcpy memmove builtin_memcpy builtin_memmove
               HAVE_BUILTIN b in
  match find_method name tbl 0 with
  | Some i => (0, mkSettings (Some i) (stderr s))
  | None =>
      (-1, mkSettings (memcpy_method_setting s)
             (stderr s ++ ["memcpy-method must be one of:"%string]
                ++ map (fun info => String.append " " (fst info)) tbl
                ++ [String "010"%char EmptyString]))
  end.

Definition stress_memcpy_set_default (s : settings) : settings :=
  snd (stress_set_memcpy_method "all" s).

(** The entry [stress_memcpy] runs: [&stress_memcpy_methods[0]] unless the
    setting is there to replace it. *)
Definition memcpy_method (s : settings)
    : string * (pointer -> pointer -> pointer -> state -> state) :=
  let tbl := stress_memcpy_methods memcpy memmove builtin_memcpy builtin_memmove
               HAVE_BUILTIN b in
  nth (match memcpy_method_setting s with Some i => i | None => O end) tbl
      ("all"%string, stress_memcpy_all memcpy memmove builtin_memcpy builtin_memmove
                       HAVE_BUILTIN b).

End Settings.

(** *** The stressor *)

(** [do { method(str1, str2, str3); inc_counter(args); }
     while (keep_stressing(args));] where [answers] lists what
    [keep_stressing] answers, call after call; the loop ends at the first
    [false], or when the list does. The result is the last state and the
    counter. *)
Fixpoint stress_loop (method : state -> state) (answers : list bool)
    (st : state) (counter : Z) : state * Z :=
  let st := method st in
  let counter := counter + 1 in
  match answers with
  | true :: answers' => stress_loop method answers' st counter
  | _ => (st, counter)
  end.

Section Stressor.

Variables memcpy memmove : memcpy_func_t.
Variables builtin_memcpy builtin_memmove : memcpy_func_t.
Variable HAVE_BUILTIN : bool.
Variable b : pointer.

(** From the harness: the exit codes, and [stress_rndbuf(ptr, n)], which
    gives the memory after it has filled [n] bytes at [ptr]. *)
Variable EXIT_SUCCESS EXIT_NO_RESOURCE : Z.
Variable stress_rndbuf : pointer -> Z -> memory -> memory.

(** [stress_memcpy]: [mapped] is what [mmap] returned ([None] for
    MAP_FAILED) and [m] the memory with the new region in it; the result is
    the exit status and, when the loop ran, its last state and the
    counter. *)
Definition stress_memcpy (mapped : option pointer) (m : memory) (args_name : string)
    (opt_verify : bool) (s : settings) (answers : list bool)
    : Z * option (state * Z) :=
  match mapped with
  | None => (EXIT_NO_RESOURCE, None)
  | Some buf =>
      let str1 := buf in
      let str2 := str1 + MEMCPY_MEMSIZE in
      let str3 := str2 + MEMCPY_MEMSIZE in
      let info := memcpy_method memcpy memmove builtin_memcpy builtin_memmove
                    HAVE_BUILTIN b s in
      let st := initial_state (stress_rndbuf str3 ALIGN_SIZE m) args_name opt_verify in
      (EXIT_SUCCESS, Some (stress_loop (snd info str1 str2 str3) answers st 0))
  end.

End Stressor.

(** The number of [true] answers before the first [false]. *)
Fixpoint leading_trues (answers : list bool) : Z :=
  match answers with
  | true :: answers' => 1 + leading_trues answers'
  | _ => 0
  end.

(** Every byte of [m] from [lo] up to [hi] (excluded) is [c]. *)
Definition const_between (m : memory) (lo hi : pointer) (c : Byte.byte) : Prop :=
  forall q, lo <= q < hi -> m q = c.

End Memcpy.

(** ** Part II: core-affinity.c *)

Module Affinity.

(** *** Integers and CPU sets *)

(** Conversion to [int] (two's complement, 32 bits). *)
Definition to_int (z : Z) : Z := (z + 2 ^ 31) mod 2 ^ 32 - 2 ^ 31.

Definition INT_MAX : Z := 2 ^ 31 - 1.

(** [cpu_set_t] with its macros from <sched.h>, as the set of the indices
    of its bits that are set. The type has CPU_SETSIZE bits: [CPU_SET]
    converts its index to [size_t] and does nothing when the index is not
    below CPU_SETSIZE, which is also what happens to a negative index.
    [CPU_CLR] removes the bit of its index; an index without a bit is in no
    mask, so removing it from the set is the macro's doing nothing. *)
Abbreviation cpu_set_t := (gset Z).

Definition CPU_SETSIZE : Z := 1024.

Definition CPU_ZERO : cpu_set_t := ∅.
Definition CPU_SET (cpu : Z) (set : cpu_set_t) : cpu_set_t :=
  if (0 <=? cpu) && (cpu <? CPU_SETSIZE) then {[cpu]} ∪ set else set.
Definition CPU_CLR (cpu : Z) (set : cpu_set_t) : cpu_set_t := set ∖ {[cpu]}.
Definition CPU_COUNT (set : cpu_set_t) : Z := Z.of_nat (size set).

(** The indices of a set that have a bit in a [cpu_set_t]. *)
Definition representable (s : gset Z) : cpu_set_t :=
  filter (fun c => 0 <= c < CPU_SETSIZE) s.

(** *** What the process prints before it exits *)

Inductive diagnostic : Type :=
| InvalidRange (cpu allowed_max : Z)
    (* "taskset: invalid range, <cpu> is not allowed, allowed range: 0 to <allowed_max>" *)
| InvalidNumber (str : string)
    (* "taskset: invalid number '<str>'" *)
| ExpectingNumber (token : string)
    (* "taskset: expecting number following '-' in '<token>'" *)
| InvalidRangeIn (token : string)
    (* "taskset: invalid range in '<token>' (end value must be larger than start value" *)
| CannotSetAffinity
    (* "taskset: cannot set CPU affinity, errno=..." *).

(** A call either returns or ends the process with [_exit(EXIT_FAILURE)]
    after a diagnostic, or it overflows a signed integer, after which C
    says nothing about what happens ([Undefined]). [OutOfFuel] belongs to
    the model only: the loop over [strtok] runs on fuel. *)
Inductive result (A : Type) : Type :=
| Return (a : A)
| Exit (d : diagnostic)
| Undefined
| OutOfFuel.
Arguments Return {A} a.
Arguments Exit {A} d.
Arguments Undefined {A}.
Arguments OutOfFuel {A}.

#[export] Instance result_ret : MRet result := fun A a => Return a.
#[export] Instance result_bind : MBind result := fun A B k r =>
  match r with
  | Return a => k a
  | Exit d => Exit d
  | Undefined => Undefined
  | OutOfFuel => OutOfFuel
  end.

(** *** libc on strings *)

Definition is_delim (c : ascii) : bool := Ascii.eqb c ","%char.

(** The leading delimiters [strtok] steps over. *)
Fixpoint skip_delims (s : string) : string :=
  match s with
  | String c s' => if is_delim c then skip_delims s' else s
  | EmptyString => s
  end.

(** The token at the head of [s], and where [strtok] resumes: behind the
    delimiter that ended the token, or at the end of the string. *)
Fixpoint take_token (s : string) : string * string :=
  match s with
  | String c s' =>
      if is_delim c then (EmptyString, s')
      else let (tok, rest) := take_token s' in (String c tok, rest)
  | EmptyString => (EmptyString, EmptyString)
  end.

(** One call of [strtok(_, ",")] with its saved position at [save]: the
    token and the new saved position, or [None] for NULL. *)
Definition strtok (save : string) : option (string * string) :=
  match skip_delims save with
  | EmptyString => None
  | s => Some (take_token s)
  end.

(** [strstr(haystack, needle)]: the suffix of [haystack] from the first
    occurrence of [needle]. *)
Fixpoint strstr (haystack needle : string) : option string :=
  if String.prefix needle haystack then Some haystack
  else match haystack with
       | String _ h' => strstr h' needle
       | EmptyString => None
       end.

Definition isspace (c : ascii) : bool :=
  let n := nat_of_ascii c in
  Nat.eqb n 32 || (Nat.leb 9 n && Nat.leb n 13).

Definition isdigit (c : ascii) : bool :=
  let n := nat_of_ascii c in
  Nat.leb 48 n && Nat.leb n 57.

Fixpoint skip_space (s : string) : string :=
  match s with
  | String c s' => if isspace c then skip_space s' else s
  | EmptyString => s
  end.

(** The value of the longest run of decimal digits at the head of [s],
    continuing from [acc]. *)
Fixpoint scan_digits (s : string) (acc : Z) : Z :=
  match s with
  | String c s' =>
      if isdigit c then scan_digits s' (10 * acc + (Z.of_nat (nat_of_ascii c) - 48))
      else acc
  | EmptyString => acc
  end.

Definition starts_with_digit (s : string) : bool :=
  match s with
  | String c _ => isdigit c
  | EmptyString => false
  end.

(** The value is converted as [strtol] does, clamped to the range of
    [long], and then stored into the [int]. *)
Definition clamp_long (z : Z) : Z := Z.max (- 2 ^ 63) (Z.min (2 ^ 63 - 1) z).

(** [sscanf(str, "%d", &val)]: [Some val] when it returns 1, [None] when it
    returns 0 or EOF. White space is skipped, one sign is accepted, at least
    one digit is needed, and whatever follows the digits is left unread. *)
Definition sscanf_d (str : string) : option Z :=
  let s := skip_space str in
  let '(neg, s) :=
    match s with
    | String "-"%char s' => (true, s')
    | String "+"%char s' => (false, s')
    | _ => (false, s)
    end in
  if starts_with_digit s then
    let v := scan_digits s 0 in
    Some (to_int (clamp_long (if neg then - v else v)))
  else None.

(** *** Parsing *)

Definition stress_check_cpu_affinity_range (max_cpus cpu : Z) : result unit :=
  if (cpu <? 0) || (negb (max_cpus =? -1) && (max_cpus <=? cpu)) then
    Exit (InvalidRange cpu (max_cpus - 1))
  else Return tt.

Definition stress_parse_cpu (str : string) : result Z :=
  match sscanf_d str with
  | Some val => Return val
  | None => Exit (InvalidNumber str)
  end.

(** [for (i = lo; i <= hi; i++) CPU_SET(i, &set);] with [k] rounds left
    until [i] is above [hi]. [i] is an [int]: in a round with [i] at INT_MAX
    the increment overflows. (That round is the one with [i = hi]; [i <= hi]
    then holds of every [int], so the loop has no regular end.) The range
    checks keep [hi] below [max_cpus], so this needs the upper bound to be
    disabled. *)
Fixpoint set_cpus (k : nat) (i : Z) (set : cpu_set_t) : result cpu_set_t :=
  match k with
  | O => Return set
  | S k' =>
      let set := CPU_SET i set in
      if i =? INT_MAX then Undefined else set_cpus k' (i + 1) set
  end.

Definition tail_string (s : string) : string :=
  match s with
  | String _ s' => s'
  | EmptyString => EmptyString
  end.

(** The body of the loop over the tokens. *)
Definition parse_token (max_cpus : Z) (token : string) (set : cpu_set_t)
    : result cpu_set_t :=
  let tmpptr := strstr token "-" in
  lo ← stress_parse_cpu token;
  hi ← match tmpptr with
       | Some tmp =>
           let tmp := tail_string tmp in
           hi ← match tmp with
                | String _ _ => stress_parse_cpu tmp
                | EmptyString => Exit (ExpectingNumber token)
                end;
           if hi <? lo then Exit (InvalidRangeIn token) else Return hi
       | None => Return lo
       end;
  _ ← stress_check_cpu_affinity_range max_cpus lo;
  _ ← stress_check_cpu_affinity_range max_cpus hi;
  set_cpus (Z.to_nat (hi - lo + 1)) lo set.

(** [for (ptr = str; (token = strtok(ptr, ",")) != NULL; ptr = NULL)]. *)
Fixpoint parse_loop (fuel : nat) (max_cpus : Z) (save : string) (set : cpu_set_t)
    : result cpu_set_t :=
  match fuel with
  | O => OutOfFuel
  | S fuel' =>
      match strtok save with
      | None => Return set
      | Some (token, save') =>
          set' ← parse_token max_cpus token set;
          parse_loop fuel' max_cpus save' set'
      end
  end.

(** The tokens the loop goes through, in order, when no round exits. *)
Fixpoint tokens (fuel : nat) (save : string) : list string :=
  match fuel with
  | O => []
  | S fuel' =>
      match strtok save with
      | None => []
      | Some (token, save') => token :: tokens fuel' save'
      end
  end.

Definition tokens_of (arg : string) : list string := tokens (S (String.length arg)) arg.


(** [ch] does not occur in [s]. *)
Fixpoint lacks (ch : ascii) (s : string) : bool :=
  match s with
  | String c s' => negb (Ascii.eqb c ch) && lacks ch s'
  | EmptyString => true
  end.

(** The mask [stress_set_cpu_affinity] has built when its loop ends. Every
    round takes at least one character, so the length of [arg] bounds the
    number of rounds. *)
Definition build_cpu_set (max_cpus : Z) (arg : string) : result cpu_set_t :=
  parse_loop (S (String.length arg)) max_cpus arg CPU_ZERO.

(** *** The process and the kernel *)

(** What the file keeps between calls: the kernel's scheduling state for
    the process, the static [stress_affinity_cpu_set], and, for the
    statements below, the masks handed to [sched_setaffinity] so far. *)
Record process (K : Type) : Type := mkProcess {
  kernel : K;
  stress_affinity_cpu_set : cpu_set_t;
  applied : list cpu_set_t
}.
Arguments mkProcess {K} _ _ _.
Arguments kernel {K} _.
Arguments stress_affinity_cpu_set {K} _.
Arguments applied {K} _.

Section Kernel.

(** The kernel and the harness, as far as this file calls them:
    [sched_setaffinity] gives the new scheduling state, or [None] when it
    returns a negative value; [sched_getaffinity] gives the mask, or [None]
    when it fails; [stress_get_cpu] is the current CPU as an unsigned int;
    [max_cpus] is [stress_get_processors_configured()]; [g_opt_flags] and
    OPT_FLAGS_CHANGE_CPU come from stress-ng.h. *)
Variable K : Type.
Variable sched_setaffinity : cpu_set_t -> K -> option K.
Variable sched_getaffinity : K -> option cpu_set_t.
Variable stress_get_cpu : K -> Z.
Variable max_cpus : Z.
Variable g_opt_flags : Z.
Variable OPT_FLAGS_CHANGE_CPU : Z.

(** A call of [sched_setaffinity] on the process itself. *)
Definition call_setaffinity (mask : cpu_set_t) (p : process K) : option K * process K :=
  (sched_setaffinity mask (kernel p),
   mkProcess (kernel p) (stress_affinity_cpu_set p) (applied p ++ [mask])).

(** [stress_const_optdup] is taken to succeed. *)
Definition stress_set_cpu_affinity (arg : string) (p : process K)
    : result (Z * process K) :=
  set ← build_cpu_set max_cpus arg;
  let (r, p) := call_setaffinity set p in
  match r with
  | None => Exit CannotSetAffinity
  | Some k' => Return (0, mkProcess k' set (applied p))
  end.

(** The mask [stress_change_cpu] starts from: the kernel's when nothing is
    cached ([None] when the query fails), the cached one otherwise. *)
Definition starting_mask (p : process K) : option cpu_set_t :=
  if CPU_COUNT (stress_affinity_cpu_set p) =? 0
  then sched_getaffinity (kernel p)
  else Some (stress_affinity_cpu_set p).

Definition stress_change_cpu (old_cpu : Z) (p : process K) : Z * process K :=
  if Z.land g_opt_flags OPT_FLAGS_CHANGE_CPU =? 0 then (old_cpu, p)
  else
    match starting_mask p with
    | None => (old_cpu, p)
    | Some mask =>
        let '(from_cpu, mask) :=
          if old_cpu <? 0 then (to_int (stress_get_cpu (kernel p)), mask)
          else (old_cpu, if 1 <? CPU_COUNT mask then CPU_CLR old_cpu mask else mask) in
        let (r, p) := call_setaffinity mask p in
        match r with
        | Some k' =>
            let moved_cpu := stress_get_cpu k' in
            (to_int moved_cpu, mkProcess k' (stress_affinity_cpu_set p) (applied p))
        | None => (from_cpu, p)
        end
    end.

End Kernel.

(** *** A small kernel to run the operations on

    A host with [ncpus] CPUs. The state is the CPU the process runs on and
    its allowed mask. Setting a mask without an online CPU fails (EINVAL);
    otherwise the process stays where it is if that CPU is allowed and moves
    to the lowest allowed CPU if not. *)
Definition host : Type := Z * cpu_set_t.

Definition online (ncpus : Z) (mask : cpu_set_t) : list Z :=
  filter (fun c => bool_decide (c ∈ mask)) (seqZ 0 ncpus).

Definition host_setaffinity (ncpus : Z) (mask : cpu_set_t) (k : host) : option host :=
  match online ncpus mask with
  | [] => None
  | c :: _ => Some (if bool_decide (fst k ∈ mask) then fst k else c, list_to_set (online ncpus mask))
  end.

Definition host_getaffinity (k : host) : option cpu_set_t := Some (snd k).
Definition host_get_cpu (k : host) : Z := fst k.

(** A fresh process on CPU 0 of a host with [ncpus] CPUs. *)
Definition boot (ncpus : Z) : process host :=
  mkProcess (0, list_to_set (seqZ 0 ncpus)) ∅ [].

(** A process on CPU 2 of a four-CPU host whose bind cached [{0, 2, 3}],
    and one that never bound a mask. *)
Definition bound_process : process host :=
  mkProcess (2, {[0; 2; 3]}) {[0; 2; 3]} [{[0; 2; 3]}].
Definition unbound_process : process host := boot 4.

(** A process on CPU 2 of a two-CPU host whose cached mask [{3}] names no
    CPU of the host: the kernel will refuse it. *)
Definition stranded_process : process host := mkProcess (2, {[3]}) {[3]} [].

(** The process a bind of ["2,2,3-5,4"] leaves on an eight-CPU host. *)
Definition bound_2_to_5 : process host :=
  mkProcess (2, {[2; 3; 4; 5]}) {[2; 3; 4; 5]} [{[2; 3; 4; 5]}].

(** *** The list grammar of the specification

    [list := item ("," item)*], [item := cpu | cpu "-" cpu], [cpu] a decimal
    integer: a run of decimal digits, with or without a sign before it. *)

Inductive digit : Type := d0 | d1 | d2 | d3 | d4 | d5 | d6 | d7 | d8 | d9.

Definition digit_char (d : digit) : ascii :=
  match d with
  | d0 => "0" | d1 => "1" | d2 => "2" | d3 => "3" | d4 => "4"
  | d5 => "5" | d6 => "6" | d7 => "7" | d8 => "8" | d9 => "9"
  end%char.

Definition digit_value (d : digit) : Z :=
  match d with
  | d0 => 0 | d1 => 1 | d2 => 2 | d3 => 3 | d4 => 4
  | d5 => 5 | d6 => 6 | d7 => 7 | d8 => 8 | d9 => 9
  end.

(** A [cpu] written without a sign: its first digit and the digits after
    it. *)
Definition spec_cpu : Type := digit * list digit.

Fixpoint digits_string (ds : list digit) : string :=
  match ds with
  | [] => EmptyString
  | d :: ds' => String (digit_char d) (digits_string ds')
  end.

Fixpoint digits_value (ds : list digit) (acc : Z) : Z :=
  match ds with
  | [] => acc
  | d :: ds' => digits_value ds' (10 * acc + digit_value d)
  end.

Definition cpu_string (c : spec_cpu) : string := digits_string (fst c :: snd c).
Definition cpu_value (c : spec_cpu) : Z := digits_value (fst c :: snd c) 0.

Inductive spec_item : Type :=
| Single (n : spec_cpu)
| Range (lo hi : spec_cpu).

Definition item_string (it : spec_item) : string :=
  match it with
  | Single n => cpu_string n
  | Range lo hi => String.append (cpu_string lo) (String "-"%char (cpu_string hi))
  end.

(** [cpu] is a decimal integer, and a decimal integer may be written with
    a sign: [cpu := ["+" | "-"] digit+]. The items above are the ones
    written without signs. *)
Inductive sign : Type := NoSign | Plus | Minus.

Definition sign_string (s : sign) : string :=
  match s with
  | NoSign => EmptyString
  | Plus => "+"
  | Minus => "-"
  end%string.

Definition signed_cpu : Type := sign * spec_cpu.

Definition signed_string (n : signed_cpu) : string :=
  String.append (sign_string (fst n)) (cpu_string (snd n)).

Definition signed_value (n : signed_cpu) : Z :=
  match fst n with
  | Minus => - cpu_value (snd n)
  | _ => cpu_value (snd n)
  end.

Inductive signed_item : Type :=
| SSingle (n : signed_cpu)
| SRange (lo hi : signed_cpu).

Definition signed_item_string (it : signed_item) : string :=
  match it with
  | SSingle n => signed_string n
  | SRange lo hi => String.append (signed_string lo) (String "-"%char (signed_string hi))
  end.

(** The text of a list, its items separated by commas. *)
Fixpoint list_string (it : signed_item) (its : list signed_item) : string :=
  match its with
  | [] => signed_item_string it
  | it' :: its' =>
      String.append (signed_item_string it) (String ","%char (list_string it' its'))
  end.

(** Every CPU of the item lies in [[0, max_cpus)], and a range has
    [LO <= HI]. *)
Definition item_valid (max_cpus : Z) (it : signed_item) : Prop :=
  match it with
  | SSingle n => 0 <= signed_value n < max_cpus
  | SRange lo hi =>
      0 <= signed_value lo < max_cpus /\ 0 <= signed_value hi < max_cpus /\
      signed_value lo <= signed_value hi
  end.

(** The set an item stands for: [{N}], or [{LO, ..., HI}]. *)
Definition item_set (it : signed_item) : gset Z :=
  match it with
  | SSingle n => {[signed_value n]}
  | SRange lo hi =>
      list_to_set (seqZ (signed_value lo) (signed_value hi - signed_value lo + 1))
  end.

(** The union of the items of a list. *)
Definition list_set (its : list signed_item) : gset Z := ⋃ (item_set <$> its).

(** The loop looks for the first ['-'] of a token to tell a range from a
    single CPU. That is the dash between LO and HI unless LO is written
    with a minus sign (it is then a zero). Such a range is read as the
    grammar means it only when HI is zero as well. *)
Definition lo_unsigned (it : signed_item) : Prop :=
  match it with
  | SSingle _ => True
  | SRange lo hi => fst lo = Minus -> signed_value hi = 0
  end.

End Affinity.

(** ** Part III: properties of the memcpy stressor *)

Module MemcpyFacts.
Import Memcpy.

(** *** The naive loops *)

Lemma store_eq m p v : store m p v p = v.
Proof. unfold store. by rewrite Z.eqb_refl. Qed.

Lemma store_ne m p v q : q <> p -> store m p v q = m q.
Proof. unfold store. intros H. destruct (Z.eqb_spec q p); [done | reflexivity]. Qed.

Lemma copy_forward_blit k : forall cdest csrc m q,
  cdest <= csrc \/ csrc + Z.of_nat k <= cdest ->
  copy_forward k cdest csrc m q = blit m cdest csrc (Z.of_nat k) q.
Proof.
  induction k as [|k IH]; intros cdest csrc m q Hdir.
  - unfold blit. simpl. case_bool_decide; [lia | reflexivity].
  - cbn [copy_forward]. rewrite IH by lia. unfold blit.
    repeat case_bool_decide; try lia.
    + rewrite store_ne by lia. f_equal. lia.
    + assert (q = cdest) as -> by lia. rewrite store_eq. f_equal. lia.
    + rewrite store_ne by lia. reflexivity.
Qed.

Lemma copy_backward_blit k : forall cdest csrc m q,
  csrc <= cdest \/ cdest <= csrc - Z.of_nat k ->
  copy_backward k cdest csrc m q =
  blit m (cdest - Z.of_nat k) (csrc - Z.of_nat k) (Z.of_nat k) q.
Proof.
  induction k as [|k IH]; intros cdest csrc m q Hdir.
  - unfold blit. simpl. case_bool_decide; [lia | reflexivity].
  - cbn [copy_backward]. rewrite IH by lia. unfold blit.
    repeat case_bool_decide; try lia.
    + rewrite store_ne by lia. f_equal. lia.
    + assert (q = cdest - 1) as -> by lia. rewrite store_eq. f_equal. lia.
    + rewrite store_ne by lia. reflexivity.
Qed.

Lemma blit_to_nat m dest src n q :
  blit m dest src (Z.of_nat (Z.to_nat n)) q = blit m dest src n q.
Proof. unfold blit. repeat case_bool_decide; try lia; reflexivity. Qed.

Lemma test_naive_memmove_contract : memmove_contract test_naive_memmove.
Proof.
  intros dest src n m. unfold test_naive_memmove.
  destruct (Z.ltb_spec dest src) as [Hlt|Hge]; cbn [fst snd]; split; try reflexivity.
  - intros q. rewrite copy_forward_blit by lia. apply blit_to_nat.
  - intros q. destruct (Z.le_gt_cases n 0) as [Hn|Hn].
    + replace (Z.to_nat n) with O by lia. cbn [copy_backward].
      unfold blit. case_bool_decide; [lia | reflexivity].
    + rewrite copy_backward_blit by lia.
      replace (Z.of_nat (Z.to_nat n)) with n by lia.
      replace (dest + n - n) with dest by lia.
      replace (src + n - n) with src by lia. reflexivity.
Qed.

Lemma test_naive_memcpy_contract : memcpy_contract test_naive_memcpy.
Proof.
  intros dest src n m Hdisj. unfold test_naive_memcpy. cbn [fst snd].
  split; [reflexivity|]. intros q.
  destruct (Z.le_gt_cases n 0) as [Hn|Hn].
  - replace (Z.to_nat n) with O by lia. cbn [copy_forward].
    unfold blit. case_bool_decide; [lia | reflexivity].
  - rewrite copy_forward_blit by lia. apply blit_to_nat.
Qed.

(** *** The wrappers *)

Lemma memcpy_check_func_data func dest src n st :
  fst (memcpy_check_func func dest src n st) = fst (func dest src n (mem st)) /\
  same_data (snd (memcpy_check_func func dest src n st))
            (set_mem (snd (func dest src n (mem st))) st) /\
  exists extra, failures (snd (memcpy_check_func func dest src n st)) = failures st ++ extra.
Proof.
  unfold memcpy_check_func, same_data.
  destruct (func dest src n (mem st)) as [ptr m'].
  destruct (negb (memcmp _ dest src n =? 0)), (negb (ptr =? dest)); cbn;
    (split; [reflexivity|]); (split; [tauto|]).
  - rewrite <- app_assoc. eauto.
  - eauto.
  - eauto.
  - exists []. by rewrite app_nil_r.
Qed.

Lemma memmove_check_func_data func dest src n st :
  fst (memmove_check_func func dest src n st) = fst (func dest src n (mem st)) /\
  same_data (snd (memmove_check_func func dest src n st))
            (set_mem (snd (func dest src n (mem st))) st) /\
  exists extra, failures (snd (memmove_check_func func dest src n st)) = failures st ++ extra.
Proof.
  unfold memmove_check_func, same_data.
  destruct (func dest src n (mem st)) as [ptr m'].
  destruct (negb (memcmp _ dest src n =? 0)), (negb (ptr =? dest)); cbn;
    (split; [reflexivity|]); (split; [tauto|]).
  - rewrite <- app_assoc. eauto.
  - eauto.
  - eauto.
  - exists []. by rewrite app_nil_r.
Qed.

Lemma no_check_func_data func dest src n st :
  memcpy_no_check_func func dest src n st =
    (fst (func dest src n (mem st)), set_mem (snd (func dest src n (mem st))) st) /\
  memmove_no_check_func func dest src n st =
    (fst (func dest src n (mem st)), set_mem (snd (func dest src n (mem st))) st).
Proof.
  unfold memcpy_no_check_func, memmove_no_check_func.
  by destruct (func dest src n (mem st)).
Qed.

(** What a call through [memcpy_check] or [memmove_check] does to the
    memory and to the other globals, whichever wrapper is selected. *)
Lemma memcpy_check_frame func dest src n st :
  mem (snd (memcpy_check func dest src n st)) = snd (func dest src n (mem st)) /\
  s_method_name (snd (memcpy_check func dest src n st)) = s_method_name st /\
  whence (snd (memcpy_check func dest src n st)) = whence st /\
  verify (snd (memcpy_check func dest src n st)) = verify st.
Proof.
  unfold memcpy_check. destruct (verify st) eqn:Hv.
  - destruct (memcpy_check_func_data func dest src n st) as (_ & (? & ? & ? & ? & ?) & _).
    cbn in *. intuition congruence.
  - destruct (no_check_func_data func dest src n st) as [-> _]. cbn. auto.
Qed.

Lemma memmove_check_frame func dest src n st :
  mem (snd (memmove_check func dest src n st)) = snd (func dest src n (mem st)) /\
  s_method_name (snd (memmove_check func dest src n st)) = s_method_name st /\
  whence (snd (memmove_check func dest src n st)) = whence st /\
  verify (snd (memmove_check func dest src n st)) = verify st.
Proof.
  unfold memmove_check. destruct (verify st) eqn:Hv.
  - destruct (memmove_check_func_data func dest src n st) as (_ & (? & ? & ? & ? & ?) & _).
    cbn in *. intuition congruence.
  - destruct (no_check_func_data func dest src n st) as [_ ->]. cbn. auto.
Qed.

Lemma memcpy_check_globals func dest src n st :
  same_globals (snd (memcpy_check func dest src n st)) st.
Proof. destruct (memcpy_check_frame func dest src n st) as (_ & ? & ? & ?). by repeat split. Qed.

Lemma memmove_check_globals func dest src n st :
  same_globals (snd (memmove_check func dest src n st)) st.
Proof. destruct (memmove_check_frame func dest src n st) as (_ & ? & ? & ?). by repeat split. Qed.

Lemma same_globals_trans st1 st2 st3 :
  same_globals st1 st2 -> same_globals st2 st3 -> same_globals st1 st3.
Proof. unfold same_globals. intuition congruence. Qed.

Lemma for_loops_globals body :
  (forall st, same_globals (body st) st) ->
  forall k st, same_globals (for_loops k body st) st.
Proof.
  intros Hbody k. induction k as [|k IH]; intros st; cbn [for_loops].
  - by repeat split.
  - eapply same_globals_trans; [apply IH | apply Hbody].
Qed.

(** Closes [same_globals (body st) st] for a body made of wrapper calls. *)
Ltac wrapper_chain :=
  repeat first
    [ eapply same_globals_trans; [apply memcpy_check_globals |]
    | eapply same_globals_trans; [apply memmove_check_globals |] ];
  by repeat split.

Lemma STRESS_MEMCPY_NAIVE_globals method cpy move str1 str2 str3 st :
  s_method_name (STRESS_MEMCPY_NAIVE method cpy move str1 str2 str3 st) = method /\
  whence (STRESS_MEMCPY_NAIVE method cpy move str1 str2 str3 st) = whence st.
Proof.
  unfold STRESS_MEMCPY_NAIVE.
  destruct (for_loops_globals (inner_pattern cpy move str1 str2 str3)) with
    (k := Z.to_nat MEMCPY_LOOPS) (st := set_method_name method st) as (-> & -> & _);
    [|by split].
  intros st0. unfold inner_pattern. wrapper_chain.
Qed.

Lemma stress_memcpy_builtin_globals memcpy memmove bcpy bmove have b str1 str2 str3 st :
  s_method_name (stress_memcpy_builtin memcpy memmove bcpy bmove have b str1 str2 str3 st)
    = (if have then "builtin" else "builtin (libc)")%string /\
  whence (stress_memcpy_builtin memcpy memmove bcpy bmove have b str1 str2 str3 st)
    = whence st.
Proof.
  unfold stress_memcpy_builtin. destruct have.
  - match goal with |- context [for_loops ?n ?body ?s] =>
      assert (forall st0, same_globals (body st0) st0) as Hbody
        by (intros st0; wrapper_chain);
      destruct (for_loops_globals body Hbody n s) as (-> & -> & _)
    end.
    by split.
  - match goal with |- context [for_loops ?n ?body ?s] =>
      assert (forall st0, same_globals (body st0) st0) as Hbody
        by (intros st0; wrapper_chain);
      destruct (for_loops_globals body Hbody n s) as (-> & -> & _)
    end.
    by split.
Qed.

(** *** One pass of the inner pattern *)

Section Pattern.

Variables cpy move : memcpy_func_t.
Hypothesis cpy_ok : memcpy_contract cpy.
Hypothesis move_ok : memmove_contract move.
Variable buf : pointer.

Lemma cpy_blit dest src n m q :
  dest + n <= src \/ src + n <= dest ->
  snd (cpy dest src n m) q = blit m dest src n q.
Proof. intros H. apply (cpy_ok dest src n m H). Qed.

Lemma move_blit dest src n m q :
  snd (move dest src n m) q = blit m dest src n q.
Proof. apply (move_ok dest src n m). Qed.

Lemma inner_pattern_mem st q :
  mem (inner_pattern cpy move (str1_of buf) (str2_of buf) (str3_of buf) st) q
  = pattern_mem buf (mem st) q.
Proof.
  unfold inner_pattern.
  repeat match goal with
  | |- context [mem (snd (memcpy_check ?f ?d ?s ?n ?st))] =>
      destruct (memcpy_check_frame f d s n st) as (-> & _)
  | |- context [mem (snd (memmove_check ?f ?d ?s ?n ?st))] =>
      destruct (memmove_check_frame f d s n st) as (-> & _)
  end.
  unfold pattern_mem, str3_of, str2_of, str1_of, MEMCPY_MEMSIZE.
  change (2048 `div` 2) with 1024.
  repeat (case_bool_decide; try lia);
    repeat (first [rewrite move_blit | rewrite cpy_blit by lia];
            unfold blit at 1; case_bool_decide; try lia);
    f_equal; lia.
Qed.

Lemma pattern_mem_ext m m' :
  mem_eq m m' -> mem_eq (pattern_mem buf m) (pattern_mem buf m').
Proof. intros H q. unfold pattern_mem. repeat case_bool_decide; apply H. Qed.

Lemma pattern_mem_idem m :
  mem_eq (pattern_mem buf (pattern_mem buf m)) (pattern_mem buf m).
Proof.
  intros q. unfold pattern_mem, str3_of, str2_of, str1_of, MEMCPY_MEMSIZE.
  repeat (case_bool_decide; try lia); reflexivity.
Qed.

(** Every pass after the first reproduces the memory the first one left. *)
Lemma for_loops_mem k : forall st,
  mem_eq (mem (for_loops (S k) (inner_pattern cpy move (str1_of buf) (str2_of buf) (str3_of buf)) st))
         (pattern_mem buf (mem st)).
Proof.
  induction k as [|k IH]; intros st q.
  - cbn [for_loops]. apply inner_pattern_mem.
  - change (for_loops (S (S k)) ?f st) with (for_loops (S k) f (f st)).
    rewrite IH.
    rewrite (pattern_mem_ext _ (pattern_mem buf (mem st))) by (intros ?; apply inner_pattern_mem).
    apply pattern_mem_idem.
Qed.

Lemma method_mem method st :
  mem_eq (mem (STRESS_MEMCPY_NAIVE method cpy move (str1_of buf) (str2_of buf) (str3_of buf) st))
         (pattern_mem buf (mem st)).
Proof.
  unfold STRESS_MEMCPY_NAIVE.
  replace (Z.to_nat MEMCPY_LOOPS) with (S (Z.to_nat (MEMCPY_LOOPS - 1)))
    by (unfold MEMCPY_LOOPS; lia).
  intros q. rewrite for_loops_mem. reflexivity.
Qed.

End Pattern.

Lemma stress_memcpy_libc_unfold memcpy memmove str1 str2 str3 st :
  stress_memcpy_libc memcpy memmove str1 str2 str3 st
  = STRESS_MEMCPY_NAIVE "libc" memcpy memmove str1 str2 str3 st.
Proof.
  unfold stress_memcpy_libc, STRESS_MEMCPY_NAIVE.
  generalize (Z.to_nat MEMCPY_LOOPS). intros k. reflexivity.
Qed.

(** *** The naive move and copy *)

(** C3. For all [dest], [src] and [n], whatever the order of [dest] and
    [src] and whether or not the blocks overlap, the naive move leaves in
    [dest[0..n)] the bytes that [src[0..n)] held before the call; it
    returns [dest], and so does the naive copy, also when [n] is zero. *)
Theorem naive_memmove_classical dest src n m :
  (forall i, 0 <= i < n ->
     snd (test_naive_memmove dest src n m) (dest + i) = m (src + i)) /\
  fst (test_naive_memmove dest src n m) = dest /\
  fst (test_naive_memcpy dest src n m) = dest.
Proof.
  destruct (test_naive_memmove_contract dest src n m) as [Hret Hmem].
  split; [|split; [exact Hret | reflexivity]].
  intros i Hi. rewrite Hmem. unfold blit. case_bool_decide; [f_equal; lia | lia].
Qed.

Lemma naive_memmove_classical_witness :
  snd (test_naive_memmove 1 0 4 ramp) (1 + 3) = ramp (0 + 3) /\
  fst (test_naive_memmove 1 0 4 ramp) = 1 /\
  fst (test_naive_memcpy 1 0 4 ramp) = 1 /\
  fst (test_naive_memmove 5 2 0 ramp) = 5 /\
  fst (test_naive_memcpy 5 2 0 ramp) = 5.
Proof.
  destruct (naive_memmove_classical 1 0 4 ramp) as (Hmem & Hmove & Hcpy).
  destruct (naive_memmove_classical 5 2 0 ramp) as (_ & Hmove0 & Hcpy0).
  split; [apply Hmem; lia|]. by repeat split.
Defined.

(** The three overlap directions on a small block. *)
Example naive_memmove_dest_above :
  map (snd (test_naive_memmove 1 0 4 ramp)) [0; 1; 2; 3; 4; 5]
  = [Byte.x00; Byte.x00; Byte.x01; Byte.x02; Byte.x03; Byte.x05].
Proof. reflexivity. Qed.

Example naive_memmove_dest_below :
  map (snd (test_naive_memmove 0 1 4 ramp)) [0; 1; 2; 3; 4; 5]
  = [Byte.x01; Byte.x02; Byte.x03; Byte.x04; Byte.x04; Byte.x05].
Proof. reflexivity. Qed.

Example naive_memmove_dest_equal :
  map (snd (test_naive_memmove 1 1 4 ramp)) [0; 1; 2; 3; 4; 5]
  = [Byte.x00; Byte.x01; Byte.x02; Byte.x03; Byte.x04; Byte.x05].
Proof. reflexivity. Qed.

(** The naive copy is not a move: copying upwards into an overlapping block
    smears the first byte. *)
Example naive_memcpy_overlap :
  map (snd (test_naive_memcpy 1 0 4 ramp)) [0; 1; 2; 3; 4; 5]
  = [Byte.x00; Byte.x00; Byte.x00; Byte.x00; Byte.x00; Byte.x05].
Proof. reflexivity. Qed.

(** *** Checking against non-checking wrappers *)

(** C10. For every wrapped primitive and all arguments, the checking
    wrappers return the pointer the primitive returned, as the non-checking
    ones do, and leave the same memory and globals; they can only append to
    the failure log. *)
Theorem check_wrappers_transparent func dest src n st :
  (fst (memcpy_check_func func dest src n st) = fst (func dest src n (mem st)) /\
   fst (memcpy_check_func func dest src n st) = fst (memcpy_no_check_func func dest src n st) /\
   same_data (snd (memcpy_check_func func dest src n st))
             (snd (memcpy_no_check_func func dest src n st)) /\
   exists extra,
     failures (snd (memcpy_check_func func dest src n st))
     = failures (snd (memcpy_no_check_func func dest src n st)) ++ extra) /\
  (fst (memmove_check_func func dest src n st) = fst (func dest src n (mem st)) /\
   fst (memmove_check_func func dest src n st) = fst (memmove_no_check_func func dest src n st) /\
   same_data (snd (memmove_check_func func dest src n st))
             (snd (memmove_no_check_func func dest src n st)) /\
   exists extra,
     failures (snd (memmove_check_func func dest src n st))
     = failures (snd (memmove_no_check_func func dest src n st)) ++ extra).
Proof.
  destruct (no_check_func_data func dest src n st) as [-> ->]. cbn [fst snd].
  destruct (memcpy_check_func_data func dest src n st) as (Hp & Hd & He).
  destruct (memmove_check_func_data func dest src n st) as (Hp' & Hd' & He').
  repeat split; try assumption; try apply Hd; try apply Hd'.
Qed.

(** A primitive that copies nothing and returns [dest + 1]: both checks
    fail, both failures are logged, and [dest + 1] is what the wrapper
    returns. *)
Example check_wrapper_bad_primitive :
  let bad : memcpy_func_t := fun dest src n m => (dest + 1, m) in
  let r := memcpy_check_func bad 0 8 4 (initial_state ramp "memcpy" true) in
  fst r = 1 /\
  failures (snd r) = [ContentDiffers "memcpy" "memcpy" "";
                      ReturnDiffers "memcpy" "memcpy" "" 1 0]%string /\
  map (mem (snd r)) [0; 1; 2; 3] = map ramp [0; 1; 2; 3].
Proof. repeat split. Qed.

(** *** The inner pattern: [str3] against [str1] *)

Lemma naive_method_mem method buf st :
  mem_eq (mem (STRESS_MEMCPY_NAIVE method test_naive_memcpy test_naive_memmove
                 (str1_of buf) (str2_of buf) (str3_of buf) st))
         (pattern_mem buf (mem st)).
Proof.
  apply method_mem; [apply test_naive_memcpy_contract | apply test_naive_memmove_contract].
Qed.

Lemma pattern_mem_str1 buf m i :
  0 <= i < MEMCPY_MEMSIZE ->
  pattern_mem buf m (str1_of buf + i) = m (str2_of buf + i).
Proof.
  intros Hi. unfold pattern_mem, str3_of, str2_of, str1_of, MEMCPY_MEMSIZE in *.
  repeat (case_bool_decide; try lia); f_equal; lia.
Qed.

Lemma pattern_mem_str3 buf m i :
  0 <= i < MEMCPY_MEMSIZE - 1 ->
  pattern_mem buf m (str3_of buf + i) = m (str2_of buf + i).
Proof.
  intros Hi. unfold pattern_mem, str3_of, str2_of, str1_of, MEMCPY_MEMSIZE in *.
  repeat (case_bool_decide; try lia); f_equal; lia.
Qed.

Lemma pattern_mem_str3_last buf m :
  pattern_mem buf m (str3_of buf + (MEMCPY_MEMSIZE - 1))
  = m (str2_of buf + (MEMCPY_MEMSIZE - 2)).
Proof.
  unfold pattern_mem, str3_of, str2_of, str1_of, MEMCPY_MEMSIZE in *.
  repeat (case_bool_decide; try lia); f_equal; lia.
Qed.

Lemma pattern_mem_str3_str1 buf m0 m i :
  mem_eq m (pattern_mem buf m0) ->
  0 <= i < MEMCPY_MEMSIZE - 1 ->
  m (str3_of buf + i) = m (str1_of buf + i) /\
  m (str3_of buf + (MEMCPY_MEMSIZE - 1)) = m (str1_of buf + (MEMCPY_MEMSIZE - 2)).
Proof.
  intros Hm Hi. rewrite !Hm.
  rewrite pattern_mem_str3 by assumption. rewrite pattern_mem_str3_last.
  rewrite !pattern_mem_str1 by (unfold MEMCPY_MEMSIZE in *; lia). auto.
Qed.

Lemma stress_memcpy_builtin_unfold memcpy memmove bcpy bmove b str1 str2 str3 st :
  stress_memcpy_builtin memcpy memmove bcpy bmove true b str1 str2 str3 st
  = STRESS_MEMCPY_NAIVE "builtin" (stress_builtin_memcpy_wrapper bcpy)
      (stress_builtin_memmove_wrapper bmove) str1 str2 str3 st.
Proof.
  unfold stress_memcpy_builtin, STRESS_MEMCPY_NAIVE.
  generalize (Z.to_nat MEMCPY_LOOPS). intros k. reflexivity.
Qed.

Lemma builtin_wrappers_contract bcpy bmove :
  memcpy_contract bcpy -> memmove_contract bmove ->
  memcpy_contract (stress_builtin_memcpy_wrapper bcpy) /\
  memmove_contract (stress_builtin_memmove_wrapper bmove).
Proof.
  intros Hc Hm. split.
  - intros dest src n m H. exact (Hc dest src n m H).
  - intros dest src n m. exact (Hm dest src n m).
Qed.

(** C1, as the code has it. After one call of any method (the five naive
    ones, libc, and builtin with the compiler's primitives, the library and
    compiler primitives meeting the contracts of a copy and a move), the
    final [str3] equals the final [str1] on every index in [0, N - 1). The
    last byte of [str3] is the final [str1[N - 2]]: the closing pair of
    moves shifts [str3] up by one byte and back down, which loses
    [str3[N - 1]]. *)
Theorem pattern_str3_equals_str1_but_last memcpy memmove bcpy bmove b buf st i :
  memcpy_contract memcpy -> memmove_contract memmove ->
  memcpy_contract bcpy -> memmove_contract bmove ->
  0 <= i < MEMCPY_MEMSIZE - 1 ->
  Forall (fun method : pointer -> pointer -> pointer -> state -> state =>
            let final := method (str1_of buf) (str2_of buf) (str3_of buf) st in
            mem final (str3_of buf + i) = mem final (str1_of buf + i) /\
            mem final (str3_of buf + (MEMCPY_MEMSIZE - 1))
            = mem final (str1_of buf + (MEMCPY_MEMSIZE - 2)))
    [ stress_memcpy_libc memcpy memmove;
      stress_memcpy_builtin memcpy memmove bcpy bmove true b;
      stress_memcpy_naive; stress_memcpy_naive_o0; stress_memcpy_naive_o1;
      stress_memcpy_naive_o2; stress_memcpy_naive_o3 ].
Proof.
  intros Hcpy Hmove Hbcpy Hbmove Hi.
  destruct (builtin_wrappers_contract bcpy bmove Hbcpy Hbmove) as [Hwc Hwm].
  repeat match goal with
         | |- Forall _ (_ :: _) => apply List.Forall_cons
         | |- Forall _ [] => apply List.Forall_nil
         end;
    cbv beta zeta; apply (pattern_mem_str3_str1 buf (mem st)); try exact Hi.
  - intros q. rewrite stress_memcpy_libc_unfold.
    exact (method_mem memcpy memmove Hcpy Hmove buf "libc" st q).
  - intros q. rewrite stress_memcpy_builtin_unfold.
    exact (method_mem _ _ Hwc Hwm buf "builtin" st q).
  - exact (naive_method_mem "naive" buf st).
  - exact (naive_method_mem "naive_o0" buf st).
  - exact (naive_method_mem "naive_o1" buf st).
  - exact (naive_method_mem "naive_o2" buf st).
  - exact (naive_method_mem "naive_o3" buf st).
Qed.

Lemma pattern_str3_equals_str1_but_last_witness :
  Forall (fun method : pointer -> pointer -> pointer -> state -> state =>
            let final := method (str1_of 0) (str2_of 0) (str3_of 0)
                           (initial_state ramp "memcpy" true) in
            mem final (str3_of 0 + 5) = mem final (str1_of 0 + 5) /\
            mem final (str3_of 0 + (MEMCPY_MEMSIZE - 1))
            = mem final (str1_of 0 + (MEMCPY_MEMSIZE - 2)))
    [ stress_memcpy_libc test_naive_memcpy test_naive_memmove;
      stress_memcpy_builtin test_naive_memcpy test_naive_memmove
        test_naive_memcpy test_naive_memmove true 0;
      stress_memcpy_naive; stress_memcpy_naive_o0; stress_memcpy_naive_o1;
      stress_memcpy_naive_o2; stress_memcpy_naive_o3 ].
Proof.
  apply (pattern_str3_equals_str1_but_last test_naive_memcpy test_naive_memmove
           test_naive_memcpy test_naive_memmove 0 0
           (initial_state ramp "memcpy" true) 5).
  - apply test_naive_memcpy_contract.
  - apply test_naive_memmove_contract.
  - apply test_naive_memcpy_contract.
  - apply test_naive_memmove_contract.
  - unfold MEMCPY_MEMSIZE. lia.
Defined.

(** C1 as stated fails at index [N - 1]: with [str2[N - 1]] one and every
    other byte zero, the naive method leaves [str1[N - 1]] one and
    [str3[N - 1]] zero. *)
Lemma pattern_str3_last_byte_differs :
  let st := stress_memcpy_naive (str1_of 0) (str2_of 0) (str3_of 0)
              (initial_state (one_at (str2_of 0 + 2047)) "memcpy" false) in
  0 <= 2047 < MEMCPY_MEMSIZE /\
  mem st (str1_of 0 + 2047) = Byte.x01 /\
  mem st (str3_of 0 + 2047) = Byte.x00 /\
  mem st (str3_of 0 + 2047) <> mem st (str1_of 0 + 2047).
Proof.
  intros st.
  assert (mem_eq (mem st) (pattern_mem 0 (one_at (str2_of 0 + 2047)))) as Hst
    by exact (naive_method_mem "naive" 0
                (initial_state (one_at (str2_of 0 + 2047)) "memcpy" false)).
  clearbody st.
  assert (mem st (str1_of 0 + 2047) = Byte.x01) as H1 by (rewrite Hst; reflexivity).
  assert (mem st (str3_of 0 + 2047) = Byte.x00) as H3 by (rewrite Hst; reflexivity).
  rewrite H1, H3. split; [unfold MEMCPY_MEMSIZE; lia|].
  split; [reflexivity|]. split; [reflexivity | discriminate].
Qed.

(** *** The "all" method *)

Section All.

Variables memcpy memmove bcpy bmove : memcpy_func_t.
Variable have : bool.
Variables b str1 str2 str3 : pointer.

Local Abbreviation all := (stress_memcpy_all memcpy memmove bcpy bmove have b str1 str2 str3).
Local Abbreviation libc := (stress_memcpy_libc memcpy memmove str1 str2 str3).
Local Abbreviation builtin := (stress_memcpy_builtin memcpy memmove bcpy bmove have b str1 str2 str3).

Lemma all_case_0 st :
  whence st = 0 -> all st = libc (set_whence 1 st).
Proof. intros H. unfold stress_memcpy_all. rewrite H. reflexivity. Qed.

Lemma all_case_1 st :
  whence st = 1 -> all st = builtin (set_whence 2 st).
Proof. intros H. unfold stress_memcpy_all. rewrite H. reflexivity. Qed.

Lemma all_case_2 st :
  whence st = 2 -> all st = stress_memcpy_naive str1 str2 str3 (set_whence 3 st).
Proof. intros H. unfold stress_memcpy_all. rewrite H. reflexivity. Qed.

Lemma all_case_3 st :
  whence st = 3 -> all st = stress_memcpy_naive_o0 str1 str2 str3 (set_whence 4 st).
Proof. intros H. unfold stress_memcpy_all. rewrite H. reflexivity. Qed.

Lemma all_case_default st :
  ~ 0 <= whence st <= 3 ->
  all st = set_whence 0 (stress_memcpy_naive_o3 str1 str2 str3 st).
Proof.
  intros H. unfold stress_memcpy_all.
  destruct (whence st) as [|p|p] eqn:E; [lia | | reflexivity].
  destruct p as [[p|p|]|[p|p|]|]; first [lia | reflexivity].
Qed.

Lemma libc_globals st :
  s_method_name (libc st) = "libc"%string /\ whence (libc st) = whence st.
Proof. rewrite stress_memcpy_libc_unfold. apply STRESS_MEMCPY_NAIVE_globals. Qed.

Lemma naive_globals st :
  s_method_name (stress_memcpy_naive str1 str2 str3 st) = "naive"%string /\
  whence (stress_memcpy_naive str1 str2 str3 st) = whence st.
Proof. apply STRESS_MEMCPY_NAIVE_globals. Qed.

Lemma naive_o0_globals st :
  s_method_name (stress_memcpy_naive_o0 str1 str2 str3 st) = "naive_o0"%string /\
  whence (stress_memcpy_naive_o0 str1 str2 str3 st) = whence st.
Proof. apply STRESS_MEMCPY_NAIVE_globals. Qed.

Lemma naive_o3_globals st :
  s_method_name (stress_memcpy_naive_o3 str1 str2 str3 st) = "naive_o3"%string /\
  whence (stress_memcpy_naive_o3 str1 str2 str3 st) = whence st.
Proof. apply STRESS_MEMCPY_NAIVE_globals. Qed.

Lemma set_whence_globals w st :
  s_method_name (set_whence w st) = s_method_name st /\ whence (set_whence w st) = w.
Proof. by split. Qed.

(** The method name [all] leaves behind, and its next cursor, from any
    cursor value. *)
Lemma all_globals st :
  (s_method_name (all st), whence (all st)) =
  if whence st =? 0 then ("libc"%string, 1)
  else if whence st =? 1 then ((if have then "builtin" else "builtin (libc)")%string, 2)
  else if whence st =? 2 then ("naive"%string, 3)
  else if whence st =? 3 then ("naive_o0"%string, 4)
  else ("naive_o3"%string, 0).
Proof.
  destruct (Z.eqb_spec (whence st) 0) as [H0|H0].
  { rewrite (all_case_0 st H0).
    destruct (libc_globals (set_whence 1 st)) as [-> ->]. reflexivity. }
  destruct (Z.eqb_spec (whence st) 1) as [H1|H1].
  { rewrite (all_case_1 st H1).
    destruct (stress_memcpy_builtin_globals memcpy memmove bcpy bmove have b
                str1 str2 str3 (set_whence 2 st)) as [-> ->]. reflexivity. }
  destruct (Z.eqb_spec (whence st) 2) as [H2|H2].
  { rewrite (all_case_2 st H2).
    destruct (naive_globals (set_whence 3 st)) as [-> ->]. reflexivity. }
  destruct (Z.eqb_spec (whence st) 3) as [H3|H3].
  { rewrite (all_case_3 st H3).
    destruct (naive_o0_globals (set_whence 4 st)) as [-> ->]. reflexivity. }
  rewrite (all_case_default st) by lia.
  destruct (set_whence_globals 0 (stress_memcpy_naive_o3 str1 str2 str3 st)) as [-> ->].
  destruct (naive_o3_globals st) as [-> _]. reflexivity.
Qed.

Lemma all_never_o1_o2 st :
  s_method_name (all st) <> "naive_o1"%string /\
  s_method_name (all st) <> "naive_o2"%string.
Proof.
  pose proof (all_globals st) as G.
  destruct (whence st =? 0); [injection G as -> _; by split|].
  destruct (whence st =? 1); [injection G as -> _; by destruct have|].
  destruct (whence st =? 2); [injection G as -> _; by split|].
  destruct (whence st =? 3); [injection G as -> _; by split|].
  injection G as -> _; by split.
Qed.

End All.

(** C4. From the initial cursor, six successive calls of the "all" method
    run libc, builtin, naive, naive_o0, naive_o3 and libc again, in that
    order; and from no cursor value does "all" run naive_o1 or naive_o2. *)
Theorem all_round_robin memcpy memmove bcpy bmove have b str1 str2 str3 st :
  whence st = 0 ->
  let all := stress_memcpy_all memcpy memmove bcpy bmove have b str1 str2 str3 in
  let st1 := all st in
  let st2 := all st1 in
  let st3 := all st2 in
  let st4 := all st3 in
  let st5 := all st4 in
  let st6 := all st5 in
  (st1 = stress_memcpy_libc memcpy memmove str1 str2 str3 (set_whence 1 st) /\
   st2 = stress_memcpy_builtin memcpy memmove bcpy bmove have b str1 str2 str3
           (set_whence 2 st1) /\
   st3 = stress_memcpy_naive str1 str2 str3 (set_whence 3 st2) /\
   st4 = stress_memcpy_naive_o0 str1 str2 str3 (set_whence 4 st3) /\
   st5 = set_whence 0 (stress_memcpy_naive_o3 str1 str2 str3 st4) /\
   st6 = stress_memcpy_libc memcpy memmove str1 str2 str3 (set_whence 1 st5)) /\
  map s_method_name [st1; st2; st3; st4; st5; st6]
  = ["libc"; if have then "builtin" else "builtin (libc)";
     "naive"; "naive_o0"; "naive_o3"; "libc"]%string /\
  (forall st', s_method_name (all st') <> "naive_o1"%string /\
               s_method_name (all st') <> "naive_o2"%string).
Proof.
  intros H0 all st1 st2 st3 st4 st5 st6.
  pose proof (all_globals memcpy memmove bcpy bmove have b str1 str2 str3) as G.
  pose proof (all_case_0 memcpy memmove bcpy bmove have b str1 str2 str3 st H0) as E1.
  pose proof (G st) as G1. rewrite H0 in G1. injection G1 as N1 W1.
  fold all in E1, N1, W1. fold st1 in E1, N1, W1. clearbody st1.
  pose proof (all_case_1 memcpy memmove bcpy bmove have b str1 str2 str3 st1 W1) as E2.
  pose proof (G st1) as G2. rewrite W1 in G2. injection G2 as N2 W2.
  fold all in E2, N2, W2. fold st2 in E2, N2, W2. clearbody st2.
  pose proof (all_case_2 memcpy memmove bcpy bmove have b str1 str2 str3 st2 W2) as E3.
  pose proof (G st2) as G3. rewrite W2 in G3. injection G3 as N3 W3.
  fold all in E3, N3, W3. fold st3 in E3, N3, W3. clearbody st3.
  pose proof (all_case_3 memcpy memmove bcpy bmove have b str1 str2 str3 st3 W3) as E4.
  pose proof (G st3) as G4. rewrite W3 in G4. injection G4 as N4 W4.
  fold all in E4, N4, W4. fold st4 in E4, N4, W4. clearbody st4.
  assert (~ 0 <= whence st4 <= 3) as D4 by lia.
  pose proof (all_case_default memcpy memmove bcpy bmove have b str1 str2 str3 st4 D4) as E5.
  pose proof (G st4) as G5. rewrite W4 in G5. injection G5 as N5 W5.
  fold all in E5, N5, W5. fold st5 in E5, N5, W5. clearbody st5.
  pose proof (all_case_0 memcpy memmove bcpy bmove have b str1 str2 str3 st5 W5) as E6.
  pose proof (G st5) as G6. rewrite W5 in G6. injection G6 as N6 W6.
  fold all in E6, N6, W6. fold st6 in E6, N6, W6. clearbody st6.
  split; [exact (conj E1 (conj E2 (conj E3 (conj E4 (conj E5 E6)))))|]. split.
  - cbn [map]. rewrite N1, N2, N3, N4, N5, N6. reflexivity.
  - intros st'. apply all_never_o1_o2.
Qed.

Lemma all_round_robin_witness :
  let all := stress_memcpy_all test_naive_memcpy test_naive_memmove
               test_naive_memcpy test_naive_memmove true 0
               (str1_of 0) (str2_of 0) (str3_of 0) in
  let st := initial_state zero_mem "memcpy" false in
  whence st = 0 /\
  map s_method_name
    [all st; all (all st); all (all (all st)); all (all (all (all st)));
     all (all (all (all (all st)))); all (all (all (all (all (all st)))))]
  = ["libc"; "builtin"; "naive"; "naive_o0"; "naive_o3"; "libc"]%string.
Proof.
  intros all st. split; [reflexivity|].
  exact (proj1 (proj2 (all_round_robin test_naive_memcpy test_naive_memmove
                         test_naive_memcpy test_naive_memmove true 0
                         (str1_of 0) (str2_of 0) (str3_of 0) st eq_refl))).
Defined.

(** *** The fallback branch of the builtin method *)

Lemma for_loops_last body k : forall st,
  for_loops (S k) body st = body (for_loops k body st).
Proof.
  induction k as [|k IH]; intros st; [reflexivity|].
  change (for_loops (S (S k)) body st) with (for_loops (S k) body (body st)).
  rewrite IH. reflexivity.
Qed.

Lemma for_loops_keeps body lo hi :
  (forall st q, lo <= q < hi -> mem (body st) q = mem st q) ->
  forall k st q, lo <= q < hi -> mem (for_loops k body st) q = mem st q.
Proof.
  intros Hbody k. induction k as [|k IH]; intros st q Hq; cbn [for_loops]; [reflexivity|].
  rewrite IH by assumption. by apply Hbody.
Qed.

(** Turns the memory of a chain of wrapper calls into the primitives'
    memories, and then into blits. *)
Ltac wrappers_to_primitives :=
  repeat match goal with
  | |- context [mem (snd (memcpy_check ?f ?d ?s ?n ?st))] =>
      destruct (memcpy_check_frame f d s n st) as (-> & _)
  | |- context [mem (snd (memmove_check ?f ?d ?s ?n ?st))] =>
      destruct (memmove_check_frame f d s n st) as (-> & _)
  end.

Section Fallback.

Variables memcpy memmove bcpy bmove : memcpy_func_t.
Hypothesis memcpy_ok : memcpy_contract memcpy.
Hypothesis memmove_ok : memmove_contract memmove.
Variable buf : pointer.

Local Abbreviation fallback b :=
  (stress_memcpy_builtin memcpy memmove bcpy bmove false b
     (str1_of buf) (str2_of buf) (str3_of buf)).

Ltac blits :=
  unfold str3_of, str2_of, str1_of, MEMCPY_MEMSIZE in *;
  change (2048 `div` 2) with 1024;
  repeat (first [rewrite (move_blit memmove memmove_ok)
                | rewrite (cpy_blit memcpy memcpy_ok) by lia];
          unfold blit at 1; case_bool_decide; try lia);
  try (f_equal; lia).

(** With [b] bound to [str2], [str3] is never reloaded from [str1]: its
    first byte ends as [str2[64]]. *)
Lemma fallback_b_str2 st :
  mem (fallback (str2_of buf) st) (str3_of buf) = mem st (str2_of buf + 64).
Proof.
  unfold stress_memcpy_builtin.
  match goal with |- context [for_loops ?k ?body ?s] =>
    set (B := body); change (mem st) with (mem s); generalize s
  end.
  assert (forall st q, str2_of buf <= q < str2_of buf + MEMCPY_MEMSIZE ->
                       mem (B st) q = mem st q) as Hkeep.
  { intros st0 q Hq. subst B. cbv beta zeta. wrappers_to_primitives. blits. }
  assert (forall st, mem (B st) (str3_of buf) = mem st (str2_of buf + 64)) as Hlast.
  { intros st0. subst B. cbv beta zeta. wrappers_to_primitives. blits. }
  clearbody B. intros s.
  replace (Z.to_nat MEMCPY_LOOPS) with (S (Z.to_nat (MEMCPY_LOOPS - 1)))
    by (unfold MEMCPY_LOOPS; lia).
  rewrite for_loops_last, Hlast.
  apply (for_loops_keeps B _ _ Hkeep). unfold MEMCPY_MEMSIZE. lia.
Qed.

(** With [b] bound to [str3], [str1] is loaded from the shifted [str3]: its
    first byte ends as [str2[64]]. *)
Lemma fallback_b_str3 st :
  mem (fallback (str3_of buf) st) (str1_of buf) = mem st (str2_of buf + 64).
Proof.
  unfold stress_memcpy_builtin.
  match goal with |- context [for_loops ?k ?body ?s] =>
    set (B := body); change (mem st) with (mem s); generalize s
  end.
  assert (forall st q, str2_of buf <= q < str2_of buf + MEMCPY_MEMSIZE ->
                       mem (B st) q = mem st q) as Hkeep.
  { intros st0 q Hq. subst B. cbv beta zeta. wrappers_to_primitives. blits. }
  assert (forall st, mem (B st) (str1_of buf) = mem st (str2_of buf + 64)) as Hlast.
  { intros st0. subst B. cbv beta zeta. wrappers_to_primitives. blits. }
  clearbody B. intros s.
  replace (Z.to_nat MEMCPY_LOOPS) with (S (Z.to_nat (MEMCPY_LOOPS - 1)))
    by (unfold MEMCPY_LOOPS; lia).
  rewrite for_loops_last, Hlast.
  apply (for_loops_keeps B _ _ Hkeep). unfold MEMCPY_MEMSIZE. lia.
Qed.

End Fallback.

(** C9 against the code. Without the builtins the method does report
    "builtin (libc)", but its fourth and sixth steps name [b], which the
    function never declares, where the libc method names [str2] and [str3].
    Whichever of the two buffers [b] is taken to be, the result differs from
    the libc method's: start with [str2[64]] one and every other byte zero;
    libc leaves [str1[0]] and [str3[0]] zero, while the fallback leaves
    [str3[0]] one when [b] is [str2] and [str1[0]] one when [b] is [str3]. *)
Theorem builtin_fallback_differs_from_libc memcpy memmove bcpy bmove buf :
  memcpy_contract memcpy -> memmove_contract memmove ->
  let st := initial_state (one_at (str2_of buf + 64)) "memcpy" false in
  let libc := stress_memcpy_libc memcpy memmove
                (str1_of buf) (str2_of buf) (str3_of buf) st in
  let with_b b := stress_memcpy_builtin memcpy memmove bcpy bmove false b
                    (str1_of buf) (str2_of buf) (str3_of buf) st in
  (forall b, s_method_name (with_b b) = "builtin (libc)"%string) /\
  mem libc (str1_of buf) = Byte.x00 /\
  mem libc (str3_of buf) = Byte.x00 /\
  mem (with_b (str2_of buf)) (str3_of buf) = Byte.x01 /\
  mem (with_b (str3_of buf)) (str1_of buf) = Byte.x01.
Proof.
  intros Hcpy Hmove st libc with_b.
  assert (mem st (str2_of buf + 64) = Byte.x01) as Hone
    by (unfold st, initial_state, one_at; cbn [mem]; apply store_eq).
  assert (forall q, q <> str2_of buf + 64 -> mem st q = Byte.x00) as Hzero
    by (intros q Hq; unfold st, initial_state, one_at; cbn [mem]; by rewrite store_ne).
  assert (mem_eq (mem libc) (pattern_mem buf (mem st))) as Hlibc.
  { intros q. unfold libc. rewrite stress_memcpy_libc_unfold.
    exact (method_mem memcpy memmove Hcpy Hmove buf "libc" st q). }
  pose proof (fallback_b_str2 memcpy memmove bcpy bmove Hcpy Hmove buf st) as H2.
  pose proof (fallback_b_str3 memcpy memmove bcpy bmove Hcpy Hmove buf st) as H3.
  assert (forall b, s_method_name (with_b b) = "builtin (libc)"%string) as Hname.
  { intros b.
    exact (proj1 (stress_memcpy_builtin_globals memcpy memmove bcpy bmove false b
                    (str1_of buf) (str2_of buf) (str3_of buf) st)). }
  change (mem (with_b (str2_of buf)) (str3_of buf) = mem st (str2_of buf + 64)) in H2.
  change (mem (with_b (str3_of buf)) (str1_of buf) = mem st (str2_of buf + 64)) in H3.
  clearbody libc with_b st.
  split; [exact Hname|]. split.
  { rewrite Hlibc. rewrite <- (Z.add_0_r (str1_of buf)).
    rewrite pattern_mem_str1 by (unfold MEMCPY_MEMSIZE; lia). apply Hzero. lia. }
  split.
  { rewrite Hlibc. rewrite <- (Z.add_0_r (str3_of buf)).
    rewrite pattern_mem_str3 by (unfold MEMCPY_MEMSIZE; lia). apply Hzero. lia. }
  split; congruence.
Qed.

Lemma builtin_fallback_differs_from_libc_witness :
  let st := initial_state (one_at (str2_of 0 + 64)) "memcpy" false in
  let libc := stress_memcpy_libc test_naive_memcpy test_naive_memmove
                (str1_of 0) (str2_of 0) (str3_of 0) st in
  let with_b b := stress_memcpy_builtin test_naive_memcpy test_naive_memmove
                    test_naive_memcpy test_naive_memmove false b
                    (str1_of 0) (str2_of 0) (str3_of 0) st in
  (forall b, s_method_name (with_b b) = "builtin (libc)"%string) /\
  mem libc (str1_of 0) = Byte.x00 /\
  mem libc (str3_of 0) = Byte.x00 /\
  mem (with_b (str2_of 0)) (str3_of 0) = Byte.x01 /\
  mem (with_b (str3_of 0)) (str1_of 0) = Byte.x01.
Proof.
  apply (builtin_fallback_differs_from_libc test_naive_memcpy test_naive_memmove
           test_naive_memcpy test_naive_memmove 0).
  - apply test_naive_memcpy_contract.
  - apply test_naive_memmove_contract.
Defined.

End MemcpyFacts.


(** ** Part IV: properties of the affinity parser and binder *)

Module AffinityFacts.
Import Affinity.

(** *** Characters and strings *)

Lemma digit_char_class d :
  is_delim (digit_char d) = false /\ isdigit (digit_char d) = true /\
  isspace (digit_char d) = false /\
  Z.of_nat (nat_of_ascii (digit_char d)) - 48 = digit_value d.
Proof. by destruct d. Qed.

Lemma append_String c s t : String.append (String c s) t = String c (String.append s t).
Proof. reflexivity. Qed.

Lemma append_Empty t : String.append EmptyString t = t.
Proof. reflexivity. Qed.


Lemma append_empty s : String.append s EmptyString = s.
Proof. induction s as [|c s IH]; [reflexivity|]. rewrite append_String. by f_equal. Qed.

Lemma length_append s t :
  String.length (String.append s t) = (String.length s + String.length t)%nat.
Proof.
  induction s as [|c s IH]; [reflexivity|].
  rewrite append_String. cbn [String.length]. by rewrite IH.
Qed.

(** *** [strtok] *)

Lemma take_token_shorter s :
  (String.length (snd (take_token s)) <= String.length s)%nat.
Proof.
  induction s as [|c s IH]; cbn; [lia|].
  destruct (is_delim c); cbn; [lia|].
  destruct (take_token s). cbn in *. lia.
Qed.

Lemma skip_delims_shorter s : (String.length (skip_delims s) <= String.length s)%nat.
Proof. induction s as [|c s IH]; cbn; [lia|]. destruct (is_delim c); cbn; lia. Qed.

Lemma skip_delims_head s c s' : skip_delims s = String c s' -> is_delim c = false.
Proof.
  induction s as [|c0 s IH]; cbn; [discriminate|].
  destruct (is_delim c0) eqn:E; [exact IH|]. by intros [= <- _].
Qed.

(** A token is never empty, and taking it shortens what is left. *)
Lemma strtok_token save token save' :
  strtok save = Some (token, save') ->
  token <> EmptyString /\ (String.length save' < String.length save)%nat.
Proof.
  unfold strtok. destruct (skip_delims save) as [|c s] eqn:E; [discriminate|].
  pose proof (skip_delims_head _ _ _ E) as Hc.
  pose proof (skip_delims_shorter save) as Hlen. rewrite E in Hlen.
  cbn [take_token]. rewrite Hc.
  pose proof (take_token_shorter s) as Hs.
  destruct (take_token s) as [tok rest]. intros [= <- <-].
  cbn in *. split; [discriminate | lia].
Qed.

(** *** [sscanf] and [strstr] *)

Lemma scan_digits_digits ds s acc :
  scan_digits (String.append (digits_string ds) s) acc
  = scan_digits s (digits_value ds acc).
Proof.
  revert acc. induction ds as [|d ds IH]; intros acc; cbn [digits_string digits_value].
  - by rewrite append_Empty.
  - rewrite append_String. cbn [scan_digits].
    destruct (digit_char_class d) as (_ & -> & _ & ->). apply IH.
Qed.

Lemma scan_digits_stop s acc : starts_with_digit s = false -> scan_digits s acc = acc.
Proof. destruct s as [|c s]; [reflexivity|]. cbn. by intros ->. Qed.

Lemma sign_of_digit d r :
  match String (digit_char d) r with
  | String "-"%char s' => (true, s')
  | String "+"%char s' => (false, s')
  | _ => (false, String (digit_char d) r)
  end = (false, String (digit_char d) r).
Proof. by destruct d. Qed.

Lemma to_int_small v : 0 <= v < 2 ^ 31 -> to_int (clamp_long v) = v.
Proof.
  intros Hv. unfold to_int, clamp_long.
  rewrite Z.max_r, Z.min_r by lia. rewrite Z.mod_small by lia. lia.
Qed.

(** On a run of digits followed by something that is not a digit, [%d]
    converts the run. *)
Lemma sscanf_d_digits d ds s :
  starts_with_digit s = false ->
  sscanf_d (String.append (digits_string (d :: ds)) s)
  = Some (to_int (clamp_long (digits_value (d :: ds) 0))).
Proof.
  intros Hs. unfold sscanf_d.
  assert (skip_space (String.append (digits_string (d :: ds)) s)
          = String (digit_char d) (String.append (digits_string ds) s)) as ->.
  { cbn [digits_string]. rewrite append_String. cbn [skip_space].
    by destruct (digit_char_class d) as (_ & _ & -> & _). }
  rewrite sign_of_digit. cbn [starts_with_digit].
  destruct (digit_char_class d) as (_ & Hd & _ & _). rewrite Hd.
  rewrite <- append_String.
  change (String (digit_char d) (digits_string ds)) with (digits_string (d :: ds)).
  by rewrite scan_digits_digits, scan_digits_stop.
Qed.

Lemma stress_parse_cpu_digits c s :
  starts_with_digit s = false ->
  0 <= cpu_value c < 2 ^ 31 ->
  stress_parse_cpu (String.append (cpu_string c) s) = Return (cpu_value c).
Proof.
  intros Hs Hv. destruct c as [d ds]. unfold stress_parse_cpu, cpu_string, cpu_value in *.
  cbn [fst snd] in *. rewrite sscanf_d_digits by assumption.
  by rewrite to_int_small.
Qed.

Lemma prefix_dash_digit d r : String.prefix "-" (String (digit_char d) r) = false.
Proof. by destruct d. Qed.

Lemma strstr_digits ds : strstr (digits_string ds) "-" = None.
Proof.
  induction ds as [|d ds IH]; [reflexivity|].
  cbn [digits_string strstr]. by rewrite prefix_dash_digit.
Qed.

Lemma strstr_digits_dash ds s :
  strstr (String.append (digits_string ds) (String "-" s)) "-" = Some (String "-" s).
Proof.
  induction ds as [|d ds IH]; cbn [digits_string].
  - rewrite append_Empty. cbn [strstr String.prefix].
    destruct (ascii_dec "-" "-"); [|done]. by destruct s.
  - rewrite append_String. cbn [strstr]. by rewrite prefix_dash_digit.
Qed.

(** *** Tokens without a comma *)

Lemma lacks_String ch c s :
  lacks ch (String c s) = true <-> Ascii.eqb c ch = false /\ lacks ch s = true.
Proof.
  cbn [lacks]. destruct (Ascii.eqb c ch); cbn [negb andb]; split;
    (intros [? ?] || intros ?); try discriminate; auto.
Qed.

Lemma lacks_append ch s t :
  lacks ch (String.append s t) = lacks ch s && lacks ch t.
Proof.
  induction s as [|c s IH]; [reflexivity|].
  rewrite append_String. cbn [lacks]. by rewrite IH, andb_assoc.
Qed.

Lemma take_token_lacks tok s :
  lacks "," tok = true ->
  take_token (String.append tok s)
  = (String.append tok (fst (take_token s)), snd (take_token s)).
Proof.
  induction tok as [|c tok IH]; intros H.
  - rewrite !append_Empty. by destruct (take_token s).
  - apply lacks_String in H as [Hc Htok]. rewrite !append_String. cbn [take_token].
    unfold is_delim. rewrite Hc. by rewrite (IH Htok).
Qed.

Lemma strtok_lacks tok s :
  tok <> EmptyString -> lacks "," tok = true ->
  strtok (String.append tok s)
  = Some (String.append tok (fst (take_token s)), snd (take_token s)).
Proof.
  intros Hne H. unfold strtok.
  assert (skip_delims (String.append tok s) = String.append tok s) as ->.
  { destruct tok as [|c tok]; [done|]. apply lacks_String in H as [Hc _].
    rewrite append_String. cbn [skip_delims]. unfold is_delim. by rewrite Hc. }
  rewrite <- (take_token_lacks tok s H).
  destruct tok as [|c tok]; [done|]. by rewrite append_String.
Qed.

(** A text without a comma is one token, up to the comma that follows it
    or to the end of the input. *)
Lemma strtok_last tok :
  tok <> EmptyString -> lacks "," tok = true -> strtok tok = Some (tok, EmptyString).
Proof.
  intros Hne H. rewrite <- (append_empty tok) at 1. rewrite (strtok_lacks tok _ Hne H).
  cbn [take_token fst snd]. by rewrite append_empty.
Qed.

Lemma strtok_more tok s :
  tok <> EmptyString -> lacks "," tok = true ->
  strtok (String.append tok (String "," s)) = Some (tok, s).
Proof.
  intros Hne H. rewrite (strtok_lacks tok _ Hne H). cbn [take_token].
  change (is_delim ",") with true. cbn [fst snd]. by rewrite append_empty.
Qed.

(** *** Texts without a dash *)

Lemma prefix_dash c s : String.prefix "-" (String c s) = Ascii.eqb c "-".
Proof.
  cbn [String.prefix]. destruct (ascii_dec "-" c) as [<-|Hne].
  - by destruct s.
  - symmetry. apply Ascii.eqb_neq. congruence.
Qed.

Lemma strstr_lacks t : lacks "-" t = true -> strstr t "-" = None.
Proof.
  induction t as [|c t IH]; intros H; [reflexivity|].
  apply lacks_String in H as [Hc Ht]. cbn [strstr]. by rewrite prefix_dash, Hc, (IH Ht).
Qed.

(** [strstr] stops at the first dash. *)
Lemma strstr_lacks_dash t s :
  lacks "-" t = true ->
  strstr (String.append t (String "-" s)) "-" = Some (String "-" s).
Proof.
  induction t as [|c t IH]; intros H.
  - rewrite append_Empty. cbn [strstr]. by rewrite prefix_dash.
  - apply lacks_String in H as [Hc Ht]. rewrite append_String. cbn [strstr].
    by rewrite prefix_dash, Hc, (IH Ht).
Qed.

Lemma lacks_digits ch ds : isdigit ch = false -> lacks ch (digits_string ds) = true.
Proof.
  intros Hch. induction ds as [|d ds IH]; [reflexivity|].
  cbn [digits_string]. apply lacks_String. split; [|exact IH].
  apply Ascii.eqb_neq. intros E.
  destruct (digit_char_class d) as (_ & Hd & _). congruence.
Qed.

Lemma lacks_cpu_string ch n : isdigit ch = false -> lacks ch (cpu_string n) = true.
Proof. apply lacks_digits. Qed.

Lemma lacks_signed_comma n : lacks "," (signed_string n) = true.
Proof.
  unfold signed_string. rewrite lacks_append, lacks_cpu_string by reflexivity.
  by destruct (fst n).
Qed.

Lemma lacks_signed_dash n : fst n <> Minus -> lacks "-" (signed_string n) = true.
Proof.
  intros Hs. unfold signed_string. rewrite lacks_append, lacks_cpu_string by reflexivity.
  by destruct (fst n).
Qed.

Lemma signed_string_head n : exists c s, signed_string n = String c s.
Proof. destruct n as [[] [d ds]]; cbn; eauto. Qed.

Lemma lacks_signed_item_comma it : lacks "," (signed_item_string it) = true.
Proof.
  destruct it as [n|lo hi]; cbn [signed_item_string]; [apply lacks_signed_comma|].
  rewrite lacks_append. cbn [lacks]. by rewrite !lacks_signed_comma.
Qed.

Lemma signed_item_string_nonempty it : signed_item_string it <> EmptyString.
Proof.
  destruct it as [n|lo hi]; cbn [signed_item_string].
  - by destruct (signed_string_head n) as (c & s & ->).
  - by destruct (signed_string_head lo) as (c & s & ->).
Qed.

(** *** Signed numbers *)

Lemma digits_value_lower ds : forall acc, 0 <= acc -> acc <= digits_value ds acc.
Proof.
  induction ds as [|d ds IH]; intros acc Hacc; cbn [digits_value]; [lia|].
  assert (0 <= digit_value d) by (by destruct d).
  specialize (IH (10 * acc + digit_value d)). lia.
Qed.

Lemma cpu_value_nonneg n : 0 <= cpu_value n.
Proof. unfold cpu_value. apply (digits_value_lower _ 0). lia. Qed.

Lemma to_int_clamp v : - 2 ^ 31 <= v < 2 ^ 31 -> to_int (clamp_long v) = v.
Proof.
  intros Hv. unfold to_int, clamp_long.
  rewrite Z.max_r, Z.min_r by lia. rewrite Z.mod_small by lia. lia.
Qed.

Lemma sscanf_d_plus d ds s :
  starts_with_digit s = false ->
  sscanf_d (String "+" (String.append (digits_string (d :: ds)) s))
  = Some (to_int (clamp_long (digits_value (d :: ds) 0))).
Proof.
  intros Hs. unfold sscanf_d. cbn [skip_space]. change (isspace "+") with false. cbv iota.
  cbn [digits_string]. rewrite append_String. cbn [starts_with_digit].
  destruct (digit_char_class d) as (_ & Hd & _ & _). rewrite Hd.
  rewrite <- append_String.
  change (String (digit_char d) (digits_string ds)) with (digits_string (d :: ds)).
  by rewrite scan_digits_digits, scan_digits_stop.
Qed.

Lemma sscanf_d_minus d ds s :
  starts_with_digit s = false ->
  sscanf_d (String "-" (String.append (digits_string (d :: ds)) s))
  = Some (to_int (clamp_long (- digits_value (d :: ds) 0))).
Proof.
  intros Hs. unfold sscanf_d. cbn [skip_space]. change (isspace "-") with false. cbv iota.
  cbn [digits_string]. rewrite append_String. cbn [starts_with_digit].
  destruct (digit_char_class d) as (_ & Hd & _ & _). rewrite Hd.
  rewrite <- append_String.
  change (String (digit_char d) (digits_string ds)) with (digits_string (d :: ds)).
  by rewrite scan_digits_digits, scan_digits_stop.
Qed.

(** [%d] reads a signed number up to the first character that is not a
    digit. *)
Lemma stress_parse_cpu_signed n s :
  starts_with_digit s = false ->
  - 2 ^ 31 <= signed_value n < 2 ^ 31 ->
  stress_parse_cpu (String.append (signed_string n) s) = Return (signed_value n).
Proof.
  intros Hs Hv. destruct n as [sg [d ds]].
  unfold stress_parse_cpu, signed_string, signed_value, cpu_string, cpu_value in *.
  cbn [fst snd] in *. destruct sg; cbn [sign_string].
  - rewrite append_Empty, sscanf_d_digits by assumption. by rewrite to_int_clamp.
  - rewrite !append_String, append_Empty, sscanf_d_plus by assumption.
    by rewrite to_int_clamp.
  - rewrite !append_String, append_Empty, sscanf_d_minus by assumption.
    by rewrite to_int_clamp.
Qed.

Lemma sign_minus_cases (sg : sign) : sg = Minus \/ sg <> Minus.
Proof. destruct sg; auto; by right. Qed.

(** *** Building the mask *)

Lemma elem_of_representable c (s : gset Z) :
  c ∈ representable s <-> 0 <= c < CPU_SETSIZE /\ c ∈ s.
Proof. unfold representable. by rewrite elem_of_filter. Qed.

Lemma CPU_SET_elem c cpu (set : cpu_set_t) :
  c ∈ CPU_SET cpu set <-> (c = cpu /\ 0 <= cpu < CPU_SETSIZE) \/ c ∈ set.
Proof.
  unfold CPU_SET.
  destruct (Z.leb_spec 0 cpu), (Z.ltb_spec cpu CPU_SETSIZE); cbn [andb];
    rewrite ?elem_of_union, ?elem_of_singleton; intuition lia.
Qed.

(** The loop sets the bits of the CPUs from [i] on that a [cpu_set_t] has
    a bit for, as long as [i] stays below INT_MAX. *)
Lemma set_cpus_range k : forall i set,
  i + Z.of_nat k <= INT_MAX ->
  set_cpus k i set = Return (representable (list_to_set (seqZ i (Z.of_nat k))) ∪ set).
Proof.
  induction k as [|k IH]; intros i set Hi; cbn [set_cpus].
  - f_equal. apply set_eq. intros c.
    rewrite elem_of_union, elem_of_representable, elem_of_list_to_set, elem_of_seqZ.
    intuition lia.
  - destruct (Z.eqb_spec i INT_MAX) as [E|_]; [lia|]. rewrite IH by lia.
    f_equal. apply set_eq. intros c.
    rewrite !elem_of_union, !elem_of_representable, !elem_of_list_to_set, !elem_of_seqZ.
    rewrite CPU_SET_elem. intuition lia.
Qed.

(** At INT_MAX the increment of [i] overflows. *)
Lemma set_cpus_overflow k : forall i set,
  i <= INT_MAX < i + Z.of_nat k -> set_cpus k i set = Undefined.
Proof.
  induction k as [|k IH]; intros i set Hi; cbn [set_cpus]; [lia|].
  destruct (Z.eqb_spec i INT_MAX) as [E|Hne]; [reflexivity|]. apply IH. lia.
Qed.

(** Without an upper bound on the CPUs a range that ends at INT_MAX gets
    there. *)
Example bind_up_to_int_max :
  build_cpu_set (-1) "2147483646-2147483647" = Undefined /\
  build_cpu_set (-1) "2147483646" = Return ∅.
Proof. split; vm_compute; reflexivity. Qed.

(** A mask the loop returns holds what the mask held before and CPUs
    from [i] on. *)
Lemma set_cpus_elem k : forall i set set' c,
  set_cpus k i set = Return set' ->
  c ∈ set' -> c ∈ set \/ i <= c < i + Z.of_nat k.
Proof.
  induction k as [|k IH]; intros i set set' c H Hc; cbn [set_cpus] in H.
  - injection H as <-. by left.
  - destruct (i =? INT_MAX); [discriminate|].
    destruct (IH _ _ _ c H Hc) as [Hin|Hin]; [|right; lia].
    apply CPU_SET_elem in Hin as [[-> _]|Hin]; [right; lia | by left].
Qed.

Lemma range_check_passes max_cpus cpu :
  0 <= cpu < max_cpus -> stress_check_cpu_affinity_range max_cpus cpu = Return tt.
Proof.
  intros H. unfold stress_check_cpu_affinity_range.
  destruct (Z.ltb_spec cpu 0); [lia|].
  destruct (Z.leb_spec max_cpus cpu); [lia|].
  by rewrite andb_false_r.
Qed.

Lemma cpu_string_head c : cpu_string c = String (digit_char (fst c)) (digits_string (snd c)).
Proof. by destruct c. Qed.

(** What is left of a round once [lo] and [hi] are read and in range. *)
Lemma checks_then_set max_cpus lo hi set :
  max_cpus < 2 ^ 31 -> 0 <= lo < max_cpus -> 0 <= hi < max_cpus -> lo <= hi ->
  (_ ← stress_check_cpu_affinity_range max_cpus lo;
   _ ← stress_check_cpu_affinity_range max_cpus hi;
   set_cpus (Z.to_nat (hi - lo + 1)) lo set)
  = Return (representable (list_to_set (seqZ lo (hi - lo + 1))) ∪ set).
Proof.
  intros Hmax Hlo Hhi Hle. rewrite !range_check_passes by lia. cbn [mbind result_bind].
  rewrite set_cpus_range by (unfold INT_MAX; lia). by rewrite Z2Nat.id by lia.
Qed.

Lemma tail_parse_nonempty tmp token :
  tmp <> EmptyString ->
  match tmp with
  | String _ _ => stress_parse_cpu tmp
  | EmptyString => Exit (ExpectingNumber token)
  end = stress_parse_cpu tmp.
Proof. by destruct tmp. Qed.

Lemma cpu_string_append_nonempty c s : String.append (cpu_string c) s <> EmptyString.
Proof. by rewrite cpu_string_head, append_String. Qed.

Lemma strstr_minus c s :
  strstr (String.append (signed_string (Minus, c)) s) "-"
  = Some (String "-" (String.append (cpu_string c) s)).
Proof.
  unfold signed_string. cbn [fst snd sign_string].
  rewrite !append_String, append_Empty. cbn [strstr]. by rewrite prefix_dash.
Qed.

(** One round of the loop on the text of a valid item adds the bits of
    the item's set. *)
Lemma parse_token_item max_cpus it set :
  max_cpus < 2 ^ 31 ->
  item_valid max_cpus it -> lo_unsigned it ->
  parse_token max_cpus (signed_item_string it) set
  = Return (representable (item_set it) ∪ set).
Proof.
  intros Hmax Hit Hplain. unfold parse_token.
  destruct it as [n|lo hi]; cbn [signed_item_string item_set item_valid lo_unsigned] in *.
  - assert (stress_parse_cpu (signed_string n) = Return (signed_value n)) as Hn.
    { rewrite <- (append_empty (signed_string n)).
      apply stress_parse_cpu_signed; [reflexivity | lia]. }
    assert (representable {[signed_value n]}
            = representable (list_to_set (seqZ (signed_value n)
                                            (signed_value n - signed_value n + 1)))) as ->.
    { replace (signed_value n - signed_value n + 1) with 1 by lia.
      rewrite seqZ_cons, seqZ_nil by lia. f_equal. set_solver. }
    rewrite Hn.
    destruct (sign_minus_cases (fst n)) as [Hm|Hm].
    + (* "-0": the dash is taken for a range, and both ends are zero *)
      destruct n as [sg c]. cbn [fst] in Hm. subst sg.
      pose proof (cpu_value_nonneg c) as Hc.
      change (signed_value (Minus, c)) with (- cpu_value c) in *.
      assert (cpu_value c = 0) as E by lia.
      rewrite <- (append_empty (signed_string (Minus, c))), strstr_minus.
      cbn [mbind result_bind tail_string].
      rewrite tail_parse_nonempty by apply cpu_string_append_nonempty.
      rewrite stress_parse_cpu_digits by (done || lia). cbn [mbind result_bind].
      destruct (Z.ltb_spec (cpu_value c) (- cpu_value c)); [lia|]. cbn [mbind result_bind].
      rewrite !E. change (- 0) with 0.
      apply (checks_then_set max_cpus 0 0); lia.
    + rewrite (strstr_lacks _ (lacks_signed_dash n Hm)).
      cbn [mbind result_bind]. apply checks_then_set; lia.
  - destruct Hit as (Hlo & Hhi & Hle).
    assert (stress_parse_cpu
              (String.append (signed_string lo) (String "-" (signed_string hi)))
            = Return (signed_value lo)) as Hl.
    { apply stress_parse_cpu_signed; [reflexivity | lia]. }
    assert (stress_parse_cpu (signed_string hi) = Return (signed_value hi)) as Hh.
    { rewrite <- (append_empty (signed_string hi)).
      apply stress_parse_cpu_signed; [reflexivity | lia]. }
    rewrite Hl.
    destruct (sign_minus_cases (fst lo)) as [Hm|Hm].
    + (* "-0-HI" with HI zero: the first dash is the sign *)
      specialize (Hplain Hm).
      destruct lo as [sg c]. cbn [fst] in Hm. subst sg.
      pose proof (cpu_value_nonneg c) as Hc.
      change (signed_value (Minus, c)) with (- cpu_value c) in *.
      assert (cpu_value c = 0) as E by lia.
      rewrite strstr_minus. cbn [mbind result_bind tail_string].
      rewrite tail_parse_nonempty by apply cpu_string_append_nonempty.
      rewrite stress_parse_cpu_digits by (done || lia). cbn [mbind result_bind].
      destruct (Z.ltb_spec (cpu_value c) (- cpu_value c)); [lia|]. cbn [mbind result_bind].
      rewrite Hplain, !E. change (- 0) with 0.
      apply (checks_then_set max_cpus 0 0); lia.
    + rewrite (strstr_lacks_dash _ _ (lacks_signed_dash lo Hm)).
      cbn [mbind result_bind tail_string].
      rewrite tail_parse_nonempty
        by (by destruct (signed_string_head hi) as (ch & r & ->)).
      rewrite Hh. cbn [mbind result_bind].
      destruct (Z.ltb_spec (signed_value hi) (signed_value lo)); [lia|].
      cbn [mbind result_bind]. apply checks_then_set; lia.
Qed.

Lemma representable_union (s t : gset Z) :
  representable (s ∪ t) = representable s ∪ representable t.
Proof.
  apply set_eq. intros c.
  rewrite elem_of_union, !elem_of_representable, elem_of_union. tauto.
Qed.

Lemma parse_loop_list max_cpus its : forall it set fuel,
  max_cpus < 2 ^ 31 ->
  Forall (item_valid max_cpus) (it :: its) ->
  Forall lo_unsigned (it :: its) ->
  (String.length (list_string it its) < fuel)%nat ->
  parse_loop fuel max_cpus (list_string it its) set
  = Return (representable (list_set (it :: its)) ∪ set).
Proof.
  induction its as [|it' its IH]; intros it set fuel Hmax Hval Hplain Hfuel.
  - cbn [list_string] in *.
    pose proof (signed_item_string_nonempty it) as Hne.
    destruct fuel as [|[|fuel]]; try lia.
    { destruct (signed_item_string it); [done | cbn [String.length] in Hfuel; lia]. }
    cbn [parse_loop].
    rewrite (strtok_last _ Hne (lacks_signed_item_comma it)).
    rewrite parse_token_item
      by (done || (inversion Hval; done) || (inversion Hplain; done)).
    cbn [mbind result_bind]. change (strtok EmptyString) with (@None (string * string)).
    cbv iota. f_equal. unfold list_set. cbn [fmap list_fmap union_list foldr].
    by rewrite (right_id_L ∅ (∪)).
  - cbn [list_string] in *. rewrite length_append in Hfuel. cbn [String.length] in Hfuel.
    destruct fuel as [|fuel]; [lia|].
    cbn [parse_loop].
    rewrite (strtok_more _ _ (signed_item_string_nonempty it) (lacks_signed_item_comma it)).
    inversion Hval as [|? ? Hit Hrest]; subst.
    inversion Hplain as [|? ? Hpl Hprest]; subst.
    rewrite parse_token_item by done. cbn [mbind result_bind].
    rewrite IH by (done || lia). f_equal.
    unfold list_set. cbn [fmap list_fmap union_list foldr].
    rewrite !representable_union. set_solver.
Qed.

Lemma build_cpu_set_list max_cpus it its :
  max_cpus < 2 ^ 31 ->
  Forall (item_valid max_cpus) (it :: its) ->
  Forall lo_unsigned (it :: its) ->
  build_cpu_set max_cpus (list_string it its)
  = Return (representable (list_set (it :: its))).
Proof.
  intros Hmax Hval Hplain. unfold build_cpu_set.
  rewrite parse_loop_list by (done || lia). f_equal. unfold CPU_ZERO. set_solver.
Qed.

Lemma elem_of_item_set it c :
  c ∈ item_set it <->
  match it with
  | SSingle n => c = signed_value n
  | SRange lo hi => signed_value lo <= c <= signed_value hi
  end.
Proof.
  destruct it as [n|lo hi]; cbn [item_set].
  - set_solver.
  - rewrite elem_of_list_to_set, elem_of_seqZ. lia.
Qed.

Lemma elem_of_list_set its c :
  c ∈ list_set its <-> exists it, it ∈ its /\ c ∈ item_set it.
Proof.
  unfold list_set. rewrite elem_of_union_list. split.
  - intros (X & HX & Hc). apply list_elem_of_fmap in HX as (it & -> & Hit). eauto.
  - intros (it & Hit & Hc). exists (item_set it). split; [|done].
    apply list_elem_of_fmap. eauto.
Qed.

(** With no more CPUs than a [cpu_set_t] has bits, every CPU of a valid
    list has a bit. *)
Lemma representable_list_set max_cpus its :
  max_cpus <= CPU_SETSIZE ->
  Forall (item_valid max_cpus) its ->
  representable (list_set its) = list_set its.
Proof.
  intros Hmax Hval. apply set_eq. intros c. rewrite elem_of_representable.
  split; [tauto|]. intros Hc. split; [|exact Hc].
  apply elem_of_list_set in Hc as (it & Hit & Hc).
  rewrite Forall_forall in Hval. specialize (Hval it Hit).
  apply elem_of_item_set in Hc.
  destruct it as [n|lo hi]; cbn [item_valid] in Hval; lia.
Qed.

Section Bind.

Variable K : Type.
Variable sched_setaffinity : cpu_set_t -> K -> option K.
Variable max_cpus : Z.

Lemma stress_set_cpu_affinity_built arg set (p : process K) :
  build_cpu_set max_cpus arg = Return set ->
  stress_set_cpu_affinity K sched_setaffinity max_cpus arg p =
  match sched_setaffinity set (kernel p) with
  | None => Exit CannotSetAffinity
  | Some k' => Return (0, mkProcess k' set (applied p ++ [set]))
  end.
Proof.
  intros H. unfold stress_set_cpu_affinity. rewrite H. cbn.
  by destruct (sched_setaffinity set (kernel p)).
Qed.

Lemma stress_set_cpu_affinity_exit arg d (p : process K) :
  build_cpu_set max_cpus arg = Exit d ->
  stress_set_cpu_affinity K sched_setaffinity max_cpus arg p = Exit d.
Proof. intros H. unfold stress_set_cpu_affinity. by rewrite H. Qed.

End Bind.

(** C2 as stated fails in two ways. A [cpu_set_t] has CPU_SETSIZE = 1024
    bits and [CPU_SET] drops an index beyond them: on a host with 2048
    CPUs the list ["1023,1024"] gives [{1023}]. And the loop takes the first
    dash of a token for the dash of a range: ["-0-3"], the range from -0
    to 3, gives [{0}]. *)
Lemma bind_mask_misses_cpus :
  let big := SSingle (NoSign, (d1, [d0; d2; d3])) in
  let bigs := [SSingle (NoSign, (d1, [d0; d2; d4]))] in
  let neg := SRange (Minus, (d0, [])) (NoSign, (d3, [])) in
  (list_string big bigs = "1023,1024"%string /\
   item_valid 2048 big /\ Forall (item_valid 2048) bigs /\
   (forall c, c ∈ list_set (big :: bigs) <-> c = 1023 \/ c = 1024) /\
   build_cpu_set 2048 "1023,1024" = Return {[1023]}) /\
  (list_string neg [] = "-0-3"%string /\
   item_valid 8 neg /\
   (forall c, c ∈ list_set [neg] <-> 0 <= c <= 3) /\
   build_cpu_set 8 "-0-3" = Return {[0]} /\
   exists k',
     stress_set_cpu_affinity host (host_setaffinity 8) 8 "-0-3" (boot 8)
     = Return (0, mkProcess k' {[0]} [{[0]}])).
Proof.
  intros big bigs neg.
  assert (build_cpu_set 2048 "1023,1024" = Return {[1023]}) as Hbig
    by (vm_compute; reflexivity).
  assert (build_cpu_set 8 "-0-3" = Return {[0]}) as Hneg by (vm_compute; reflexivity).
  split.
  - split; [reflexivity|]. split; [cbn; lia|]. split; [repeat constructor; cbn; lia|].
    split; [|exact Hbig].
    intros c. rewrite elem_of_list_set. split.
    + intros (i & Hi & Hc). apply elem_of_item_set in Hc.
      apply elem_of_cons in Hi as [->|Hi]; [left; exact Hc|].
      apply list_elem_of_singleton in Hi as ->. right; exact Hc.
    + intros [-> | ->]; [exists big | exists (SSingle (NoSign, (d1, [d0; d2; d4])))];
        (split; [|by apply elem_of_item_set]);
        [apply list_elem_of_here | apply list_elem_of_further, list_elem_of_here].
  - split; [reflexivity|]. split; [cbn; lia|].
    split; [|split; [exact Hneg|]];
      [|rewrite (stress_set_cpu_affinity_built _ _ _ _ _ _ Hneg); vm_compute; eauto].
    intros c. rewrite elem_of_list_set. split.
    + intros (i & Hi & Hc). apply list_elem_of_singleton in Hi as ->.
      apply elem_of_item_set in Hc. cbn in Hc. lia.
    + intros Hc. exists neg. split; [apply list_elem_of_here|].
      apply elem_of_item_set. cbn. lia.
Qed.

(** C2, as the code has it. For a list that follows the grammar, with
    every CPU in [[0, max_cpus)] and [LO <= HI] in every range, and with no
    range whose LO is written with a minus sign (unless its HI is zero), the
    mask the bind operation builds holds the CPUs of the union of the items
    that a [cpu_set_t] has a bit for, those below CPU_SETSIZE = 1024. On a
    host with at most 1024 CPUs that is the union of the items: [{N}] for a
    single CPU, [{LO, ..., HI}] for a range. The mask is what the operation
    hands to the kernel and, when the kernel accepts it, what it caches. *)
Theorem bind_mask_is_union K sched_setaffinity max_cpus it its (p : process K) :
  max_cpus < 2 ^ 31 ->
  Forall (item_valid max_cpus) (it :: its) ->
  Forall lo_unsigned (it :: its) ->
  let mask := representable (list_set (it :: its)) in
  build_cpu_set max_cpus (list_string it its) = Return mask /\
  (max_cpus <= CPU_SETSIZE -> mask = list_set (it :: its)) /\
  (forall c, c ∈ mask <->
     c < CPU_SETSIZE /\
     exists i, i ∈ it :: its /\
       match i with
       | SSingle n => c = signed_value n
       | SRange lo hi => signed_value lo <= c <= signed_value hi
       end) /\
  stress_set_cpu_affinity K sched_setaffinity max_cpus (list_string it its) p =
  match sched_setaffinity mask (kernel p) with
  | None => Exit CannotSetAffinity
  | Some k' => Return (0, mkProcess k' mask (applied p ++ [mask]))
  end.
Proof.
  intros Hmax Hval Hplain mask.
  pose proof (build_cpu_set_list max_cpus it its Hmax Hval Hplain) as Hbuild.
  split; [exact Hbuild|]. split; [|split].
  - intros Hsmall. by apply (representable_list_set max_cpus).
  - intros c. subst mask. rewrite elem_of_representable, elem_of_list_set. split.
    + intros (Hc & i & Hi & Hin). split; [lia|]. exists i. split; [done|].
      by apply elem_of_item_set.
    + intros (Hc & i & Hi & Hin). apply elem_of_item_set in Hin.
      split; [|by exists i]. split; [|exact Hc].
      rewrite Forall_forall in Hval. specialize (Hval i Hi).
      apply elem_of_item_set in Hin.
      destruct i as [n|lo hi]; cbn [item_valid] in Hval; lia.
  - by apply stress_set_cpu_affinity_built.
Qed.

Lemma bind_mask_is_union_witness :
  let it := SSingle (NoSign, (d2, [])) in
  let its := [SSingle (Plus, (d2, [])); SRange (NoSign, (d3, [])) (NoSign, (d5, []));
              SSingle (NoSign, (d4, [])); SSingle (Minus, (d0, []))] in
  let mask := representable (list_set (it :: its)) in
  list_string it its = "2,+2,3-5,4,-0"%string /\
  build_cpu_set 8 "2,+2,3-5,4,-0" = Return mask /\
  (8 <= CPU_SETSIZE -> mask = list_set (it :: its)) /\
  (forall c, c ∈ mask <->
     c < CPU_SETSIZE /\
     exists i, i ∈ it :: its /\
       match i with
       | SSingle n => c = signed_value n
       | SRange lo hi => signed_value lo <= c <= signed_value hi
       end) /\
  stress_set_cpu_affinity host (host_setaffinity 8) 8 "2,+2,3-5,4,-0" (boot 8) =
  match host_setaffinity 8 mask (kernel (boot 8)) with
  | None => Exit CannotSetAffinity
  | Some k' => Return (0, mkProcess k' mask (applied (boot 8) ++ [mask]))
  end.
Proof.
  intros it its mask. split; [reflexivity|].
  apply (bind_mask_is_union host (host_setaffinity 8) 8 it its (boot 8)).
  - lia.
  - repeat constructor; cbn; lia.
  - repeat constructor; cbn; discriminate.
Defined.

(** The example of the specification: duplicates and overlaps do no harm. *)
Example bind_2_2_3to5_4 :
  build_cpu_set 8 "2,2,3-5,4" = Return {[2; 3; 4; 5]} /\
  exists k',
    stress_set_cpu_affinity host (host_setaffinity 8) 8 "2,2,3-5,4" (boot 8)
    = Return (0, mkProcess k' {[2; 3; 4; 5]} [{[2; 3; 4; 5]}]).
Proof.
  assert (build_cpu_set 8 "2,2,3-5,4" = Return {[2; 3; 4; 5]}) as H.
  { vm_compute. reflexivity. }
  split; [exact H|].
  rewrite (stress_set_cpu_affinity_built _ _ _ _ _ _ H).
  vm_compute. eauto.
Qed.

(** *** The loop ends *)






(** *** What a round of the loop can add *)

Lemma range_check_inv max_cpus cpu :
  stress_check_cpu_affinity_range max_cpus cpu = Return tt ->
  0 <= cpu /\ (max_cpus <> -1 -> cpu < max_cpus).
Proof.
  unfold stress_check_cpu_affinity_range.
  destruct (Z.ltb_spec cpu 0); [discriminate|].
  destruct (Z.eqb_spec max_cpus (-1)); cbn [negb andb orb]; [intros _; lia|].
  destruct (Z.leb_spec max_cpus cpu); [discriminate|]. intros _. lia.
Qed.

Lemma range_check_cases max_cpus cpu :
  stress_check_cpu_affinity_range max_cpus cpu = Return tt \/
  stress_check_cpu_affinity_range max_cpus cpu = Exit (InvalidRange cpu (max_cpus - 1)).
Proof. unfold stress_check_cpu_affinity_range. destruct (_ || _); auto. Qed.



(** *** Lists are parsed piece by piece *)

Lemma result_bind_assoc {A B C : Type} (r : result A) (f : A -> result B) (g : B -> result C) :
  (r ≫= f) ≫= g = r ≫= (fun a => f a ≫= g).
Proof. by destruct r. Qed.

Lemma CPU_SET_onto i (set : cpu_set_t) : CPU_SET i set = CPU_SET i ∅ ∪ set.
Proof. unfold CPU_SET. destruct (_ && _); set_solver. Qed.

Lemma set_cpus_onto k : forall i (set : cpu_set_t),
  set_cpus k i set = set_cpus k i ∅ ≫= (fun added => Return (added ∪ set)).
Proof.
  induction k as [|k IH]; intros i set; cbn [set_cpus].
  - cbn [mbind result_bind]. f_equal. set_solver.
  - cbv zeta. destruct (i =? INT_MAX); [reflexivity|].
    rewrite (IH (i + 1) (CPU_SET i set)), (IH (i + 1) (CPU_SET i ∅)).
    destruct (set_cpus k (i + 1) ∅) as [added| | |]; cbn [mbind result_bind];
      try reflexivity.
    f_equal. rewrite (CPU_SET_onto i set). set_solver.
Qed.

(** What a round adds or reports does not depend on the mask built so
    far. *)
Lemma parse_token_onto max_cpus token (set : cpu_set_t) :
  parse_token max_cpus token set
  = parse_token max_cpus token ∅ ≫= (fun added => Return (added ∪ set)).
Proof.
  unfold parse_token.
  destruct (stress_parse_cpu token) as [lo| | |]; cbn [mbind result_bind]; try reflexivity.
  assert (forall hi,
            (_ ← stress_check_cpu_affinity_range max_cpus lo;
             _ ← stress_check_cpu_affinity_range max_cpus hi;
             set_cpus (Z.to_nat (hi - lo + 1)) lo set)
            = (_ ← stress_check_cpu_affinity_range max_cpus lo;
               _ ← stress_check_cpu_affinity_range max_cpus hi;
               set_cpus (Z.to_nat (hi - lo + 1)) lo ∅)
              ≫= (fun added => Return (added ∪ set))) as Hchecks.
  { intros hi.
    destruct (stress_check_cpu_affinity_range max_cpus lo) as [[]| | |];
      cbn [mbind result_bind]; try reflexivity.
    destruct (stress_check_cpu_affinity_range max_cpus hi) as [[]| | |];
      cbn [mbind result_bind]; try reflexivity.
    apply set_cpus_onto. }
  destruct (strstr token "-") as [tmp|]; [|apply Hchecks].
  destruct (tail_string tmp) as [|ch r]; cbn [mbind result_bind]; [reflexivity|].
  destruct (stress_parse_cpu (String ch r)) as [hi| | |]; cbn [mbind result_bind];
    try reflexivity.
  destruct (hi <? lo); cbn [mbind result_bind]; [reflexivity | apply Hchecks].
Qed.

Lemma parse_loop_onto max_cpus fuel : forall save (set : cpu_set_t),
  parse_loop fuel max_cpus save set
  = parse_loop fuel max_cpus save ∅ ≫= (fun added => Return (added ∪ set)).
Proof.
  induction fuel as [|fuel IH]; intros save set; cbn [parse_loop]; [reflexivity|].
  destruct (strtok save) as [[token save']|]; cbn [mbind result_bind];
    [|f_equal; set_solver].
  rewrite (parse_token_onto max_cpus token set).
  destruct (parse_token max_cpus token ∅) as [added| | |]; cbn [mbind result_bind];
    try reflexivity.
  rewrite (IH save' (added ∪ set)), (IH save' added).
  destruct (parse_loop fuel max_cpus save' ∅) as [rest| | |]; cbn [mbind result_bind];
    try reflexivity.
  f_equal. set_solver.
Qed.

(** Fuel beyond the length of the text changes nothing. *)
Lemma parse_loop_fuel_indep max_cpus fuel : forall fuel' save set,
  (String.length save < fuel)%nat -> (String.length save < fuel')%nat ->
  parse_loop fuel max_cpus save set = parse_loop fuel' max_cpus save set.
Proof.
  induction fuel as [|fuel IH]; intros fuel' save set H H'; [lia|].
  destruct fuel' as [|fuel']; [lia|]. cbn [parse_loop].
  destruct (strtok save) as [[token save']|] eqn:E; [|reflexivity].
  apply strtok_token in E as [_ Hshort].
  destruct (parse_token max_cpus token set) as [set1| | |]; cbn [mbind result_bind];
    try reflexivity.
  apply IH; lia.
Qed.

Lemma skip_delims_app_empty s t :
  skip_delims s = EmptyString -> skip_delims (String.append s t) = skip_delims t.
Proof.
  induction s as [|ch s IH]; [reflexivity|].
  rewrite append_String. cbn [skip_delims]. destruct (is_delim ch); [exact IH | discriminate].
Qed.

Lemma skip_delims_app_head s t ch r :
  skip_delims s = String ch r ->
  skip_delims (String.append s t) = String.append (String ch r) t.
Proof.
  induction s as [|c0 s IH]; [discriminate|].
  rewrite append_String. cbn [skip_delims].
  destruct (is_delim c0); [exact IH|]. intros [= <- <-]. by rewrite append_String.
Qed.

(** The first token of [s] followed by a comma and [s2]: either [s] holds
    a comma, and the token and what is left of [s] are as in [s] alone, or
    the token is all of [s] and what is left is [s2]. *)
Lemma take_token_app s s2 :
  (exists tok rest,
     take_token s = (tok, rest) /\
     take_token (String.append s (String "," s2))
       = (tok, String.append rest (String "," s2)) /\
     (String.length rest < String.length s)%nat) \/
  (take_token s = (s, EmptyString) /\
   take_token (String.append s (String "," s2)) = (s, s2)).
Proof.
  induction s as [|ch s IH].
  - right. by split.
  - rewrite append_String. cbn [take_token].
    destruct (is_delim ch) eqn:E.
    + left. exists EmptyString, s. cbn [String.length]. repeat split. lia.
    + destruct IH as [(tok & rest & H1 & H2 & H3)|[H1 H2]].
      * left. exists (String ch tok), rest. rewrite H1, H2. cbn [String.length].
        repeat split. lia.
      * right. by rewrite H1, H2.
Qed.

Lemma parse_loop_app max_cpus s2 fuel : forall s1 set fuel1 fuel2,
  (String.length (String.append s1 (String "," s2)) < fuel)%nat ->
  (String.length s1 < fuel1)%nat -> (String.length s2 < fuel2)%nat ->
  parse_loop fuel max_cpus (String.append s1 (String "," s2)) set
  = parse_loop fuel1 max_cpus s1 set ≫= (fun set1 => parse_loop fuel2 max_cpus s2 set1).
Proof.
  induction fuel as [|fuel IH]; intros s1 set fuel1 fuel2 H H1 H2; [lia|].
  destruct fuel1 as [|fuel1]; [lia|].
  rewrite length_append in H. cbn [String.length] in H.
  cbn [parse_loop]. unfold strtok.
  destruct (skip_delims s1) as [|ch r] eqn:E.
  - rewrite (skip_delims_app_empty s1 _ E). cbn [skip_delims mbind result_bind].
    change (is_delim ",") with true. cbv iota.
    rewrite (parse_loop_fuel_indep max_cpus fuel2 (S fuel) s2 set) by lia.
    reflexivity.
  - rewrite (skip_delims_app_head s1 _ ch r E). rewrite append_String.
    pose proof (skip_delims_shorter s1) as Hlen. rewrite E in Hlen.
    rewrite <- append_String.
    destruct (take_token_app (String ch r) s2) as [(tok & rest & T1 & T2 & T3)|[T1 T2]].
    + rewrite T1, T2. rewrite result_bind_assoc.
      destruct (parse_token max_cpus tok set) as [set'| | |]; cbn [mbind result_bind];
        try reflexivity.
      apply IH; [rewrite length_append; cbn [String.length]; lia | lia | lia].
    + rewrite T1, T2. rewrite result_bind_assoc.
      destruct (parse_token max_cpus (String ch r) set) as [set'| | |];
        cbn [mbind result_bind]; try reflexivity.
      cbn [String.length] in Hlen. destruct fuel1 as [|fuel1]; [lia|].
      cbn [parse_loop]. change (strtok EmptyString) with (@None (string * string)).
      cbn [mbind result_bind]. apply parse_loop_fuel_indep; lia.
Qed.

(** *** Empty tokens *)

Lemma tokens_nonempty fuel : forall save,
  Forall (fun token => token <> EmptyString) (tokens fuel save).
Proof.
  induction fuel as [|fuel IH]; intros save; cbn [tokens]; [constructor|].
  destruct (strtok save) as [[token save']|] eqn:E; [|constructor].
  constructor; [by apply (strtok_token _ _ _ E) | apply IH].
Qed.

(** C6 as stated fails on ["1,,2"]: on a host with four CPUs the bind
    operation installs and caches [{1, 2}]. *)
Lemma empty_token_is_skipped :
  exists k',
    stress_set_cpu_affinity host (host_setaffinity 4) 4 "1,,2" (boot 4)
    = Return (0, mkProcess k' {[1; 2]} [{[1; 2]}]).
Proof. vm_compute. eauto. Qed.

(** C6, as the code has it. [strtok] never yields an empty token: commas
    that follow one another count as one separator, so ["1,,2"] is read as
    ["1,2"]. The inputs [""] and [","] hold no token at all; the mask stays
    empty and goes to the kernel, and the process exits, with the
    diagnostic of a refused mask, exactly when the kernel refuses it. *)
Theorem empty_tokens_skipped K sched_setaffinity max_cpus (p : process K) :
  (forall arg, Forall (fun token => token <> EmptyString) (tokens_of arg)) /\
  tokens_of "1,,2" = ["1"; "2"]%string /\
  build_cpu_set max_cpus "1,,2" = build_cpu_set max_cpus "1,2" /\
  build_cpu_set max_cpus "" = Return ∅ /\
  build_cpu_set max_cpus "," = Return ∅ /\
  stress_set_cpu_affinity K sched_setaffinity max_cpus "" p =
    match sched_setaffinity ∅ (kernel p) with
    | None => Exit CannotSetAffinity
    | Some k' => Return (0, mkProcess k' ∅ (applied p ++ [∅]))
    end /\
  stress_set_cpu_affinity K sched_setaffinity max_cpus "," p =
    match sched_setaffinity ∅ (kernel p) with
    | None => Exit CannotSetAffinity
    | Some k' => Return (0, mkProcess k' ∅ (applied p ++ [∅]))
    end.
Proof.
  assert (build_cpu_set max_cpus "" = Return ∅) as H0 by reflexivity.
  assert (build_cpu_set max_cpus "," = Return ∅) as H1 by reflexivity.
  split; [intros arg; apply tokens_nonempty|].
  split; [reflexivity|]. split; [reflexivity|].
  split; [exact H0|]. split; [exact H1|].
  split; by apply stress_set_cpu_affinity_built.
Qed.

(** On the small host the kernel refuses the empty mask, so there [""] and
    [","] do end the process. *)
Example bind_empty_on_host :
  stress_set_cpu_affinity host (host_setaffinity 4) 4 "" (boot 4) = Exit CannotSetAffinity /\
  stress_set_cpu_affinity host (host_setaffinity 4) 4 "," (boot 4) = Exit CannotSetAffinity.
Proof. split; vm_compute; reflexivity. Qed.

(** *** Tokens that are not bare numbers *)







(** *** Characters after a number *)




(** *** A token in its place in the input *)









(** The same on the four-CPU host. *)
Example bind_tokens_on_host :
  map (build_cpu_set 4) ["1,a"; "9,a"; "a,9"; "1x-3"; "3x-9"; "0,1x-3 ,2"]%string
  = [Exit (InvalidNumber "a"); Exit (InvalidRange 9 3); Exit (InvalidNumber "a");
     Return {[1; 2; 3]}; Exit (InvalidRange 9 3); Return {[0; 1; 2; 3]}].
Proof. vm_compute. reflexivity. Qed.

(** *** Migration *)

Section Migrate.

Variable K : Type.
Variable sched_setaffinity : cpu_set_t -> K -> option K.
Variable sched_getaffinity : K -> option cpu_set_t.
Variable stress_get_cpu : K -> Z.
Variable g_opt_flags : Z.
Variable OPT_FLAGS_CHANGE_CPU : Z.

Local Abbreviation change_cpu :=
  (stress_change_cpu K sched_setaffinity sched_getaffinity stress_get_cpu
     g_opt_flags OPT_FLAGS_CHANGE_CPU).

(** The mask [stress_change_cpu] hands to the kernel, from the one it
    started with. *)
Lemma change_cpu_unfold old_cpu (p : process K) m0 :
  Z.land g_opt_flags OPT_FLAGS_CHANGE_CPU <> 0 ->
  starting_mask K sched_getaffinity p = Some m0 ->
  change_cpu old_cpu p =
  let from_cpu := if old_cpu <? 0 then to_int (stress_get_cpu (kernel p)) else old_cpu in
  let mask :=
    if bool_decide (0 <= old_cpu /\ 1 < CPU_COUNT m0) then CPU_CLR old_cpu m0 else m0 in
  match sched_setaffinity mask (kernel p) with
  | Some k' =>
      (to_int (stress_get_cpu k'),
       mkProcess k' (stress_affinity_cpu_set p) (applied p ++ [mask]))
  | None =>
      (from_cpu, mkProcess (kernel p) (stress_affinity_cpu_set p) (applied p ++ [mask]))
  end.
Proof.
  intros Hflag Hstart. unfold stress_change_cpu.
  destruct (Z.eqb_spec (Z.land g_opt_flags OPT_FLAGS_CHANGE_CPU) 0); [done|].
  rewrite Hstart. cbv zeta.
  destruct (Z.ltb_spec old_cpu 0) as [Hneg|Hpos].
  - rewrite bool_decide_eq_false_2 by lia. unfold call_setaffinity. cbn [kernel].
    by destruct (sched_setaffinity m0 (kernel p)).
  - destruct (Z.ltb_spec 1 (CPU_COUNT m0)) as [Hmany|Hfew].
    + rewrite bool_decide_eq_true_2 by lia. unfold call_setaffinity. cbn [kernel].
      by destruct (sched_setaffinity (CPU_CLR old_cpu m0) (kernel p)).
    + rewrite bool_decide_eq_false_2 by lia. unfold call_setaffinity. cbn [kernel].
      by destruct (sched_setaffinity m0 (kernel p)).
Qed.

Lemma CPU_CLR_nonempty cpu (m : cpu_set_t) : 1 < CPU_COUNT m -> CPU_CLR cpu m <> ∅.
Proof.
  unfold CPU_COUNT, CPU_CLR. intros Hcount Hempty.
  assert (m ⊆ ({[cpu]} : gset Z)) as Hsub.
  { intros x Hx. destruct (decide (x = cpu)) as [->|Hne]; [by apply elem_of_singleton|].
    assert (x ∈ m ∖ {[cpu]}) as Hin by (apply elem_of_difference; split; [done|];
      by rewrite elem_of_singleton).
    rewrite Hempty in Hin. by apply not_elem_of_empty in Hin. }
  apply subseteq_size in Hsub. rewrite size_singleton in Hsub. lia.
Qed.

End Migrate.

(** C5. With change-cpu enabled and a starting mask [m0] (the cached mask,
    or the kernel's when none is cached), the one mask handed to the kernel
    is [m0] without the input CPU when the input is non-negative and [m0]
    has more than one bit, and [m0] itself otherwise, in particular for a
    negative input. It is not empty unless [m0] was. *)
Theorem migrate_mask_never_emptied K sched_setaffinity sched_getaffinity stress_get_cpu
    g_opt_flags OPT_FLAGS_CHANGE_CPU old_cpu (p : process K) m0 :
  Z.land g_opt_flags OPT_FLAGS_CHANGE_CPU <> 0 ->
  starting_mask K sched_getaffinity p = Some m0 ->
  exists mask,
    applied (snd (stress_change_cpu K sched_setaffinity sched_getaffinity stress_get_cpu
                    g_opt_flags OPT_FLAGS_CHANGE_CPU old_cpu p))
    = applied p ++ [mask] /\
    (0 <= old_cpu -> 1 < CPU_COUNT m0 -> mask = m0 ∖ {[old_cpu]}) /\
    (0 <= old_cpu -> CPU_COUNT m0 <= 1 -> mask = m0) /\
    (old_cpu < 0 -> mask = m0) /\
    (m0 <> ∅ -> mask <> ∅).
Proof.
  intros Hflag Hstart.
  rewrite (change_cpu_unfold K sched_setaffinity sched_getaffinity stress_get_cpu
             g_opt_flags OPT_FLAGS_CHANGE_CPU old_cpu p m0 Hflag Hstart).
  cbv zeta.
  exists (if bool_decide (0 <= old_cpu /\ 1 < CPU_COUNT m0)
          then CPU_CLR old_cpu m0 else m0).
  split; [by destruct (sched_setaffinity _ (kernel p))|].
  case_bool_decide as Hclr.
  - repeat split; try (intros; lia); try done.
    intros _. apply CPU_CLR_nonempty. lia.
  - repeat split; try (intros; lia); try done.
Qed.

Lemma migrate_mask_never_emptied_witness :
  exists mask,
    applied (snd (stress_change_cpu host (host_setaffinity 4) host_getaffinity host_get_cpu
                    1 1 2 bound_process))
    = applied bound_process ++ [mask] /\
    (0 <= 2 -> 1 < CPU_COUNT {[0; 2; 3]} -> mask = {[0; 2; 3]} ∖ {[2]}) /\
    (0 <= 2 -> CPU_COUNT {[0; 2; 3]} <= 1 -> mask = {[0; 2; 3]}) /\
    (2 < 0 -> mask = {[0; 2; 3]}) /\
    ({[0; 2; 3]} <> (∅ : gset Z) -> mask <> ∅).
Proof.
  apply (migrate_mask_never_emptied host (host_setaffinity 4) host_getaffinity host_get_cpu
           1 1 2 bound_process {[0; 2; 3]}).
  - vm_compute. discriminate.
  - vm_compute. reflexivity.
Defined.

(** C8. With change-cpu enabled and a starting mask, the operation returns
    [from_cpu] (the input, or for a negative input the CPU queried before
    the call) when the kernel refuses the mask, and the CPU it queries from
    the kernel after the move when the kernel accepts it. *)
Theorem migrate_result K sched_setaffinity sched_getaffinity stress_get_cpu
    g_opt_flags OPT_FLAGS_CHANGE_CPU old_cpu (p : process K) m0 :
  Z.land g_opt_flags OPT_FLAGS_CHANGE_CPU <> 0 ->
  starting_mask K sched_getaffinity p = Some m0 ->
  let r := stress_change_cpu K sched_setaffinity sched_getaffinity stress_get_cpu
             g_opt_flags OPT_FLAGS_CHANGE_CPU old_cpu p in
  let from_cpu := if old_cpu <? 0 then to_int (stress_get_cpu (kernel p)) else old_cpu in
  let mask :=
    if bool_decide (0 <= old_cpu /\ 1 < CPU_COUNT m0) then CPU_CLR old_cpu m0 else m0 in
  match sched_setaffinity mask (kernel p) with
  | None => fst r = from_cpu /\ kernel (snd r) = kernel p
  | Some k' =>
      fst r = to_int (stress_get_cpu k') /\ kernel (snd r) = k' /\
      (0 <= stress_get_cpu k' < 2 ^ 31 -> fst r = stress_get_cpu k')
  end.
Proof.
  intros Hflag Hstart r from_cpu mask. subst r.
  rewrite (change_cpu_unfold K sched_setaffinity sched_getaffinity stress_get_cpu
             g_opt_flags OPT_FLAGS_CHANGE_CPU old_cpu p m0 Hflag Hstart).
  cbv zeta. fold mask. fold from_cpu.
  destruct (sched_setaffinity mask (kernel p)) as [k'|]; cbn [fst snd kernel]; [|done].
  repeat split. intros Hcpu. unfold to_int. rewrite Z.mod_small by lia. lia.
Qed.

Lemma migrate_result_witness :
  fst (stress_change_cpu host (host_setaffinity 4) host_getaffinity host_get_cpu
         1 1 2 bound_process) = 0 /\
  fst (stress_change_cpu host (host_setaffinity 2) host_getaffinity host_get_cpu
         1 1 2 stranded_process) = 2.
Proof.
  split.
  - pose proof (migrate_result host (host_setaffinity 4) host_getaffinity host_get_cpu
                  1 1 2 bound_process {[0; 2; 3]}) as H.
    cbv zeta in H.
    assert (host_setaffinity 4
              (if bool_decide (0 <= 2 /\ 1 < CPU_COUNT {[0; 2; 3]})
               then CPU_CLR 2 {[0; 2; 3]} else {[0; 2; 3]}) (kernel bound_process)
            = Some (0, {[0; 3]})) as E by (vm_compute; reflexivity).
    rewrite E in H. apply H; [vm_compute; discriminate | vm_compute; reflexivity | ].
    unfold host_get_cpu. cbn [fst]. lia.
  - pose proof (migrate_result host (host_setaffinity 2) host_getaffinity host_get_cpu
                  1 1 2 stranded_process {[3]}) as H.
    cbv zeta in H.
    assert (host_setaffinity 2
              (if bool_decide (0 <= 2 /\ 1 < CPU_COUNT {[3]})
               then CPU_CLR 2 {[3]} else {[3]}) (kernel stranded_process)
            = None) as E by (vm_compute; reflexivity).
    rewrite E in H. apply H; [vm_compute; discriminate | vm_compute; reflexivity].
Defined.

(** The scenarios of the specification on the four-CPU host. *)
Example bind_0_then_migrate :
  exists p,
    stress_set_cpu_affinity host (host_setaffinity 4) 4 "0" (boot 4) = Return (0, p) /\
    stress_affinity_cpu_set p = {[0]} /\
    fst (stress_change_cpu host (host_setaffinity 4) host_getaffinity host_get_cpu
           1 1 (-1) p) = 0.
Proof. eexists. split; [vm_compute; reflexivity|]. split; vm_compute; reflexivity. Qed.

Example bind_0_2to3_then_migrate :
  exists p,
    stress_set_cpu_affinity host (host_setaffinity 4) 4 "0,2-3" (boot 4) = Return (0, p) /\
    stress_affinity_cpu_set p = {[0; 2; 3]} /\
    applied (snd (stress_change_cpu host (host_setaffinity 4) host_getaffinity host_get_cpu
                    1 1 2 p)) = [{[0; 2; 3]}; {[0; 3]}].
Proof. eexists. split; [vm_compute; reflexivity|]. split; vm_compute; reflexivity. Qed.

Example bind_rejections :
  map (build_cpu_set 4) ["5"; "3-1"; "-3"; "3-"; "4"; "a"]%string
  = [Exit (InvalidRange 5 3); Exit (InvalidRangeIn "3-1"); Exit (InvalidRange (-3) 3);
     Exit (ExpectingNumber "3-"); Exit (InvalidRange 4 3); Exit (InvalidNumber "a")].
Proof. vm_compute. reflexivity. Qed.

(** Without a cached mask the operation starts from the kernel's. *)
Example migrate_unbound :
  applied (snd (stress_change_cpu host (host_setaffinity 4) host_getaffinity host_get_cpu
                  1 1 0 unbound_process)) = [{[1; 2; 3]}].
Proof. vm_compute. reflexivity. Qed.

(** With change-cpu disabled the operation returns its input and calls
    nothing. *)
Lemma migrate_disabled K sched_setaffinity sched_getaffinity stress_get_cpu
    g_opt_flags OPT_FLAGS_CHANGE_CPU old_cpu (p : process K) :
  Z.land g_opt_flags OPT_FLAGS_CHANGE_CPU = 0 ->
  stress_change_cpu K sched_setaffinity sched_getaffinity stress_get_cpu
    g_opt_flags OPT_FLAGS_CHANGE_CPU old_cpu p = (old_cpu, p).
Proof. intros H. unfold stress_change_cpu. by rewrite H. Qed.

End AffinityFacts.

(** ** Part V: further properties of the memcpy stressor *)

Module MemcpyExtras.
Import Memcpy MemcpyFacts.

(** *** The naive copy *)

Lemma copy_forward_outside k : forall cdest csrc m q,
  ~ (cdest <= q < cdest + Z.of_nat k) -> copy_forward k cdest csrc m q = m q.
Proof.
  induction k as [|k IH]; intros cdest csrc m q Hq; cbn [copy_forward]; [reflexivity|].
  rewrite IH by lia. apply store_ne. lia.
Qed.

Lemma mod_step i d :
  0 < d -> 1 <= i ->
  (i mod d = 0 /\ (i - 1) mod d = d - 1) \/
  (i mod d <> 0 /\ (i - 1) mod d = i mod d - 1).
Proof.
  intros Hd Hi.
  pose proof (Z.mod_pos_bound i d Hd) as Hb.
  pose proof (Z.div_mod i d ltac:(lia)) as Hdm.
  destruct (Z.eq_dec (i mod d) 0) as [H0|H0]; [left|right]; (split; [assumption|]).
  - symmetry. apply (Z.mod_unique_pos (i - 1) d (i / d - 1)); lia.
  - symmetry. apply (Z.mod_unique_pos (i - 1) d (i / d)); lia.
Qed.

(** The forward loop into a block that starts [d > 0] bytes above its
    source repeats the first [d] source bytes. *)
Lemma copy_forward_replicates k : forall cdest csrc m i,
  csrc < cdest -> 0 <= i < Z.of_nat k ->
  copy_forward k cdest csrc m (cdest + i) = m (csrc + i mod (cdest - csrc)).
Proof.
  induction k as [|k IH]; intros cdest csrc m i Hd Hi; [lia|].
  cbn [copy_forward].
  destruct (Z.eq_dec i 0) as [->|Hi0].
  - rewrite copy_forward_outside by lia. rewrite Z.add_0_r, store_eq.
    rewrite Z.mod_0_l by lia. f_equal. lia.
  - replace (cdest + i) with (cdest + 1 + (i - 1)) by lia.
    rewrite IH by lia.
    replace (cdest + 1 - (csrc + 1)) with (cdest - csrc) by lia.
    destruct (mod_step i (cdest - csrc)) as [[H0 H1]|[H0 H1]]; try lia; rewrite H1.
    + rewrite H0. replace (csrc + 1 + (cdest - csrc - 1)) with cdest by lia.
      rewrite store_eq. f_equal. lia.
    + pose proof (Z.mod_pos_bound i (cdest - csrc) ltac:(lia)).
      rewrite store_ne by lia. f_equal. lia.
Qed.

(** X1. When the destination does not start above the source inside it
    ([dest <= src], or the blocks are disjoint), the naive copy leaves the
    old [src[0..n)] in [dest[0..n)], changes no other byte, and returns
    [dest]. *)
Theorem naive_memcpy_copies dest src n m q :
  dest <= src \/ src + n <= dest ->
  fst (test_naive_memcpy dest src n m) = dest /\
  snd (test_naive_memcpy dest src n m) q =
    if bool_decide (dest <= q < dest + n) then m (src + (q - dest)) else m q.
Proof.
  intros Hsafe. unfold test_naive_memcpy. cbn [fst snd]. split; [reflexivity|].
  destruct (Z.le_gt_cases n 0) as [Hn|Hn].
  - replace (Z.to_nat n) with O by lia. cbn [copy_forward].
    case_bool_decide; [lia | reflexivity].
  - rewrite copy_forward_blit by lia. rewrite blit_to_nat. reflexivity.
Qed.

Lemma naive_memcpy_copies_witness :
  fst (test_naive_memcpy 0 2 4 ramp) = 0 /\
  snd (test_naive_memcpy 0 2 4 ramp) 3 =
    if bool_decide (0 <= 3 < 0 + 4) then ramp (2 + (3 - 0)) else ramp 3.
Proof. apply (naive_memcpy_copies 0 2 4 ramp 3). lia. Defined.

(** X2. When the destination starts [d = dest - src > 0] bytes above the
    source, the naive copy fills [dest[0..n)] with the first [d] source
    bytes over and over: [dest[i]] ends as the old [src[i mod d]]. (For
    [d >= n] that is the plain copy.) *)
Theorem naive_memcpy_overlap_replicates dest src n m i :
  src < dest -> 0 <= i < n ->
  snd (test_naive_memcpy dest src n m) (dest + i) = m (src + i mod (dest - src)).
Proof.
  intros Hd Hi. unfold test_naive_memcpy. cbn [snd].
  apply copy_forward_replicates; lia.
Qed.

Lemma naive_memcpy_overlap_replicates_witness :
  snd (test_naive_memcpy 2 0 7 ramp) (2 + 5) = ramp (0 + 5 mod (2 - 0)).
Proof. apply (naive_memcpy_overlap_replicates 2 0 7 ramp 5); lia. Defined.

Example naive_memcpy_replicates_pairs :
  map (snd (test_naive_memcpy 4 2 6 ramp)) [2; 3; 4; 5; 6; 7; 8; 9; 10]
  = [Byte.x02; Byte.x03; Byte.x02; Byte.x03; Byte.x02; Byte.x03; Byte.x02; Byte.x03;
     Byte.x0a].
Proof. reflexivity. Qed.

(** *** The naive move *)

(** X3. The naive move writes only into [dest[0..n)]: every byte outside
    that block keeps its value, whatever the overlap; with [n <= 0] it
    changes nothing at all. *)
Theorem naive_memmove_frame dest src n m q :
  ~ (dest <= q < dest + n) ->
  snd (test_naive_memmove dest src n m) q = m q.
Proof.
  intros Hq. destruct (test_naive_memmove_contract dest src n m) as [_ Hmem].
  rewrite Hmem. unfold blit. case_bool_decide; [lia | reflexivity].
Qed.

Lemma naive_memmove_frame_witness :
  snd (test_naive_memmove 1 0 4 ramp) 5 = ramp 5.
Proof. apply (naive_memmove_frame 1 0 4 ramp 5). lia. Defined.

(** *** What the checking wrappers log *)

Lemma byte_to_N_inj a b : Byte.to_N a = Byte.to_N b -> a = b.
Proof.
  intros H. pose proof (Byte.of_to_N a) as Ha. rewrite H, Byte.of_to_N in Ha.
  by injection Ha.
Qed.

Lemma memcmp_loop_zero k : forall m s1 s2,
  memcmp_loop k m s1 s2 = 0 <->
  forall i, 0 <= i < Z.of_nat k -> m (s1 + i) = m (s2 + i).
Proof.
  induction k as [|k IH]; intros m s1 s2; cbn [memcmp_loop].
  - split; [intros _ i Hi; lia | reflexivity].
  - cbv zeta. destruct (Z.eqb_spec (Z.of_N (Byte.to_N (m s1))) (Z.of_N (Byte.to_N (m s2))))
      as [Heq|Hne].
    + assert (m s1 = m s2) as H0 by (apply byte_to_N_inj; lia).
      rewrite IH. split.
      * intros H i Hi. destruct (Z.eq_dec i 0) as [->|Hi0]; [by rewrite !Z.add_0_r|].
        replace (s1 + i) with (s1 + 1 + (i - 1)) by lia.
        replace (s2 + i) with (s2 + 1 + (i - 1)) by lia. apply H. lia.
      * intros H i Hi.
        replace (s1 + 1 + i) with (s1 + (i + 1)) by lia.
        replace (s2 + 1 + i) with (s2 + (i + 1)) by lia. apply H. lia.
    + split; [lia|]. intros H. exfalso. apply Hne.
      specialize (H 0 ltac:(lia)). rewrite !Z.add_0_r in H. by rewrite H.
Qed.

Lemma memcmp_zero m s1 s2 n :
  memcmp m s1 s2 n = 0 <-> forall i, 0 <= i < n -> m (s1 + i) = m (s2 + i).
Proof.
  unfold memcmp. rewrite memcmp_loop_zero. split; intros H i Hi; apply H; lia.
Qed.

(** X4. A checking wrapper leaves the failure log as it was exactly when
    the wrapped primitive returned [dest] and, in the memory it left,
    [dest[0..n)] and [src[0..n)] hold the same bytes; otherwise it appends
    a line. The comparison reads the source after the call, not before. *)
Theorem check_wrappers_log func dest src n st :
  let ptr := fst (func dest src n (mem st)) in
  let m' := snd (func dest src n (mem st)) in
  (failures (snd (memcpy_check_func func dest src n st)) = failures st <->
   ptr = dest /\ forall i, 0 <= i < n -> m' (dest + i) = m' (src + i)) /\
  (failures (snd (memmove_check_func func dest src n st)) = failures st <->
   ptr = dest /\ forall i, 0 <= i < n -> m' (dest + i) = m' (src + i)).
Proof.
  cbv zeta. unfold memcpy_check_func, memmove_check_func.
  destruct (func dest src n (mem st)) as [ptr m']. cbn [fst snd set_mem mem].
  rewrite <- memcmp_zero.
  destruct (Z.eqb_spec (memcmp m' dest src n) 0) as [Hc|Hc];
    destruct (Z.eqb_spec ptr dest) as [Hp|Hp]; cbn [negb pr_fail failures snd];
    (split; (split; [intros H|intros [H1 H2]]));
    try done;
    try (exfalso; rewrite <- ?app_assoc in H;
         apply (f_equal (@length failure)) in H; rewrite !length_app in H;
         cbn in H; lia).
Qed.

(** *** Every method, on the memory *)

Section Methods.

Variables memcpy memmove bcpy bmove : memcpy_func_t.
Hypothesis memcpy_ok : memcpy_contract memcpy.
Hypothesis memmove_ok : memmove_contract memmove.
Hypothesis bcpy_ok : memcpy_contract bcpy.
Hypothesis bmove_ok : memmove_contract bmove.
Variables b buf : pointer.

Local Abbreviation table := (stress_memcpy_methods memcpy memmove bcpy bmove true b).
Local Abbreviation run f st := (f (str1_of buf) (str2_of buf) (str3_of buf) st).

Lemma libc_mem st :
  mem_eq (mem (run (stress_memcpy_libc memcpy memmove) st)) (pattern_mem buf (mem st)).
Proof.
  intros q. rewrite stress_memcpy_libc_unfold.
  exact (method_mem memcpy memmove memcpy_ok memmove_ok buf "libc" st q).
Qed.

Lemma builtin_mem st :
  mem_eq (mem (run (stress_memcpy_builtin memcpy memmove bcpy bmove true b) st))
         (pattern_mem buf (mem st)).
Proof.
  destruct (builtin_wrappers_contract bcpy bmove bcpy_ok bmove_ok) as [Hwc Hwm].
  intros q. rewrite stress_memcpy_builtin_unfold.
  exact (method_mem _ _ Hwc Hwm buf "builtin" st q).
Qed.

Lemma mem_set_whence w st : mem (set_whence w st) = mem st.
Proof. reflexivity. Qed.

Lemma naive_mem st :
  mem_eq (mem (run stress_memcpy_naive st)) (pattern_mem buf (mem st)).
Proof. exact (naive_method_mem "naive" buf st). Qed.

Lemma naive_o0_mem st :
  mem_eq (mem (run stress_memcpy_naive_o0 st)) (pattern_mem buf (mem st)).
Proof. exact (naive_method_mem "naive_o0" buf st). Qed.

Lemma naive_o3_mem st :
  mem_eq (mem (run stress_memcpy_naive_o3 st)) (pattern_mem buf (mem st)).
Proof. exact (naive_method_mem "naive_o3" buf st). Qed.

Lemma all_mem st :
  mem_eq (mem (run (stress_memcpy_all memcpy memmove bcpy bmove true b) st))
         (pattern_mem buf (mem st)).
Proof.
  intros q.
  destruct (Z.eq_dec (whence st) 0) as [H0|H0].
  { rewrite (all_case_0 _ _ _ _ _ _ _ _ _ st H0), libc_mem. by rewrite mem_set_whence. }
  destruct (Z.eq_dec (whence st) 1) as [H1|H1].
  { rewrite (all_case_1 _ _ _ _ _ _ _ _ _ st H1), builtin_mem. by rewrite mem_set_whence. }
  destruct (Z.eq_dec (whence st) 2) as [H2|H2].
  { rewrite (all_case_2 _ _ _ _ _ _ _ _ _ st H2).
    rewrite naive_mem. by rewrite mem_set_whence. }
  destruct (Z.eq_dec (whence st) 3) as [H3|H3].
  { rewrite (all_case_3 _ _ _ _ _ _ _ _ _ st H3).
    rewrite naive_o0_mem. by rewrite mem_set_whence. }
  rewrite (all_case_default _ _ _ _ _ _ _ _ _ st) by lia.
  rewrite mem_set_whence. apply naive_o3_mem.
Qed.

(** Whatever entry of the method table runs, the memory it leaves is the
    one a single pass of the pattern leaves. *)
Lemma table_entry_mem name f st :
  In (name, f) table -> mem_eq (mem (run f st)) (pattern_mem buf (mem st)).
Proof.
  unfold stress_memcpy_methods. cbn [In].
  intros [H|[H|[H|[H|[H|[H|[H|[H|[]]]]]]]]]; injection H as _ <-.
  - apply all_mem.
  - apply libc_mem.
  - apply builtin_mem.
  - exact (naive_method_mem "naive" buf st).
  - exact (naive_method_mem "naive_o0" buf st).
  - exact (naive_method_mem "naive_o1" buf st).
  - exact (naive_method_mem "naive_o2" buf st).
  - exact (naive_method_mem "naive_o3" buf st).
Qed.

End Methods.

(** X5. With primitives that meet their contracts, one call of any entry
    of the method table (intrinsics present) leaves [str1] a copy of the
    initial [str2], leaves [str2] as it was, leaves in [str3] the initial
    [str2] with the last byte replaced by the one before it, and changes no
    byte outside the [3 * N] bytes of the three buffers. *)
Theorem every_method_copies_str2 memcpy memmove bcpy bmove b buf st name f :
  memcpy_contract memcpy -> memmove_contract memmove ->
  memcpy_contract bcpy -> memmove_contract bmove ->
  In (name, f) (stress_memcpy_methods memcpy memmove bcpy bmove true b) ->
  let final := mem (f (str1_of buf) (str2_of buf) (str3_of buf) st) in
  (forall i, 0 <= i < MEMCPY_MEMSIZE ->
     final (str1_of buf + i) = mem st (str2_of buf + i) /\
     final (str2_of buf + i) = mem st (str2_of buf + i)) /\
  (forall i, 0 <= i < MEMCPY_MEMSIZE - 1 ->
     final (str3_of buf + i) = mem st (str2_of buf + i)) /\
  final (str3_of buf + (MEMCPY_MEMSIZE - 1)) = mem st (str2_of buf + (MEMCPY_MEMSIZE - 2)) /\
  (forall q, ~ (buf <= q < buf + 3 * MEMCPY_MEMSIZE) -> final q = mem st q).
Proof.
  intros Hc Hm Hbc Hbm Hin final.
  assert (mem_eq final (pattern_mem buf (mem st))) as Hfinal
    by exact (table_entry_mem memcpy memmove bcpy bmove Hc Hm Hbc Hbm b buf name f st Hin).
  clearbody final. repeat split.
  - rewrite Hfinal. by apply pattern_mem_str1.
  - rewrite Hfinal. unfold pattern_mem, str3_of, str2_of, str1_of, MEMCPY_MEMSIZE in *.
    repeat (case_bool_decide; try lia); reflexivity.
  - intros Hi. rewrite Hfinal. by apply pattern_mem_str3.
  - rewrite Hfinal. apply pattern_mem_str3_last.
  - intros q Hq. rewrite Hfinal.
    unfold pattern_mem, str3_of, str2_of, str1_of, MEMCPY_MEMSIZE in *.
    repeat (case_bool_decide; try lia); reflexivity.
Qed.

Lemma every_method_copies_str2_witness :
  let final := mem (stress_memcpy_all test_naive_memcpy test_naive_memmove
                      test_naive_memcpy test_naive_memmove true 0
                      (str1_of 0) (str2_of 0) (str3_of 0)
                      (initial_state ramp "memcpy" true)) in
  (forall i, 0 <= i < MEMCPY_MEMSIZE ->
     final (str1_of 0 + i) = ramp (str2_of 0 + i) /\
     final (str2_of 0 + i) = ramp (str2_of 0 + i)) /\
  (forall i, 0 <= i < MEMCPY_MEMSIZE - 1 ->
     final (str3_of 0 + i) = ramp (str2_of 0 + i)) /\
  final (str3_of 0 + (MEMCPY_MEMSIZE - 1)) = ramp (str2_of 0 + (MEMCPY_MEMSIZE - 2)) /\
  (forall q, ~ (0 <= q < 0 + 3 * MEMCPY_MEMSIZE) -> final q = ramp q).
Proof.
  apply (every_method_copies_str2 test_naive_memcpy test_naive_memmove
           test_naive_memcpy test_naive_memmove 0 0
           (initial_state ramp "memcpy" true) "all"%string).
  - apply test_naive_memcpy_contract.
  - apply test_naive_memmove_contract.
  - apply test_naive_memcpy_contract.
  - apply test_naive_memmove_contract.
  - left. reflexivity.
Defined.

(** X6. On the memory every entry of the method table does the same, and
    doing it again changes nothing: a call of one entry after a call of
    another leaves the memory the first call left, and any two entries
    started from the same state leave the same memory. *)
Theorem methods_agree_and_repeat memcpy memmove bcpy bmove b buf st name1 f1 name2 f2 :
  memcpy_contract memcpy -> memmove_contract memmove ->
  memcpy_contract bcpy -> memmove_contract bmove ->
  In (name1, f1) (stress_memcpy_methods memcpy memmove bcpy bmove true b) ->
  In (name2, f2) (stress_memcpy_methods memcpy memmove bcpy bmove true b) ->
  let st1 := f1 (str1_of buf) (str2_of buf) (str3_of buf) st in
  let st2 := f2 (str1_of buf) (str2_of buf) (str3_of buf) st in
  let st12 := f2 (str1_of buf) (str2_of buf) (str3_of buf) st1 in
  mem_eq (mem st1) (mem st2) /\ mem_eq (mem st12) (mem st1).
Proof.
  intros Hc Hm Hbc Hbm Hin1 Hin2 st1 st2 st12.
  pose proof (table_entry_mem memcpy memmove bcpy bmove Hc Hm Hbc Hbm b buf
                name1 f1 st Hin1) as H1.
  pose proof (table_entry_mem memcpy memmove bcpy bmove Hc Hm Hbc Hbm b buf
                name2 f2 st Hin2) as H2.
  pose proof (table_entry_mem memcpy memmove bcpy bmove Hc Hm Hbc Hbm b buf
                name2 f2 st1 Hin2) as H12.
  change (mem_eq (mem st1) (pattern_mem buf (mem st))) in H1.
  change (mem_eq (mem st2) (pattern_mem buf (mem st))) in H2.
  change (mem_eq (mem st12) (pattern_mem buf (mem st1))) in H12.
  clearbody st1 st2 st12. split; intros q.
  - by rewrite H1, H2.
  - rewrite H12, H1.
    rewrite (pattern_mem_ext buf (mem st1) (pattern_mem buf (mem st)) H1 q).
    apply pattern_mem_idem.
Qed.

Lemma methods_agree_and_repeat_witness :
  let st := initial_state ramp "memcpy" false in
  let st1 := stress_memcpy_libc test_naive_memcpy test_naive_memmove
               (str1_of 0) (str2_of 0) (str3_of 0) st in
  let st2 := stress_memcpy_naive_o2 (str1_of 0) (str2_of 0) (str3_of 0) st in
  let st12 := stress_memcpy_naive_o2 (str1_of 0) (str2_of 0) (str3_of 0) st1 in
  mem_eq (mem st1) (mem st2) /\ mem_eq (mem st12) (mem st1).
Proof.
  apply (methods_agree_and_repeat test_naive_memcpy test_naive_memmove
           test_naive_memcpy test_naive_memmove 0 0
           (initial_state ramp "memcpy" false) "libc"%string _ "naive_o2"%string).
  - apply test_naive_memcpy_contract.
  - apply test_naive_memmove_contract.
  - apply test_naive_memcpy_contract.
  - apply test_naive_memmove_contract.
  - right. left. reflexivity.
  - do 6 right. left. reflexivity.
Defined.

(** *** Verification over a whole method *)

(** The lines a checking wrapper appends. *)
Lemma check_func_appends func dest src n st :
  failures (snd (memcpy_check_func func dest src n st)) =
    failures st
    ++ (if memcmp (snd (func dest src n (mem st))) dest src n =? 0 then []
        else [ContentDiffers "memcpy" (s_args_name st) (s_method_name st)])
    ++ (if fst (func dest src n (mem st)) =? dest then []
        else [ReturnDiffers "memcpy" (s_args_name st) (s_method_name st)
                (fst (func dest src n (mem st))) dest]) /\
  failures (snd (memmove_check_func func dest src n st)) =
    failures st
    ++ (if memcmp (snd (func dest src n (mem st))) dest src n =? 0 then []
        else [ContentDiffers "memmove" (s_args_name st) (s_method_name st)])
    ++ (if fst (func dest src n (mem st)) =? dest then []
        else [ReturnDiffers "memmove" (s_args_name st) (s_method_name st)
                (fst (func dest src n (mem st))) dest]).
Proof.
  unfold memcpy_check_func, memmove_check_func.
  destruct (func dest src n (mem st)) as [ptr m']. cbn [fst snd set_mem mem].
  destruct (memcmp m' dest src n =? 0), (ptr =? dest);
    cbn [negb pr_fail failures snd s_args_name s_method_name];
    rewrite <- ?app_assoc, ?app_nil_r; by split.
Qed.

(** Through either wrapper the log only grows. *)
Lemma check_log_grows func dest src n st :
  (exists extra, failures (snd (memcpy_check func dest src n st)) = failures st ++ extra) /\
  (exists extra, failures (snd (memmove_check func dest src n st)) = failures st ++ extra).
Proof.
  unfold memcpy_check, memmove_check.
  destruct (check_func_appends func dest src n st) as [Hc Hm].
  destruct (no_check_func_data func dest src n st) as [Hnc Hnm].
  destruct (verify st).
  - rewrite Hc, Hm. split; eauto.
  - rewrite Hnc, Hnm. cbn [snd set_mem failures].
    split; exists []; by rewrite app_nil_r.
Qed.

(** A wrapped call whose source block lies in a stretch of equal bytes
    spreads that stretch over the destination block and logs nothing. *)
Lemma quiet_step func dest src n st lo hi lo' hi' c :
  fst (func dest src n (mem st)) = dest ->
  mem_eq (snd (func dest src n (mem st))) (blit (mem st) dest src n) ->
  const_between (mem st) lo hi c ->
  lo <= src -> src + n <= hi ->
  (forall q, lo' <= q < hi' -> lo <= q < hi \/ dest <= q < dest + n) ->
  (failures (snd (memcpy_check func dest src n st)) = failures st /\
   const_between (mem (snd (memcpy_check func dest src n st))) lo' hi' c /\
   verify (snd (memcpy_check func dest src n st)) = verify st) /\
  (failures (snd (memmove_check func dest src n st)) = failures st /\
   const_between (mem (snd (memmove_check func dest src n st))) lo' hi' c /\
   verify (snd (memmove_check func dest src n st)) = verify st).
Proof.
  intros Hret Hmem Hconst Hlo Hhi Hcover.
  assert (forall q, lo <= q < hi \/ dest <= q < dest + n ->
                    snd (func dest src n (mem st)) q = c) as Hall.
  { intros q Hq. rewrite Hmem. unfold blit. case_bool_decide; apply Hconst; lia. }
  assert (memcmp (snd (func dest src n (mem st))) dest src n = 0) as Hcmp.
  { apply memcmp_zero. intros i Hi. rewrite !Hall by lia. reflexivity. }
  destruct (memcpy_check_frame func dest src n st) as (Hm1 & _ & _ & Hv1).
  destruct (memmove_check_frame func dest src n st) as (Hm2 & _ & _ & Hv2).
  assert (failures (snd (memcpy_check func dest src n st)) = failures st /\
          failures (snd (memmove_check func dest src n st)) = failures st) as [Hf1 Hf2].
  { unfold memcpy_check, memmove_check.
    destruct (check_func_appends func dest src n st) as [Hc Hm].
    destruct (no_check_func_data func dest src n st) as [Hnc Hnm].
    destruct (verify st).
    - rewrite Hc, Hm, Hcmp, Hret, !Z.eqb_refl. cbn [app]. by rewrite app_nil_r.
    - rewrite Hnc, Hnm. by split. }
  split; (split; [assumption|]); (split; [|assumption]).
  - intros q Hq. rewrite Hm1. apply Hall. by apply Hcover.
  - intros q Hq. rewrite Hm2. apply Hall. by apply Hcover.
Qed.

Section Quiet.

Variables cpy move : memcpy_func_t.
Hypothesis cpy_ok : memcpy_contract cpy.
Hypothesis move_ok : memmove_contract move.
Variable buf : pointer.
Variable c : Byte.byte.

(** One copy step of the pattern on a state [st] whose bytes from [lo] to
    [hi] are all [c]: names the state after the step and records what the
    step kept. *)
Ltac copy_step st Hconst lo' hi' st' F C V :=
  match goal with
  | |- context [memcpy_check cpy ?d ?s ?n st] =>
      let Hr := fresh "Hr" in
      let Hm := fresh "Hm" in
      destruct (cpy_ok d s n (mem st) ltac:(lia)) as [Hr Hm];
      destruct (quiet_step cpy d s n st _ _ lo' hi' c Hr Hm Hconst
                  ltac:(lia) ltac:(lia) ltac:(intros; lia)) as [(F & C & V) _];
      set (st' := snd (memcpy_check cpy d s n st)) in *; clearbody st'; clear Hr Hm
  end.

Ltac move_step st Hconst lo' hi' st' F C V :=
  match goal with
  | |- context [memmove_check move ?d ?s ?n st] =>
      let Hr := fresh "Hr" in
      let Hm := fresh "Hm" in
      destruct (move_ok d s n (mem st)) as [Hr Hm];
      destruct (quiet_step move d s n st _ _ lo' hi' c Hr Hm Hconst
                  ltac:(lia) ltac:(lia) ltac:(intros; lia)) as [_ (F & C & V)];
      set (st' := snd (memmove_check move d s n st)) in *; clearbody st'; clear Hr Hm
  end.

Lemma inner_pattern_quiet st :
  const_between (mem st) (str2_of buf) (str2_of buf + MEMCPY_MEMSIZE) c ->
  failures (inner_pattern cpy move (str1_of buf) (str2_of buf) (str3_of buf) st)
    = failures st /\
  const_between (mem (inner_pattern cpy move (str1_of buf) (str2_of buf) (str3_of buf) st))
    buf (buf + 3 * MEMCPY_MEMSIZE) c /\
  verify (inner_pattern cpy move (str1_of buf) (str2_of buf) (str3_of buf) st)
    = verify st.
Proof.
  intros H0. unfold inner_pattern.
  unfold str3_of, str2_of, str1_of, MEMCPY_MEMSIZE in *.
  change (2048 `div` 2) with 1024. cbv zeta.
  copy_step st H0 (buf + 2048) (buf + 6144) st1 F1 C1 V1.
  copy_step st1 C1 (buf + 2048) (buf + 6144) st2 F2 C2 V2.
  move_step st2 C2 (buf + 2048) (buf + 6144) st3 F3 C3 V3.
  copy_step st3 C3 buf (buf + 6144) st4 F4 C4 V4.
  move_step st4 C4 buf (buf + 6144) st5 F5 C5 V5.
  copy_step st5 C5 buf (buf + 6144) st6 F6 C6 V6.
  move_step st6 C6 buf (buf + 6144) st7 F7 C7 V7.
  move_step st7 C7 buf (buf + 6144) st8 F8 C8 V8.
  split; [congruence|]. split; [|congruence].
  intros q Hq. apply C8. lia.
Qed.

Lemma for_loops_quiet k : forall st,
  const_between (mem st) (str2_of buf) (str2_of buf + MEMCPY_MEMSIZE) c ->
  failures (for_loops (S k) (inner_pattern cpy move (str1_of buf) (str2_of buf) (str3_of buf)) st)
    = failures st /\
  const_between
    (mem (for_loops (S k) (inner_pattern cpy move (str1_of buf) (str2_of buf) (str3_of buf)) st))
    buf (buf + 3 * MEMCPY_MEMSIZE) c.
Proof.
  induction k as [|k IH]; intros st H0.
  - cbn [for_loops]. destruct (inner_pattern_quiet st H0) as (F & C & _). by split.
  - change (for_loops (S (S k)) ?f st) with (for_loops (S k) f (f st)).
    destruct (inner_pattern_quiet st H0) as (F & C & _).
    destruct (IH (inner_pattern cpy move (str1_of buf) (str2_of buf) (str3_of buf) st))
      as [F' C'].
    { intros q Hq. apply C. unfold str2_of, str1_of, MEMCPY_MEMSIZE in *. lia. }
    split; [congruence | exact C'].
Qed.

Lemma method_quiet method st :
  const_between (mem st) (str2_of buf) (str2_of buf + MEMCPY_MEMSIZE) c ->
  failures (STRESS_MEMCPY_NAIVE method cpy move (str1_of buf) (str2_of buf) (str3_of buf) st)
    = failures st /\
  const_between
    (mem (STRESS_MEMCPY_NAIVE method cpy move (str1_of buf) (str2_of buf) (str3_of buf) st))
    buf (buf + 3 * MEMCPY_MEMSIZE) c.
Proof.
  intros H0. unfold STRESS_MEMCPY_NAIVE.
  replace (Z.to_nat MEMCPY_LOOPS) with (S (Z.to_nat (MEMCPY_LOOPS - 1)))
    by (unfold MEMCPY_LOOPS; lia).
  exact (for_loops_quiet _ (set_method_name method st) H0).
Qed.

End Quiet.

Section QuietTable.

Variables memcpy memmove bcpy bmove : memcpy_func_t.
Hypothesis memcpy_ok : memcpy_contract memcpy.
Hypothesis memmove_ok : memmove_contract memmove.
Hypothesis bcpy_ok : memcpy_contract bcpy.
Hypothesis bmove_ok : memmove_contract bmove.
Variables b buf : pointer.
Variable c : Byte.byte.

Local Abbreviation table := (stress_memcpy_methods memcpy memmove bcpy bmove true b).
Local Abbreviation run f st := (f (str1_of buf) (str2_of buf) (str3_of buf) st).
Local Abbreviation quiet f :=
  (forall st,
     const_between (mem st) (str2_of buf) (str2_of buf + MEMCPY_MEMSIZE) c ->
     failures (run f st) = failures st /\
     const_between (mem (run f st)) buf (buf + 3 * MEMCPY_MEMSIZE) c).

Lemma libc_quiet : quiet (stress_memcpy_libc memcpy memmove).
Proof.
  intros st H0. rewrite stress_memcpy_libc_unfold.
  exact (method_quiet memcpy memmove memcpy_ok memmove_ok buf c "libc" st H0).
Qed.

Lemma builtin_quiet : quiet (stress_memcpy_builtin memcpy memmove bcpy bmove true b).
Proof.
  destruct (builtin_wrappers_contract bcpy bmove bcpy_ok bmove_ok) as [Hwc Hwm].
  intros st H0. rewrite stress_memcpy_builtin_unfold.
  exact (method_quiet _ _ Hwc Hwm buf c "builtin" st H0).
Qed.

Lemma naive_quiet method : quiet (STRESS_MEMCPY_NAIVE method test_naive_memcpy test_naive_memmove).
Proof.
  intros st H0.
  exact (method_quiet _ _ test_naive_memcpy_contract test_naive_memmove_contract
           buf c method st H0).
Qed.

Lemma naive_quiet_plain : quiet stress_memcpy_naive.
Proof. exact (naive_quiet "naive"). Qed.
Lemma naive_quiet_o0 : quiet stress_memcpy_naive_o0.
Proof. exact (naive_quiet "naive_o0"). Qed.
Lemma naive_quiet_o3 : quiet stress_memcpy_naive_o3.
Proof. exact (naive_quiet "naive_o3"). Qed.

Lemma all_quiet : quiet (stress_memcpy_all memcpy memmove bcpy bmove true b).
Proof.
  intros st H0.
  destruct (Z.eq_dec (whence st) 0) as [E0|E0].
  { rewrite (all_case_0 _ _ _ _ _ _ _ _ _ st E0). exact (libc_quiet (set_whence 1 st) H0). }
  destruct (Z.eq_dec (whence st) 1) as [E1|E1].
  { rewrite (all_case_1 _ _ _ _ _ _ _ _ _ st E1). exact (builtin_quiet (set_whence 2 st) H0). }
  destruct (Z.eq_dec (whence st) 2) as [E2|E2].
  { rewrite (all_case_2 _ _ _ _ _ _ _ _ _ st E2).
    exact (naive_quiet_plain (set_whence 3 st) H0). }
  destruct (Z.eq_dec (whence st) 3) as [E3|E3].
  { rewrite (all_case_3 _ _ _ _ _ _ _ _ _ st E3).
    exact (naive_quiet_o0 (set_whence 4 st) H0). }
  rewrite (all_case_default _ _ _ _ _ _ _ _ _ st) by lia.
  destruct (naive_quiet_o3 st H0) as [F C].
  generalize dependent (stress_memcpy_naive_o3 (str1_of buf) (str2_of buf) (str3_of buf) st).
  intros st' F C. by split.
Qed.

Lemma table_entry_quiet name f : In (name, f) table -> quiet f.
Proof.
  unfold stress_memcpy_methods. cbn [In].
  intros [H|[H|[H|[H|[H|[H|[H|[H|[]]]]]]]]]; injection H as _ <-.
  - apply all_quiet.
  - apply libc_quiet.
  - apply builtin_quiet.
  - exact (naive_quiet "naive").
  - exact (naive_quiet "naive_o0").
  - exact (naive_quiet "naive_o1").
  - exact (naive_quiet "naive_o2").
  - exact (naive_quiet "naive_o3").
Qed.

End QuietTable.

(** X7. When every byte of [str2] is the same value [c] (as in the
    zero-filled region the stressor allocates), one call of any entry of the
    method table, with primitives that meet their contracts, logs no
    failure, with or without verification, and leaves all [3 * N] bytes of
    the three buffers equal to [c]. *)
Theorem constant_source_verifies memcpy memmove bcpy bmove b buf c st name f :
  memcpy_contract memcpy -> memmove_contract memmove ->
  memcpy_contract bcpy -> memmove_contract bmove ->
  In (name, f) (stress_memcpy_methods memcpy memmove bcpy bmove true b) ->
  const_between (mem st) (str2_of buf) (str2_of buf + MEMCPY_MEMSIZE) c ->
  failures (f (str1_of buf) (str2_of buf) (str3_of buf) st) = failures st /\
  const_between (mem (f (str1_of buf) (str2_of buf) (str3_of buf) st))
    buf (buf + 3 * MEMCPY_MEMSIZE) c.
Proof.
  intros Hc Hm Hbc Hbm Hin H0.
  exact (table_entry_quiet memcpy memmove bcpy bmove Hc Hm Hbc Hbm b buf c name f Hin st H0).
Qed.

Lemma constant_source_verifies_witness :
  let st := initial_state zero_mem "memcpy" true in
  failures (stress_memcpy_naive (str1_of 0) (str2_of 0) (str3_of 0) st) = failures st /\
  const_between (mem (stress_memcpy_naive (str1_of 0) (str2_of 0) (str3_of 0) st))
    0 (0 + 3 * MEMCPY_MEMSIZE) Byte.x00.
Proof.
  apply (constant_source_verifies test_naive_memcpy test_naive_memmove
           test_naive_memcpy test_naive_memmove 0 0 Byte.x00
           (initial_state zero_mem "memcpy" true) "naive"%string).
  - apply test_naive_memcpy_contract.
  - apply test_naive_memmove_contract.
  - apply test_naive_memcpy_contract.
  - apply test_naive_memmove_contract.
  - do 3 right. left. reflexivity.
  - intros q _. reflexivity.
Defined.

(** *** Verification on data that is not constant *)

Lemma log_grows_trans (a b c : state) :
  (exists e, failures b = failures a ++ e) ->
  (exists e, failures c = failures b ++ e) ->
  exists e, failures c = failures a ++ e.
Proof. intros [e1 H1] [e2 H2]. exists (e1 ++ e2). by rewrite H2, H1, app_assoc. Qed.

Lemma log_grows_refl (a : state) : exists e, failures a = failures a ++ e.
Proof. exists []. by rewrite app_nil_r. Qed.

(** Closes [exists e, failures X = failures st ++ e] for a state [X] made
    from [st] by wrapper calls. *)
Ltac log_chain :=
  repeat first
    [ eapply log_grows_trans; [|apply (proj1 (check_log_grows _ _ _ _ _))]
    | eapply log_grows_trans; [|apply (proj2 (check_log_grows _ _ _ _ _))] ];
  apply log_grows_refl.

Lemma for_loops_log_grows body :
  (forall st, exists e, failures (body st) = failures st ++ e) ->
  forall k st, exists e, failures (for_loops k body st) = failures st ++ e.
Proof.
  intros Hbody k. induction k as [|k IH]; intros st; cbn [for_loops].
  - apply log_grows_refl.
  - eapply log_grows_trans; [apply Hbody | apply IH].
Qed.

Section Reports.

Variables cpy move : memcpy_func_t.
Hypothesis cpy_ok : memcpy_contract cpy.
Hypothesis move_ok : memmove_contract move.
Variable buf : pointer.

Local Abbreviation body :=
  (inner_pattern cpy move (str1_of buf) (str2_of buf) (str3_of buf)).

Lemma inner_pattern_log_grows st : exists e, failures (body st) = failures st ++ e.
Proof. unfold inner_pattern. cbv zeta. log_chain. Qed.

(** The seventh step moves [str3], by then a copy of [str2], up by one
    byte; the check then compares the moved block with the source as the
    move left it, and they differ at index 1 when [str2[0] <> str2[1]]. *)
Lemma inner_pattern_reports st :
  verify st = true ->
  mem st (str2_of buf) <> mem st (str2_of buf + 1) ->
  exists e, e <> [] /\ failures (body st) = failures st ++ e.
Proof.
  intros Hv Hne. unfold inner_pattern. cbv zeta.
  match goal with
  | |- context [memmove_check move (str3_of buf + 1) (str3_of buf) ?n ?x] =>
      set (st6 := x)
  end.
  assert (same_globals st6 st) as (_ & _ & Hv6) by (subst st6; wrapper_chain).
  rewrite Hv in Hv6.
  assert (exists e, failures st6 = failures st ++ e) as [e6 He6]
    by (subst st6; log_chain).
  assert (mem st6 (str3_of buf) = mem st (str2_of buf) /\
          mem st6 (str3_of buf + 1) = mem st (str2_of buf + 1)) as [Ha Hb].
  { subst st6. wrappers_to_primitives.
    unfold str3_of, str2_of, str1_of, MEMCPY_MEMSIZE.
    change (2048 `div` 2) with 1024.
    split;
      repeat (first [rewrite (move_blit move move_ok)
                    | rewrite (cpy_blit cpy cpy_ok) by lia];
              unfold blit at 1; case_bool_decide; try lia);
      f_equal; lia. }
  clearbody st6.
  set (st7 := snd (memmove_check move (str3_of buf + 1) (str3_of buf)
                     (MEMCPY_MEMSIZE - 1) st6)).
  assert (exists e, e <> [] /\ failures st7 = failures st6 ++ e) as (e7 & Hne7 & He7).
  { subst st7. unfold memmove_check. rewrite Hv6.
    destruct (check_func_appends move (str3_of buf + 1) (str3_of buf)
                (MEMCPY_MEMSIZE - 1) st6) as [_ ->].
    destruct (move_ok (str3_of buf + 1) (str3_of buf) (MEMCPY_MEMSIZE - 1) (mem st6))
      as [_ Hm].
    destruct (Z.eqb_spec (memcmp (snd (move (str3_of buf + 1) (str3_of buf)
                                         (MEMCPY_MEMSIZE - 1) (mem st6)))
                            (str3_of buf + 1) (str3_of buf) (MEMCPY_MEMSIZE - 1)) 0)
      as [Hz|Hnz].
    - exfalso. apply Hne. rewrite memcmp_zero in Hz.
      specialize (Hz 1 ltac:(unfold MEMCPY_MEMSIZE; lia)).
      rewrite !Hm in Hz. unfold blit, MEMCPY_MEMSIZE in Hz.
      repeat (case_bool_decide; try lia).
      replace (str3_of buf + (str3_of buf + 1 + 1 - (str3_of buf + 1)))
        with (str3_of buf + 1) in Hz by lia.
      replace (str3_of buf + (str3_of buf + 1 - (str3_of buf + 1)))
        with (str3_of buf) in Hz by lia.
      congruence.
    - eexists. split; [|reflexivity]. discriminate. }
  destruct (proj2 (check_log_grows move (str3_of buf) (str3_of buf + 1)
                     (MEMCPY_MEMSIZE - 1) st7)) as [e8 He8].
  fold st7. rewrite He8, He7, He6. exists (e6 ++ e7 ++ e8).
  split; [|by rewrite !app_assoc].
  destruct e6; [destruct e7; [done | discriminate] | discriminate].
Qed.

Lemma method_reports method st :
  verify st = true ->
  mem st (str2_of buf) <> mem st (str2_of buf + 1) ->
  exists e, e <> [] /\
    failures (STRESS_MEMCPY_NAIVE method cpy move (str1_of buf) (str2_of buf) (str3_of buf) st)
    = failures st ++ e.
Proof.
  intros Hv Hne. unfold STRESS_MEMCPY_NAIVE. cbv zeta.
  replace (Z.to_nat MEMCPY_LOOPS) with (S (Z.to_nat (MEMCPY_LOOPS - 1)))
    by (unfold MEMCPY_LOOPS; lia).
  generalize (Z.to_nat (MEMCPY_LOOPS - 1)). intros k. cbn [for_loops].
  destruct (inner_pattern_reports (set_method_name method st) Hv Hne) as (e1 & Hne1 & He1).
  destruct (for_loops_log_grows body inner_pattern_log_grows k
              (body (set_method_name method st))) as [e2 He2].
  rewrite He2, He1. exists (e1 ++ e2). split; [|by rewrite app_assoc].
  destruct e1; [done | discriminate].
Qed.

End Reports.

Section ReportsTable.

Variables memcpy memmove bcpy bmove : memcpy_func_t.
Hypothesis memcpy_ok : memcpy_contract memcpy.
Hypothesis memmove_ok : memmove_contract memmove.
Hypothesis bcpy_ok : memcpy_contract bcpy.
Hypothesis bmove_ok : memmove_contract bmove.
Variables b buf : pointer.

Local Abbreviation table := (stress_memcpy_methods memcpy memmove bcpy bmove true b).
Local Abbreviation run f st := (f (str1_of buf) (str2_of buf) (str3_of buf) st).
Local Abbreviation reports f :=
  (forall st,
     verify st = true ->
     mem st (str2_of buf) <> mem st (str2_of buf + 1) ->
     exists e, e <> [] /\ failures (run f st) = failures st ++ e).

Lemma libc_reports : reports (stress_memcpy_libc memcpy memmove).
Proof.
  intros st Hv Hne. rewrite stress_memcpy_libc_unfold.
  exact (method_reports memcpy memmove memcpy_ok memmove_ok buf "libc" st Hv Hne).
Qed.

Lemma builtin_reports : reports (stress_memcpy_builtin memcpy memmove bcpy bmove true b).
Proof.
  destruct (builtin_wrappers_contract bcpy bmove bcpy_ok bmove_ok) as [Hwc Hwm].
  intros st Hv Hne. rewrite stress_memcpy_builtin_unfold.
  exact (method_reports _ _ Hwc Hwm buf "builtin" st Hv Hne).
Qed.

Lemma naive_reports method :
  reports (STRESS_MEMCPY_NAIVE method test_naive_memcpy test_naive_memmove).
Proof.
  intros st Hv Hne.
  exact (method_reports _ _ test_naive_memcpy_contract test_naive_memmove_contract
           buf method st Hv Hne).
Qed.

Lemma naive_reports_plain : reports stress_memcpy_naive.
Proof. exact (naive_reports "naive"). Qed.
Lemma naive_reports_o0 : reports stress_memcpy_naive_o0.
Proof. exact (naive_reports "naive_o0"). Qed.
Lemma naive_reports_o3 : reports stress_memcpy_naive_o3.
Proof. exact (naive_reports "naive_o3"). Qed.

Lemma all_reports : reports (stress_memcpy_all memcpy memmove bcpy bmove true b).
Proof.
  intros st Hv Hne.
  destruct (Z.eq_dec (whence st) 0) as [E0|E0].
  { rewrite (all_case_0 _ _ _ _ _ _ _ _ _ st E0).
    exact (libc_reports (set_whence 1 st) Hv Hne). }
  destruct (Z.eq_dec (whence st) 1) as [E1|E1].
  { rewrite (all_case_1 _ _ _ _ _ _ _ _ _ st E1).
    exact (builtin_reports (set_whence 2 st) Hv Hne). }
  destruct (Z.eq_dec (whence st) 2) as [E2|E2].
  { rewrite (all_case_2 _ _ _ _ _ _ _ _ _ st E2).
    exact (naive_reports_plain (set_whence 3 st) Hv Hne). }
  destruct (Z.eq_dec (whence st) 3) as [E3|E3].
  { rewrite (all_case_3 _ _ _ _ _ _ _ _ _ st E3).
    exact (naive_reports_o0 (set_whence 4 st) Hv Hne). }
  rewrite (all_case_default _ _ _ _ _ _ _ _ _ st) by lia.
  destruct (naive_reports_o3 st Hv Hne) as (e & He & Hf).
  generalize dependent (stress_memcpy_naive_o3 (str1_of buf) (str2_of buf) (str3_of buf) st).
  intros st' Hf. exists e. by split.
Qed.

Lemma table_entry_reports name f : In (name, f) table -> reports f.
Proof.
  unfold stress_memcpy_methods. cbn [In].
  intros [H|[H|[H|[H|[H|[H|[H|[H|[]]]]]]]]]; injection H as _ <-.
  - apply all_reports.
  - apply libc_reports.
  - apply builtin_reports.
  - exact (naive_reports "naive").
  - exact (naive_reports "naive_o0").
  - exact (naive_reports "naive_o1").
  - exact (naive_reports "naive_o2").
  - exact (naive_reports "naive_o3").
Qed.

End ReportsTable.

(** X8. With verification on, one call of any entry of the method table
    appends at least one failure line whenever the first two bytes of
    [str2] differ, even though the primitives meet their contracts: the
    check after the seventh step compares the block just moved up by one
    byte with its overlapping source as the move left it. *)
Theorem verification_reports_correct_moves memcpy memmove bcpy bmove b buf st name f :
  memcpy_contract memcpy -> memmove_contract memmove ->
  memcpy_contract bcpy -> memmove_contract bmove ->
  In (name, f) (stress_memcpy_methods memcpy memmove bcpy bmove true b) ->
  verify st = true ->
  mem st (str2_of buf) <> mem st (str2_of buf + 1) ->
  exists e, e <> [] /\
    failures (f (str1_of buf) (str2_of buf) (str3_of buf) st) = failures st ++ e.
Proof.
  intros Hc Hm Hbc Hbm Hin Hv Hne.
  exact (table_entry_reports memcpy memmove bcpy bmove Hc Hm Hbc Hbm b buf name f Hin
           st Hv Hne).
Qed.

Lemma verification_reports_correct_moves_witness :
  let st := initial_state ramp "memcpy" true in
  exists e, e <> [] /\
    failures (stress_memcpy_libc test_naive_memcpy test_naive_memmove
                (str1_of 0) (str2_of 0) (str3_of 0) st) = failures st ++ e.
Proof.
  apply (verification_reports_correct_moves test_naive_memcpy test_naive_memmove
           test_naive_memcpy test_naive_memmove 0 0
           (initial_state ramp "memcpy" true) "libc"%string).
  - apply test_naive_memcpy_contract.
  - apply test_naive_memmove_contract.
  - apply test_naive_memcpy_contract.
  - apply test_naive_memmove_contract.
  - right. left. reflexivity.
  - reflexivity.
  - vm_compute. discriminate.
Defined.

(** *** The stressor on its zero-filled mapping *)

Lemma memcpy_method_in_table memcpy memmove bcpy bmove have b s :
  In (memcpy_method memcpy memmove bcpy bmove have b s)
     (stress_memcpy_methods memcpy memmove bcpy bmove have b).
Proof.
  unfold memcpy_method. cbv zeta.
  set (tbl := stress_memcpy_methods memcpy memmove bcpy bmove have b).
  set (i := match memcpy_method_setting s with Some i => i | None => O end).
  destruct (Nat.lt_ge_cases i (length tbl)) as [Hlt|Hge].
  - by apply nth_In.
  - rewrite nth_overflow by exact Hge. left. reflexivity.
Qed.

Lemma stress_loop_quiet (f : state -> state) buf c :
  (forall st,
     const_between (mem st) (str2_of buf) (str2_of buf + MEMCPY_MEMSIZE) c ->
     failures (f st) = failures st /\
     const_between (mem (f st)) buf (buf + 3 * MEMCPY_MEMSIZE) c) ->
  forall answers st counter,
    const_between (mem st) (str2_of buf) (str2_of buf + MEMCPY_MEMSIZE) c ->
    failures (fst (stress_loop f answers st counter)) = failures st /\
    const_between (mem (fst (stress_loop f answers st counter)))
      buf (buf + 3 * MEMCPY_MEMSIZE) c /\
    snd (stress_loop f answers st counter) = counter + 1 + leading_trues answers.
Proof.
  intros Hf answers. induction answers as [|a answers IH]; intros st counter H0.
  - cbn [stress_loop leading_trues fst snd]. destruct (Hf st H0) as [F C].
    repeat split; [exact F | exact C | lia].
  - cbn [stress_loop leading_trues]. destruct (Hf st H0) as [F C]. destruct a.
    + destruct (IH (f st) (counter + 1)) as (F' & C' & N').
      { intros q Hq. apply C. unfold str2_of, str1_of, MEMCPY_MEMSIZE in *. lia. }
      repeat split; [congruence | exact C' | lia].
    + cbn [fst snd]. repeat split; [exact F | exact C | lia].
Qed.

(** X16. On a freshly mapped, zero-filled region the stressor only ever
    copies zeros: whatever method is selected, whatever bytes
    [stress_rndbuf] puts into the first [ALIGN_SIZE] bytes of [str3] (the
    first step of the pattern overwrites them with [str2] before anything
    reads them), and however long the loop runs, the run ends with
    EXIT_SUCCESS, an empty failure log even with verification on, all three
    buffers zero, and a counter of one more than the number of times
    [keep_stressing] answered yes. A failed mapping gives EXIT_NO_RESOURCE
    and no call at all. *)
Theorem stressor_copies_zeros memcpy memmove bcpy bmove b
    EXIT_SUCCESS EXIT_NO_RESOURCE stress_rndbuf
    buf m args_name opt_verify s answers :
  memcpy_contract memcpy -> memmove_contract memmove ->
  memcpy_contract bcpy -> memmove_contract bmove ->
  const_between m buf (buf + 3 * MEMCPY_MEMSIZE) Byte.x00 ->
  (forall q, ~ (str3_of buf <= q < str3_of buf + ALIGN_SIZE) ->
             stress_rndbuf (str3_of buf) ALIGN_SIZE m q = m q) ->
  let run mapped :=
    stress_memcpy memcpy memmove bcpy bmove true b EXIT_SUCCESS EXIT_NO_RESOURCE
      stress_rndbuf mapped m args_name opt_verify s answers in
  run None = (EXIT_NO_RESOURCE, None) /\
  exists st,
    run (Some buf) = (EXIT_SUCCESS, Some (st, 1 + leading_trues answers)) /\
    failures st = [] /\
    const_between (mem st) buf (buf + 3 * MEMCPY_MEMSIZE) Byte.x00.
Proof.
  intros Hc Hm Hbc Hbm Hzero Hrnd run. subst run. split; [reflexivity|].
  unfold stress_memcpy. cbv zeta.
  pose proof (memcpy_method_in_table memcpy memmove bcpy bmove true b s) as Hin.
  destruct (memcpy_method memcpy memmove bcpy bmove true b s) as [name f].
  cbn [snd].
  pose proof (table_entry_quiet memcpy memmove bcpy bmove Hc Hm Hbc Hbm b buf Byte.x00
                name f Hin) as Hquiet.
  set (st0 := initial_state (stress_rndbuf (buf + MEMCPY_MEMSIZE + MEMCPY_MEMSIZE)
                               ALIGN_SIZE m) args_name opt_verify).
  destruct (stress_loop_quiet (f (str1_of buf) (str2_of buf) (str3_of buf)) buf Byte.x00
              Hquiet answers st0 0) as (F & C & N).
  { intros q Hq. subst st0. cbn [initial_state mem].
    change (buf + MEMCPY_MEMSIZE + MEMCPY_MEMSIZE) with (str3_of buf).
    rewrite Hrnd by (unfold str3_of, str2_of, str1_of, MEMCPY_MEMSIZE, ALIGN_SIZE in *; lia).
    apply Hzero. unfold str2_of, str1_of, MEMCPY_MEMSIZE in *. lia. }
  change (f buf (buf + MEMCPY_MEMSIZE) (buf + MEMCPY_MEMSIZE + MEMCPY_MEMSIZE))
    with (f (str1_of buf) (str2_of buf) (str3_of buf)).
  destruct (stress_loop (f (str1_of buf) (str2_of buf) (str3_of buf)) answers st0 0)
    as [st n].
  cbn [fst snd] in *. exists st. subst n. split; [|split].
  - replace (0 + 1 + leading_trues answers) with (1 + leading_trues answers) by lia.
    reflexivity.
  - rewrite F. reflexivity.
  - exact C.
Qed.

Lemma stressor_copies_zeros_witness :
  let run mapped :=
    stress_memcpy test_naive_memcpy test_naive_memmove test_naive_memcpy test_naive_memmove
      true 0 0 3 (fun ptr _ m => store m ptr Byte.xff)
      mapped zero_mem "memcpy" true (mkSettings None []) [true; true; false] in
  run None = (3, None) /\
  exists st,
    run (Some 0) = (0, Some (st, 1 + leading_trues [true; true; false])) /\
    failures st = [] /\
    const_between (mem st) 0 (0 + 3 * MEMCPY_MEMSIZE) Byte.x00.
Proof.
  apply (stressor_copies_zeros test_naive_memcpy test_naive_memmove
           test_naive_memcpy test_naive_memmove 0 0 3
           (fun ptr _ m => store m ptr Byte.xff)
           0 zero_mem "memcpy"%string true (mkSettings None []) [true; true; false]).
  - apply test_naive_memcpy_contract.
  - apply test_naive_memmove_contract.
  - apply test_naive_memcpy_contract.
  - apply test_naive_memmove_contract.
  - intros q _. reflexivity.
  - intros q Hq. apply store_ne. unfold ALIGN_SIZE in Hq. lia.
Defined.

(** *** The cursor of the "all" method *)

Lemma succ_mod_5 a :
  0 <= a ->
  (a + 1) mod 5 = if a mod 5 =? 4 then 0 else a mod 5 + 1.
Proof.
  intros Ha. pose proof (Z.mod_pos_bound a 5 ltac:(lia)) as Hb.
  pose proof (Z.div_mod a 5 ltac:(lia)) as Hdm.
  destruct (Z.eqb_spec (a mod 5) 4) as [H4|H4]; symmetry.
  - apply (Z.mod_unique_pos (a + 1) 5 (a / 5 + 1)); lia.
  - apply (Z.mod_unique_pos (a + 1) 5 (a / 5)); lia.
Qed.

(** X9. From the initial cursor, after any number [k] of calls of the "all"
    method the cursor is [k mod 5], so call number [k + 1] runs libc,
    builtin, naive, naive_o0 or naive_o3 according to [k mod 5]; and from any
    cursor value whatever, one call leaves the cursor in [0, 4]. *)
Theorem all_cursor_cycles memcpy memmove bcpy bmove have b str1 str2 str3 st k :
  whence st = 0 ->
  let all := stress_memcpy_all memcpy memmove bcpy bmove have b str1 str2 str3 in
  whence (Nat.iter k all st) = Z.of_nat k mod 5 /\
  s_method_name (all (Nat.iter k all st)) =
    (if Z.of_nat k mod 5 =? 0 then "libc"%string
     else if Z.of_nat k mod 5 =? 1
          then (if have then "builtin"%string else "builtin (libc)"%string)
     else if Z.of_nat k mod 5 =? 2 then "naive"%string
     else if Z.of_nat k mod 5 =? 3 then "naive_o0"%string
     else "naive_o3"%string) /\
  (forall st', 0 <= whence (all st') <= 4).
Proof.
  intros H0 all.
  pose proof (all_globals memcpy memmove bcpy bmove have b str1 str2 str3) as G.
  fold all in G.
  assert (forall st', 0 <= whence (all st') <= 4) as Hrange.
  { intros st'. specialize (G st').
    destruct (whence st' =? 0); [injection G as _ ->; lia|].
    destruct (whence st' =? 1); [injection G as _ ->; lia|].
    destruct (whence st' =? 2); [injection G as _ ->; lia|].
    destruct (whence st' =? 3); [injection G as _ ->; lia|].
    injection G as _ ->; lia. }
  assert (whence (Nat.iter k all st) = Z.of_nat k mod 5) as Hk.
  { clearbody all. induction k as [|k IH]; [exact H0|].
    change (Nat.iter (S k) all st) with (all (Nat.iter k all st)).
    replace (Z.of_nat (S k)) with (Z.of_nat k + 1) by lia.
    rewrite succ_mod_5 by lia. rewrite <- IH.
    pose proof (Hrange (Nat.iter k all st)) as Hr.
    specialize (G (Nat.iter k all st)).
    set (X := Nat.iter k all st) in *. clearbody X.
    pose proof (Z.mod_pos_bound (Z.of_nat k) 5 ltac:(lia)) as Hb. rewrite <- IH in Hb.
    destruct (Z.eqb_spec (whence X) 0); [injection G as _ ->|].
    { destruct (Z.eqb_spec (whence X) 4); lia. }
    destruct (Z.eqb_spec (whence X) 1); [injection G as _ ->|].
    { destruct (Z.eqb_spec (whence X) 4); lia. }
    destruct (Z.eqb_spec (whence X) 2); [injection G as _ ->|].
    { destruct (Z.eqb_spec (whence X) 4); lia. }
    destruct (Z.eqb_spec (whence X) 3); [injection G as _ ->|].
    { destruct (Z.eqb_spec (whence X) 4); lia. }
    injection G as _ ->. destruct (Z.eqb_spec (whence X) 4); lia. }
  split; [exact Hk|]. split; [|exact Hrange].
  specialize (G (Nat.iter k all st)). rewrite Hk in G.
  clearbody all.
  destruct (Z.of_nat k mod 5 =? 0); [by injection G|].
  destruct (Z.of_nat k mod 5 =? 1); [by injection G|].
  destruct (Z.of_nat k mod 5 =? 2); [by injection G|].
  destruct (Z.of_nat k mod 5 =? 3); [by injection G|].
  by injection G.
Qed.

Lemma all_cursor_cycles_witness :
  let all := stress_memcpy_all test_naive_memcpy test_naive_memmove
               test_naive_memcpy test_naive_memmove true 0
               (str1_of 0) (str2_of 0) (str3_of 0) in
  let st := initial_state zero_mem "memcpy" false in
  whence (Nat.iter 7 all st) = 7 mod 5 /\
  s_method_name (all (Nat.iter 7 all st)) = "naive"%string.
Proof.
  intros all st.
  destruct (all_cursor_cycles test_naive_memcpy test_naive_memmove
              test_naive_memcpy test_naive_memmove true 0
              (str1_of 0) (str2_of 0) (str3_of 0) st 7%nat eq_refl) as (H1 & H2 & _).
  split; [exact H1 | exact H2].
Defined.

(** *** Choosing the method by name *)

Lemma find_method_none {F : Type} name (tbl : list (string * F)) : forall idx,
  ~ In name (map fst tbl) -> find_method name tbl idx = None.
Proof.
  induction tbl as [|[n f] tbl IH]; intros idx Hnot; cbn [find_method]; [reflexivity|].
  destruct (String.eqb_spec n name) as [->|Hne].
  - exfalso. apply Hnot. by left.
  - apply IH. intros Hin. apply Hnot. by right.
Qed.

Lemma find_method_some {F : Type} name (tbl : list (string * F)) d : forall idx,
  In name (map fst tbl) ->
  exists j, find_method name tbl idx = Some (idx + j)%nat /\ fst (nth j tbl d) = name.
Proof.
  induction tbl as [|[n f] tbl IH]; intros idx Hin; cbn [find_method]; [destruct Hin|].
  destruct (String.eqb_spec n name) as [->|Hne].
  - exists O. by rewrite Nat.add_0_r.
  - destruct Hin as [Heq|Hin]; [by cbn in Heq|].
    destruct (IH (S idx) Hin) as (j & Hj & Hn). exists (S j). split; [|exact Hn].
    rewrite Hj. f_equal. lia.
Qed.

(** X10. Setting the method by name succeeds exactly for the eight names of
    the table: it then returns 0, prints nothing, and the entry the stressor
    will run is the one with that name. For any other name it returns -1,
    leaves the setting as it was and lists the eight names on stderr. With
    nothing set, and after the default initialiser, the entry is "all". *)
Theorem method_name_resolution memcpy memmove bcpy bmove have b name s :
  let names := ["all"; "libc"; "builtin"; "naive"; "naive_o0"; "naive_o1";
                "naive_o2"; "naive_o3"]%string in
  let r := stress_set_memcpy_method memcpy memmove bcpy bmove have b name s in
  (In name names ->
     fst r = 0 /\ stderr (snd r) = stderr s /\
     fst (memcpy_method memcpy memmove bcpy bmove have b (snd r)) = name) /\
  (~ In name names ->
     fst r = -1 /\ memcpy_method_setting (snd r) = memcpy_method_setting s /\
     stderr (snd r) =
       stderr s ++ ["memcpy-method must be one of:"; " all"; " libc"; " builtin";
                    " naive"; " naive_o0"; " naive_o1"; " naive_o2"; " naive_o3";
                    String "010"%char EmptyString]%string) /\
  fst (memcpy_method memcpy memmove bcpy bmove have b (mkSettings None (stderr s)))
    = "all"%string /\
  fst (memcpy_method memcpy memmove bcpy bmove have b
         (stress_memcpy_set_default memcpy memmove bcpy bmove have b s)) = "all"%string.
Proof.
  intros names r. subst r. unfold stress_set_memcpy_method. cbv zeta.
  set (tbl := stress_memcpy_methods memcpy memmove bcpy bmove have b).
  assert (map fst tbl = names) as Hnames by reflexivity.
  split; [|split; [|split]].
  - intros Hin. rewrite <- Hnames in Hin.
    destruct (find_method_some name tbl
                ("all"%string, stress_memcpy_all memcpy memmove bcpy bmove have b)
                O Hin) as (j & -> & Hj).
    cbn [fst snd stderr]. unfold memcpy_method. cbn [memcpy_method_setting].
    fold tbl. by rewrite Nat.add_0_l.
  - intros Hnot. rewrite <- Hnames in Hnot.
    rewrite (find_method_none name tbl O Hnot). cbn [fst snd stderr memcpy_method_setting].
    repeat split.
  - reflexivity.
  - reflexivity.
Qed.

Lemma method_name_resolution_witness :
  let r := stress_set_memcpy_method test_naive_memcpy test_naive_memmove
             test_naive_memcpy test_naive_memmove true 0 "naive_o1" (mkSettings None []) in
  let r' := stress_set_memcpy_method test_naive_memcpy test_naive_memmove
              test_naive_memcpy test_naive_memmove true 0 "fast" (mkSettings (Some 3%nat) []) in
  (fst r = 0 /\ stderr (snd r) = [] /\
   fst (memcpy_method test_naive_memcpy test_naive_memmove
          test_naive_memcpy test_naive_memmove true 0 (snd r)) = "naive_o1"%string) /\
  fst r' = -1 /\ memcpy_method_setting (snd r') = Some 3%nat.
Proof.
  intros r r'. split.
  - apply (method_name_resolution test_naive_memcpy test_naive_memmove
             test_naive_memcpy test_naive_memmove true 0 "naive_o1" (mkSettings None [])).
    do 5 right. left. reflexivity.
  - destruct (proj1 (proj2 (method_name_resolution test_naive_memcpy test_naive_memmove
                              test_naive_memcpy test_naive_memmove true 0 "fast"
                              (mkSettings (Some 3%nat) []))))
      as (H1 & H2 & _).
    + cbn [In]. intros H. repeat (destruct H as [H|H]; [discriminate H|]). exact H.
    + split; [exact H1 | exact H2].
Defined.

End MemcpyExtras.

(** ** Part VI: further properties of the affinity parser and binder *)

Module AffinityExtras.
Import Affinity AffinityFacts.

(** *** What a round of the loop can add *)

(** A round that returns has added CPUs between some [lo] and some [hi],
    both of which passed the range check. *)
Lemma parse_token_inv max_cpus token set set' :
  parse_token max_cpus token set = Return set' ->
  exists lo hi,
    (forall c, c ∈ set' -> c ∈ set \/ lo <= c <= hi) /\ lo <= hi /\
    0 <= lo /\ (max_cpus <> -1 -> hi < max_cpus).
Proof.
  unfold parse_token, stress_parse_cpu.
  destruct (sscanf_d token) as [lo|]; cbn [mbind result_bind]; [|discriminate].
  assert (forall hi, lo <= hi ->
            (_ ← stress_check_cpu_affinity_range max_cpus lo;
             _ ← stress_check_cpu_affinity_range max_cpus hi;
             set_cpus (Z.to_nat (hi - lo + 1)) lo set) = Return set' ->
            exists lo hi,
              (forall c, c ∈ set' -> c ∈ set \/ lo <= c <= hi) /\ lo <= hi /\
              0 <= lo /\ (max_cpus <> -1 -> hi < max_cpus)) as Hchecks.
  { intros hi Hle H.
    destruct (range_check_cases max_cpus lo) as [Hlo|Hlo]; rewrite Hlo in H;
      cbn [mbind result_bind] in H; [|discriminate].
    destruct (range_check_cases max_cpus hi) as [Hhi|Hhi]; rewrite Hhi in H;
      cbn [mbind result_bind] in H; [|discriminate].
    apply range_check_inv in Hlo, Hhi.
    exists lo, hi. split; [|repeat split; tauto || lia].
    intros c Hc. destruct (set_cpus_elem _ _ _ _ c H Hc) as [Hin|Hin];
      [by left | right; lia]. }
  destruct (strstr token "-") as [tmp|]; cbn [mbind result_bind].
  - destruct (tail_string tmp) as [|ch r]; cbn [mbind result_bind]; [discriminate|].
    destruct (sscanf_d (String ch r)) as [hi|]; cbn [mbind result_bind]; [|discriminate].
    destruct (Z.ltb_spec hi lo); cbn [mbind result_bind]; [discriminate|].
    by apply Hchecks.
  - apply Hchecks. lia.
Qed.

Lemma parse_loop_in_range max_cpus fuel : forall save set set',
  parse_loop fuel max_cpus save set = Return set' ->
  (forall c, c ∈ set -> 0 <= c /\ (max_cpus <> -1 -> c < max_cpus)) ->
  forall c, c ∈ set' -> 0 <= c /\ (max_cpus <> -1 -> c < max_cpus).
Proof.
  induction fuel as [|fuel IH]; intros save set set' H Hset; [discriminate|].
  cbn [parse_loop] in H.
  destruct (strtok save) as [[token save']|]; [|by injection H as <-].
  destruct (parse_token max_cpus token set) as [set1| | |] eqn:E;
    cbn [mbind result_bind] in H; try discriminate.
  apply (IH save' set1 set' H).
  apply parse_token_inv in E as (lo & hi & Hadd & Hle & Hlo & Hhi).
  intros c Hc. destruct (Hadd c Hc) as [Hin|Hin]; [by apply Hset|].
  split; [lia|]. intros Hm. specialize (Hhi Hm). lia.
Qed.

(** X11. Whatever the input text, a mask the parser hands on holds only
    CPUs that passed the range check: none is negative, and none reaches
    [max_cpus] unless the upper bound is disabled ([max_cpus = -1]). The
    same holds for the mask a successful bind caches. *)
Theorem bound_mask_in_range K sched_setaffinity max_cpus arg (p p' : process K) r c :
  stress_set_cpu_affinity K sched_setaffinity max_cpus arg p = Return (r, p') ->
  c ∈ stress_affinity_cpu_set p' ->
  build_cpu_set max_cpus arg = Return (stress_affinity_cpu_set p') /\
  0 <= c /\ (max_cpus <> -1 -> c < max_cpus).
Proof.
  intros Hbind Hc. unfold stress_set_cpu_affinity in Hbind.
  destruct (build_cpu_set max_cpus arg) as [set| | |] eqn:E;
    cbn [mbind result_bind] in Hbind; try discriminate.
  unfold call_setaffinity in Hbind.
  destruct (sched_setaffinity set (kernel p)) as [k'|]; [|discriminate].
  injection Hbind as _ <-. cbn [stress_affinity_cpu_set] in *.
  split; [reflexivity|].
  apply (parse_loop_in_range max_cpus _ _ _ _ E); [|exact Hc].
  intros c0 Hc0. unfold CPU_ZERO in Hc0. by apply not_elem_of_empty in Hc0.
Qed.

Lemma bound_mask_in_range_witness :
  build_cpu_set 8 "2,2,3-5,4" = Return {[2; 3; 4; 5]} /\
  0 <= 5 /\ (8 <> -1 -> 5 < 8).
Proof.
  assert (stress_set_cpu_affinity host (host_setaffinity 8) 8 "2,2,3-5,4" (boot 8)
          = Return (0, bound_2_to_5)) as Hbind by (vm_compute; reflexivity).
  assert (5 ∈ stress_affinity_cpu_set bound_2_to_5) as Hin by (vm_compute; reflexivity).
  exact (bound_mask_in_range host (host_setaffinity 8) 8 "2,2,3-5,4" (boot 8)
           bound_2_to_5 0 5 Hbind Hin).
Defined.

(** *** Malformed items *)

Lemma build_cpu_set_first_exit max_cpus arg token save' d :
  strtok arg = Some (token, save') ->
  parse_token max_cpus token CPU_ZERO = Exit d ->
  build_cpu_set max_cpus arg = Exit d.
Proof.
  intros Htok Hexit. unfold build_cpu_set. cbn [parse_loop]. by rewrite Htok, Hexit.
Qed.

Lemma parse_token_reversed max_cpus lo hi set :
  0 <= cpu_value lo < 2 ^ 31 -> 0 <= cpu_value hi < 2 ^ 31 ->
  cpu_value hi < cpu_value lo ->
  parse_token max_cpus (item_string (Range lo hi)) set
  = Exit (InvalidRangeIn (item_string (Range lo hi))).
Proof.
  intros Hlo Hhi Hlt. unfold parse_token. cbn [item_string].
  unfold cpu_string at 1. rewrite strstr_digits_dash.
  rewrite stress_parse_cpu_digits by done.
  cbn [mbind result_bind tail_string].
  rewrite (cpu_string_head hi) at 1.
  rewrite <- (append_empty (cpu_string hi)) at 1.
  rewrite stress_parse_cpu_digits by done.
  cbn [mbind result_bind].
  destruct (Z.ltb_spec (cpu_value hi) (cpu_value lo)); [reflexivity | lia].
Qed.

Lemma parse_token_dangling max_cpus lo set :
  0 <= cpu_value lo < 2 ^ 31 ->
  parse_token max_cpus (String.append (cpu_string lo) "-") set
  = Exit (ExpectingNumber (String.append (cpu_string lo) "-")).
Proof.
  intros Hlo. unfold parse_token.
  unfold cpu_string at 1. rewrite strstr_digits_dash.
  rewrite stress_parse_cpu_digits by done. reflexivity.
Qed.

Lemma parse_token_too_large max_cpus n set :
  0 <= cpu_value n < 2 ^ 31 -> max_cpus <> -1 -> max_cpus <= cpu_value n ->
  parse_token max_cpus (cpu_string n) set
  = Exit (InvalidRange (cpu_value n) (max_cpus - 1)).
Proof.
  intros Hn Hmax Hle. unfold parse_token.
  unfold cpu_string at 1. rewrite strstr_digits.
  rewrite <- (append_empty (cpu_string n)).
  rewrite stress_parse_cpu_digits by done. cbn [mbind result_bind].
  unfold stress_check_cpu_affinity_range.
  destruct (Z.ltb_spec (cpu_value n) 0); [lia|].
  destruct (Z.eqb_spec max_cpus (-1)); [lia|].
  destruct (Z.leb_spec max_cpus (cpu_value n)); [reflexivity | lia].
Qed.

Lemma sscanf_d_negative d ds :
  sscanf_d (String "-" (digits_string (d :: ds)))
  = Some (to_int (clamp_long (- digits_value (d :: ds) 0))).
Proof.
  unfold sscanf_d. cbn [skip_space]. change (isspace "-") with false. cbv iota.
  cbn [digits_string starts_with_digit].
  destruct (digit_char_class d) as (_ & Hd & _ & _). rewrite Hd.
  change (String (digit_char d) (digits_string ds)) with (digits_string (d :: ds)).
  rewrite <- (append_empty (digits_string (d :: ds))).
  by rewrite scan_digits_digits, scan_digits_stop.
Qed.

Lemma to_int_negative v : 0 <= v < 2 ^ 31 -> to_int (clamp_long (- v)) = - v.
Proof.
  intros Hv. unfold to_int, clamp_long.
  rewrite Z.max_r, Z.min_r by lia. rewrite Z.mod_small by lia. lia.
Qed.

Lemma parse_token_negative max_cpus n set :
  0 < cpu_value n < 2 ^ 31 ->
  parse_token max_cpus (String "-" (cpu_string n)) set
  = Exit (InvalidRange (- cpu_value n) (max_cpus - 1)).
Proof.
  intros Hn. unfold parse_token.
  assert (strstr (String "-" (cpu_string n)) "-" = Some (String "-" (cpu_string n))) as ->.
  { change (String "-" (cpu_string n))
      with (String.append (digits_string []) (String "-" (cpu_string n))).
    apply strstr_digits_dash. }
  assert (stress_parse_cpu (String "-" (cpu_string n)) = Return (- cpu_value n)) as ->.
  { destruct n as [d ds]. unfold stress_parse_cpu, cpu_string, cpu_value in *.
    cbn [fst snd] in *. rewrite sscanf_d_negative. by rewrite to_int_negative by lia. }
  cbn [mbind result_bind tail_string].
  rewrite (cpu_string_head n) at 1.
  rewrite <- (append_empty (cpu_string n)) at 1.
  rewrite stress_parse_cpu_digits by (done || lia). cbn [mbind result_bind].
  destruct (Z.ltb_spec (cpu_value n) (- cpu_value n)); [lia|]. cbn [mbind result_bind].
  assert (stress_check_cpu_affinity_range max_cpus (- cpu_value n)
          = Exit (InvalidRange (- cpu_value n) (max_cpus - 1))) as ->; [|reflexivity].
  unfold stress_check_cpu_affinity_range.
  destruct (Z.ltb_spec (- cpu_value n) 0); [reflexivity | lia].
Qed.

(** X12. When the first item of the input is malformed the bind operation
    ends the process before it calls the kernel, with the diagnostic of the
    first test that fails: a range whose end is below its start is an
    invalid range (even when its numbers are also out of bounds), a number
    followed by a bare ['-'] lacks the number after the dash, a CPU index at
    or above [max_cpus] and a negative number are out of the allowed range
    [0 to max_cpus - 1]. *)
Theorem malformed_first_item_rejected K sched_setaffinity max_cpus (p : process K)
    arg save' lo hi :
  0 <= cpu_value lo < 2 ^ 31 -> 0 <= cpu_value hi < 2 ^ 31 ->
  let bind := stress_set_cpu_affinity K sched_setaffinity max_cpus arg p in
  (strtok arg = Some (item_string (Range lo hi), save') ->
   cpu_value hi < cpu_value lo ->
   bind = Exit (InvalidRangeIn (item_string (Range lo hi)))) /\
  (strtok arg = Some (String.append (cpu_string lo) "-", save') ->
   bind = Exit (ExpectingNumber (String.append (cpu_string lo) "-"))) /\
  (strtok arg = Some (cpu_string lo, save') ->
   max_cpus <> -1 -> max_cpus <= cpu_value lo ->
   bind = Exit (InvalidRange (cpu_value lo) (max_cpus - 1))) /\
  (strtok arg = Some (String "-" (cpu_string lo), save') ->
   0 < cpu_value lo ->
   bind = Exit (InvalidRange (- cpu_value lo) (max_cpus - 1))).
Proof.
  intros Hlo Hhi bind. subst bind. repeat split.
  - intros Htok Hlt. apply stress_set_cpu_affinity_exit.
    eapply build_cpu_set_first_exit; [exact Htok|]. by apply parse_token_reversed.
  - intros Htok. apply stress_set_cpu_affinity_exit.
    eapply build_cpu_set_first_exit; [exact Htok|]. by apply parse_token_dangling.
  - intros Htok Hmax Hle. apply stress_set_cpu_affinity_exit.
    eapply build_cpu_set_first_exit; [exact Htok|]. by apply parse_token_too_large.
  - intros Htok Hpos. apply stress_set_cpu_affinity_exit.
    eapply build_cpu_set_first_exit; [exact Htok|]. apply parse_token_negative. lia.
Qed.

Lemma malformed_first_item_rejected_witness :
  stress_set_cpu_affinity host (host_setaffinity 4) 4 "9-1,2" (boot 4)
  = Exit (InvalidRangeIn "9-1").
Proof.
  apply (malformed_first_item_rejected host (host_setaffinity 4) 4 (boot 4)
           "9-1,2" "2" (d9, []) (d1, [])).
  - cbn. lia.
  - cbn. lia.
  - reflexivity.
  - cbn. lia.
Defined.

(** *** Lists are parsed piece by piece *)

(** X13. Parsing is compositional for any two texts whatever: the mask of
    [s1 ++ "," ++ s2] is the union of the mask of [s1] and the mask of
    [s2], and if either part makes the parser exit the whole does, with the
    same diagnostic, a failure in [s1] taking precedence. *)
Theorem list_parsed_by_parts max_cpus s1 s2 :
  build_cpu_set max_cpus (String.append s1 (String "," s2))
  = set1 ← build_cpu_set max_cpus s1;
    set2 ← build_cpu_set max_cpus s2;
    Return (set1 ∪ set2).
Proof.
  unfold build_cpu_set.
  rewrite (parse_loop_app max_cpus s2 _ s1 CPU_ZERO (S (String.length s1))
             (S (String.length s2))) by lia.
  destruct (parse_loop (S (String.length s1)) max_cpus s1 CPU_ZERO) as [set1| | |];
    cbn [mbind result_bind]; try reflexivity.
  rewrite parse_loop_onto. unfold CPU_ZERO.
  destruct (parse_loop (S (String.length s2)) max_cpus s2 ∅) as [set2| | |];
    cbn [mbind result_bind]; try reflexivity.
  f_equal. set_solver.
Qed.

Example list_parsed_by_parts_samples :
  map (build_cpu_set 8) ["0,1,,6-7"; "0,x,9"; "9,x"; ",,3"]%string
  = [Return {[0; 1; 6; 7]}; Exit (InvalidNumber "x"); Exit (InvalidRange 9 7);
     Return {[3]}].
Proof. vm_compute. reflexivity. Qed.

(** *** What migration leaves alone *)

Lemma CPU_COUNT_zero (m : cpu_set_t) : (CPU_COUNT m =? 0) = true <-> m = ∅.
Proof.
  unfold CPU_COUNT. rewrite Z.eqb_eq. split.
  - intros H. assert (size m = 0%nat) as H0 by lia.
    apply size_empty_inv in H0. by apply leibniz_equiv.
  - intros ->. by rewrite size_empty.
Qed.

(** X14. In every branch the migrate operation leaves the cached mask as
    it was and calls [sched_setaffinity] at most once. When it makes no call
    (change-cpu disabled, or nothing cached and the kernel query failing) it
    returns its input and changes nothing; when it makes the call, the mask
    it passes is a subset of the mask it started from. *)
Theorem migrate_touches_little K sched_setaffinity sched_getaffinity stress_get_cpu
    g_opt_flags OPT_FLAGS_CHANGE_CPU old_cpu (p : process K) :
  let r := stress_change_cpu K sched_setaffinity sched_getaffinity stress_get_cpu
             g_opt_flags OPT_FLAGS_CHANGE_CPU old_cpu p in
  stress_affinity_cpu_set (snd r) = stress_affinity_cpu_set p /\
  (if (Z.land g_opt_flags OPT_FLAGS_CHANGE_CPU =? 0)
   then r = (old_cpu, p)
   else match starting_mask K sched_getaffinity p with
        | None => r = (old_cpu, p)
        | Some m0 => exists mask, mask ⊆ m0 /\ applied (snd r) = applied p ++ [mask]
        end).
Proof.
  intros r. subst r.
  destruct (Z.eqb_spec (Z.land g_opt_flags OPT_FLAGS_CHANGE_CPU) 0) as [Hoff|Hon].
  - unfold stress_change_cpu. rewrite Hoff. cbn. by split.
  - destruct (starting_mask K sched_getaffinity p) as [m0|] eqn:Hstart.
    + rewrite (change_cpu_unfold K sched_setaffinity sched_getaffinity stress_get_cpu
                 g_opt_flags OPT_FLAGS_CHANGE_CPU old_cpu p m0 Hon Hstart).
      cbv zeta.
      destruct (sched_setaffinity _ (kernel p)); cbn [snd stress_affinity_cpu_set applied];
        (split; [reflexivity|]); eexists; (split; [|reflexivity]);
        case_bool_decide; unfold CPU_CLR; set_solver.
    + unfold stress_change_cpu.
      destruct (Z.eqb_spec (Z.land g_opt_flags OPT_FLAGS_CHANGE_CPU) 0); [done|].
      rewrite Hstart. by split.
Qed.

(** X15. After a bind that returned with a non-empty mask [S]: the kernel
    accepted exactly [S], [S] is what is cached, and a later migration works
    from [S] alone. Its outcome does not depend on what [sched_getaffinity]
    would answer, and with change-cpu enabled the mask it applies is a
    non-empty subset of [S]. *)
Theorem migrate_after_bind K sched_setaffinity max_cpus arg (p p' : process K) r
    getaffinity1 getaffinity2 stress_get_cpu g_opt_flags OPT_FLAGS_CHANGE_CPU old_cpu :
  stress_set_cpu_affinity K sched_setaffinity max_cpus arg p = Return (r, p') ->
  stress_affinity_cpu_set p' <> ∅ ->
  let S := stress_affinity_cpu_set p' in
  let migrate getaffinity :=
    stress_change_cpu K sched_setaffinity getaffinity stress_get_cpu
      g_opt_flags OPT_FLAGS_CHANGE_CPU old_cpu p' in
  r = 0 /\
  sched_setaffinity S (kernel p) = Some (kernel p') /\
  applied p' = applied p ++ [S] /\
  migrate getaffinity1 = migrate getaffinity2 /\
  (Z.land g_opt_flags OPT_FLAGS_CHANGE_CPU <> 0 ->
   exists mask, mask <> ∅ /\ mask ⊆ S /\
     applied (snd (migrate getaffinity1)) = applied p' ++ [mask]).
Proof.
  intros Hbind Hne S migrate. subst S migrate.
  unfold stress_set_cpu_affinity in Hbind.
  destruct (build_cpu_set max_cpus arg) as [set| | |];
    cbn [mbind result_bind] in Hbind; try discriminate.
  unfold call_setaffinity in Hbind.
  destruct (sched_setaffinity set (kernel p)) as [k'|] eqn:Hk; [|discriminate].
  injection Hbind as <- <-. cbn [stress_affinity_cpu_set kernel applied] in *.
  assert (forall g, starting_mask K g (mkProcess k' set (applied p ++ [set])) = Some set)
    as Hstart.
  { intros g. unfold starting_mask. cbn [stress_affinity_cpu_set].
    destruct (CPU_COUNT set =? 0) eqn:E; [|reflexivity].
    apply CPU_COUNT_zero in E. contradiction. }
  split; [reflexivity|]. split; [exact Hk|]. split; [reflexivity|]. split.
  - unfold stress_change_cpu. by rewrite !Hstart.
  - intros Hon.
    rewrite (change_cpu_unfold K sched_setaffinity getaffinity1 stress_get_cpu
               g_opt_flags OPT_FLAGS_CHANGE_CPU old_cpu _ set Hon (Hstart getaffinity1)).
    cbv zeta.
    exists (if bool_decide (0 <= old_cpu /\ 1 < CPU_COUNT set)
            then CPU_CLR old_cpu set else set).
    split; [|split].
    + case_bool_decide as Hclr; [apply CPU_CLR_nonempty; lia | exact Hne].
    + case_bool_decide; unfold CPU_CLR; set_solver.
    + match goal with |- context [sched_setaffinity ?m ?k] =>
        by destruct (sched_setaffinity m k)
      end.
Qed.

Lemma migrate_after_bind_witness :
  let p' := mkProcess (K := host) (0, {[0; 2; 3]}) {[0; 2; 3]} [{[0; 2; 3]}] in
  let migrate getaffinity :=
    stress_change_cpu host (host_setaffinity 4) getaffinity host_get_cpu 1 1 0 p' in
  0 = 0 /\
  host_setaffinity 4 (stress_affinity_cpu_set p') (kernel (boot 4)) = Some (kernel p') /\
  applied p' = applied (boot 4) ++ [stress_affinity_cpu_set p'] /\
  migrate host_getaffinity = migrate (fun _ => None) /\
  (Z.land 1 1 <> 0 ->
   exists mask, mask <> ∅ /\ mask ⊆ stress_affinity_cpu_set p' /\
     applied (snd (migrate host_getaffinity)) = applied p' ++ [mask]).
Proof.
  intros p' migrate.
  apply (migrate_after_bind host (host_setaffinity 4) 4 "0,2-3" (boot 4) p' 0
           host_getaffinity (fun _ => None) host_get_cpu 1 1 0).
  - vm_compute. reflexivity.
  - vm_compute. discriminate.
Defined.

End AffinityExtras.
